(** * fulgurant/stl: ASCII parser, mesh validator and ray/triangle test

    A shallow embedding of [ray.go], [solid.go] and [readascii.go].

    - Go's [float64] is the kernel's binary64 type [float]; [==], [<] and [>]
      on it are [PrimFloat.eqb] and [PrimFloat.ltb] (every comparison with a
      NaN is false, and [0 == -0]).
    - A [[]T] slice is its element list together with its capacity; a nil
      slice of indices is [None].
    - A Go map keyed by vertex pairs is an association list searched with
      Go's [==] on the keys, so that a key holding a NaN is never found again.
    - The two [bufio.Scanner]s of the parser are modelled by what they
      deliver: the lines of the stream, and for each line its words;
      [streamOfBytes] gives what they deliver for the bytes of an input. *)

From Stdlib Require Import ZArith List Bool Lia String Ascii Floats.
From Stdlib Require Import Permutation DecimalString.
From stdpp Require Import base gmap sets.
Import ListNotations.

Set Warnings "-inexact-float".
Local Open Scope Z_scope.

(** ** Floats *)

Module FloatSpec.

(** What [==] compares of a binary64 value: nothing for a NaN, the kind
    for a zero or an infinity, sign, mantissa and exponent otherwise. *)
Definition SFclass (x : spec_float) : option (bool * positive * Z + nat) :=
  match x with
  | S754_zero _ => Some (inr 0%nat)
  | S754_infinity s => Some (inr (if s then 1%nat else 2%nat))
  | S754_nan => None
  | S754_finite s m e => Some (inl (s, m, e))
  end.

End FloatSpec.

(** ** Vectors and triangles *)

(** [type Vec3 [3]float64] *)
Record Vec3 := mkVec3 { c0 : float; c1 : float; c2 : float }.

(** [type Triangle struct { Normal Vec3; Vertices [3]Vec3 }] *)
Record Triangle := mkTriangle {
  Normal : Vec3;
  V0 : Vec3;
  V1 : Vec3;
  V2 : Vec3
}.

(** [t.Vertices[k]] for the indices the code uses, [k] in 0..2. *)
Definition Vertices (t : Triangle) (k : nat) : Vec3 :=
  match k with
  | O => V0 t
  | S O => V1 t
  | _ => V2 t
  end.

Definition Vec3Zero : Vec3 := mkVec3 0 0 0.

(** The zero value of [Triangle] ([var t Triangle]). *)
Definition zeroTriangle : Triangle := mkTriangle Vec3Zero Vec3Zero Vec3Zero Vec3Zero.

Module Vec.

(** Modelled from the spec: the methods of [Vec3] ([Diff], [Add],
    [MultScalar], [Cross], [Dot]) live in a file that is not part of the
    sources at hand; section 4.6 of the specification uses them as the
    componentwise difference and sum, the scaling by a scalar, the cross
    product and the dot product. *)
Definition Diff (a b : Vec3) : Vec3 :=
  mkVec3 (c0 a - c0 b) (c1 a - c1 b) (c2 a - c2 b).

Definition Add (a b : Vec3) : Vec3 :=
  mkVec3 (c0 a + c0 b) (c1 a + c1 b) (c2 a + c2 b).

Definition MultScalar (a : Vec3) (k : float) : Vec3 :=
  mkVec3 (c0 a * k) (c1 a * k) (c2 a * k).

Definition Cross (a b : Vec3) : Vec3 :=
  mkVec3 (c1 a * c2 b - c2 a * c1 b)
         (c2 a * c0 b - c0 a * c2 b)
         (c0 a * c1 b - c1 a * c0 b).

Definition Dot (a b : Vec3) : float :=
  c0 a * c0 b + c1 a * c1 b + c2 a * c2 b.

End Vec.

(** ** ray.go *)

Module RayGo.
Import Vec.

(** [var epsilon = math.Nextafter(1, 2) - 1] *)
Definition epsilon : float := (next_up 1 - 1)%float.

Record Ray := mkRay { Origin : Vec3; Direction : Vec3 }.

(** The quantities [IntersectsTriangle] computes on its way, in the order of
    the source. *)
Definition edge1 (triangle : Triangle) : Vec3 := Diff (V1 triangle) (V0 triangle).
Definition edge2 (triangle : Triangle) : Vec3 := Diff (V2 triangle) (V0 triangle).
Definition rayCrossE2 (ray : Ray) (triangle : Triangle) : Vec3 :=
  Cross (Direction ray) (edge2 triangle).
Definition det (ray : Ray) (triangle : Triangle) : float :=
  Dot (edge1 triangle) (rayCrossE2 ray triangle).
Definition invDet (ray : Ray) (triangle : Triangle) : float :=
  (1 / det ray triangle)%float.
Definition s_ (ray : Ray) (triangle : Triangle) : Vec3 :=
  Diff (Origin ray) (V0 triangle).
Definition u_ (ray : Ray) (triangle : Triangle) : float :=
  (invDet ray triangle * Dot (s_ ray triangle) (rayCrossE2 ray triangle))%float.
Definition sCrossE1 (ray : Ray) (triangle : Triangle) : Vec3 :=
  Cross (s_ ray triangle) (edge1 triangle).
Definition v_ (ray : Ray) (triangle : Triangle) : float :=
  (invDet ray triangle * Dot (Direction ray) (sCrossE1 ray triangle))%float.
Definition t_ (ray : Ray) (triangle : Triangle) : float :=
  (invDet ray triangle * Dot (edge2 triangle) (sCrossE1 ray triangle))%float.

(** [func (ray Ray) IntersectsTriangle(triangle Triangle) (Vec3, bool)];
    the [println] calls write to standard error only and are left out. *)
Definition IntersectsTriangle (ray : Ray) (triangle : Triangle) : Vec3 * bool :=
  let edge1 := Diff (V1 triangle) (V0 triangle) in
  let edge2 := Diff (V2 triangle) (V0 triangle) in
  let rayCrossE2 := Cross (Direction ray) edge2 in
  let det := Dot edge1 rayCrossE2 in
  if ((- epsilon <? det) && (det <? epsilon))%float then (Vec3Zero, false)
  else
    let invDet := (1 / det)%float in
    let s := Diff (Origin ray) (V0 triangle) in
    let u := (invDet * Dot s rayCrossE2)%float in
    if ((u <? 0) || (1 <? u))%float then (Vec3Zero, false)
    else
      let sCrossE1 := Cross s edge1 in
      let v := (invDet * Dot (Direction ray) sCrossE1)%float in
      if ((v <? 0) || (1 <? u + v))%float then (Vec3Zero, false)
      else
        let t := (invDet * Dot edge2 sCrossE1)%float in
        if (epsilon <? t)%float
        then (Add (Origin ray) (MultScalar (Direction ray) t), true)
        else (Vec3Zero, false).

(** The four miss conditions as the specification words them. *)
Definition parallel (ray : Ray) (triangle : Triangle) : bool :=
  (abs (det ray triangle) <? epsilon)%float.
Definition u_outside (ray : Ray) (triangle : Triangle) : bool :=
  ((u_ ray triangle <? 0) || (1 <? u_ ray triangle))%float.
Definition v_outside (ray : Ray) (triangle : Triangle) : bool :=
  ((v_ ray triangle <? 0) || (1 <? u_ ray triangle + v_ ray triangle))%float.
Definition t_behind (ray : Ray) (triangle : Triangle) : bool :=
  (t_ ray triangle <=? epsilon)%float.

Definition hitPoint (ray : Ray) (triangle : Triangle) : Vec3 :=
  Add (Origin ray) (MultScalar (Direction ray) (t_ ray triangle)).

(** The rule with exactly the four listed miss conditions: a miss when one
    of them holds, a hit at [origin + t * direction] when none does. *)
Definition fourConditionRule (ray : Ray) (triangle : Triangle) : Prop :=
  (parallel ray triangle || u_outside ray triangle
     || v_outside ray triangle || t_behind ray triangle = true ->
   snd (IntersectsTriangle ray triangle) = false)
  /\ (parallel ray triangle || u_outside ray triangle
       || v_outside ray triangle || t_behind ray triangle = false ->
      IntersectsTriangle ray triangle = (hitPoint ray triangle, true)).

(** The triangle and the rays of the specification's examples. *)
Definition unitTriangle : Triangle :=
  mkTriangle Vec3Zero (mkVec3 0 0 0) (mkVec3 1 0 0) (mkVec3 0 1 0).
Definition down : Vec3 := mkVec3 0 0 (-1).

(** A large triangle met by a far ray: every input is finite, [det]
    overflows to infinity and [v] and [t] become NaN. *)
Definition hugeTriangle : Triangle :=
  mkTriangle Vec3Zero (mkVec3 0 0 0) (mkVec3 1e200 0 0) (mkVec3 0 1e200 0).
Definition farRay : Ray := mkRay (mkVec3 0 0 1e200) down.

End RayGo.

(** ** solid.go *)

(** A slice [[]T]: the elements within its length, and its capacity. *)
Record slice (A : Type) := mkSlice { elems : list A; capacity : Z }.
Arguments mkSlice {A} _ _.
Arguments elems {A} _.
Arguments capacity {A} _.

(** [len(s)], a Go [int]. *)
Definition len {A : Type} (s : slice A) : Z := Z.of_nat (length (elems s)).

(** The invariant of every Go slice: [len(s) <= cap(s)]. *)
Definition slice_ok {A : Type} (s : slice A) : Prop := len s <= capacity s.

(** The conversion [uint32(x)] of a non-negative [int]: the low 32 bits. *)
Definition uint32 (x : Z) : Z := x mod 2 ^ 32.

(** [make([]T, l, n)]: [l] zero values, capacity [n]. *)
Definition make {A : Type} (zero : A) (l n : Z) : slice A :=
  mkSlice (repeat zero (Z.to_nat l)) n.

(** [copy(dst, src)] on the elements of [dst]: the first
    [min(len(dst), len(src))] elements are overwritten. *)
Definition copy {A : Type} (dst src : list A) : list A :=
  let k := Nat.min (length dst) (length src) in
  firstn k src ++ skipn k dst.

Record Solid := mkSolid {
  BinaryHeader : list Byte.byte;
  Name : string;
  Triangles : slice Triangle;
  IsAscii : bool
}.

Definition setTriangles (s : Solid) (ts : slice Triangle) : Solid :=
  mkSolid (BinaryHeader s) (Name s) ts (IsAscii s).

Module SolidGo.

(** [func (s *Solid) SetName(name string)] *)
Definition SetName (name : string) (s : Solid) : Solid :=
  mkSolid (BinaryHeader s) name (Triangles s) (IsAscii s).

(** [func (s *Solid) SetBinaryHeader(header []byte)] *)
Definition SetBinaryHeader (header : list Byte.byte) (s : Solid) : Solid :=
  mkSolid header (Name s) (Triangles s) (IsAscii s).

(** [func (s *Solid) SetASCII(isASCII bool)] *)
Definition SetASCII (isASCII : bool) (s : Solid) : Solid :=
  mkSolid (BinaryHeader s) (Name s) (Triangles s) isASCII.

(** [func (s *Solid) SetTriangleCount(n uint32)] *)
Definition SetTriangleCount (n : Z) (s : Solid) : Solid :=
  let l := uint32 (len (Triangles s)) in
  let c := uint32 (capacity (Triangles s)) in
  if n <? l then
    setTriangles s (mkSlice (firstn (Z.to_nat n) (elems (Triangles s)))
                            (capacity (Triangles s)))
  else if n <=? c then s
  else
    let oldTriangles := Triangles s in
    let fresh := make zeroTriangle l n in
    if 0 <? l
    then setTriangles s (mkSlice (copy (elems fresh) (elems oldTriangles)) n)
    else setTriangles s fresh.

(** A solid of [2^32 + 5] triangles. *)
Definition hugeCount : Z := 4294967301.
Definition hugeSolid : Solid :=
  mkSolid [] EmptyString
          (mkSlice (repeat zeroTriangle (Z.to_nat hugeCount)) hugeCount) false.

End SolidGo.

(** *** Findings of [Validate] *)

Module ValidateGo.

(** A [[]int] of triangle indices; the nil slice is [None]. *)
Definition intSlice : Type := option (list nat).

Definition slen (s : intSlice) : nat :=
  match s with
  | Some l => length l
  | None => O
  end.

Definition indices (s : intSlice) : list nat :=
  match s with
  | Some l => l
  | None => []
  end.

Record EdgeError := mkEdgeError {
  SameEdgeTriangles : intSlice;
  CounterEdgeTriangles : intSlice
}.

(** [EdgeErrors [3]*EdgeError]: three pointers, nil being [None]. *)
Record TriangleErrors := mkTriangleErrors {
  HasEqualVertices : bool;
  NormalDoesNotMatch : bool;
  EdgeErrors : list (option EdgeError)
}.

(** [new(EdgeError)] and [new(TriangleErrors)]: the zero values. *)
Definition newEdgeError : EdgeError := mkEdgeError None None.
Definition newTriangleErrors : TriangleErrors :=
  mkTriangleErrors false false [None; None; None].

(** [func (eer *EdgeError) IsUsedInOtherTriangles() bool] and its siblings. *)
Definition IsUsedInOtherTriangles (eer : EdgeError) : bool :=
  negb (slen (SameEdgeTriangles eer) =? 0)%nat.
Definition HasMultipleCounterEdges (eer : EdgeError) : bool :=
  (1 <? slen (CounterEdgeTriangles eer))%nat.
Definition HasNoCounterEdge (eer : EdgeError) : bool :=
  (slen (CounterEdgeTriangles eer) =? 0)%nat.

(** [func (te *TriangleErrors) edge(e int) *EdgeError]: the record after the
    allocation on first use; the pointer returned is slot [e] of it. *)
Definition edge (e : nat) (te : TriangleErrors) : TriangleErrors :=
  match EdgeErrors te !! e with
  | Some (Some _) => te
  | _ => mkTriangleErrors (HasEqualVertices te) (NormalDoesNotMatch te)
                          (<[e := Some newEdgeError]> (EdgeErrors te))
  end.

(** An assignment through the pointer [te.edge(e)]. *)
Definition updEdge (e : nat) (f : EdgeError -> EdgeError) (te : TriangleErrors)
    : TriangleErrors :=
  let te' := edge e te in
  match EdgeErrors te' !! e with
  | Some (Some eer) =>
      mkTriangleErrors (HasEqualVertices te') (NormalDoesNotMatch te')
                       (<[e := Some (f eer)]> (EdgeErrors te'))
  | _ => te'
  end.

(** [type triangleErrorsMap map[int]*TriangleErrors] *)
Abbreviation triangleErrorsMap := (gmap nat TriangleErrors).

(** [func (m triangleErrorsMap) item(triangleIdx int) *TriangleErrors]: the
    map after the entry was created on first use. *)
Definition item (triangleIdx : nat) (m : triangleErrorsMap) : triangleErrorsMap :=
  match m !! triangleIdx with
  | Some _ => m
  | None => <[triangleIdx := newTriangleErrors]> m
  end.

(** An assignment through the pointer [m.item(i)]. *)
Definition updItem (i : nat) (f : TriangleErrors -> TriangleErrors)
    (m : triangleErrorsMap) : triangleErrorsMap :=
  let m' := item i m in
  match m' !! i with
  | Some te => <[i := f te]> m'
  | None => m'
  end.

(** Go's [==] on [Vec3] and on the map key [[2]Vec3]. *)
Definition Vec3eq (a b : Vec3) : bool :=
  ((c0 a =? c0 b) && (c1 a =? c1 b) && (c2 a =? c2 b))%float.

Definition Edge : Type := (Vec3 * Vec3)%type.

Definition keyEq (k k' : Edge) : bool :=
  Vec3eq (fst k) (fst k') && Vec3eq (snd k) (snd k').

(** [map[[2]Vec3]map[int]bool]: the entries in insertion order.  A lookup
    returns the first entry whose key is [==] to the one asked for. *)
Abbreviation edgeMap := (list (Edge * gset nat)).

Fixpoint mapLookup (key : Edge) (m : edgeMap) : option (gset nat) :=
  match m with
  | [] => None
  | (k, x) :: rest => if keyEq k key then Some x else mapLookup key rest
  end.

(** [m[key] = x]: overwrite the entry found, or add one. *)
Fixpoint mapStore (key : Edge) (x : gset nat) (m : edgeMap) : edgeMap :=
  match m with
  | [] => [(key, x)]
  | (k, y) :: rest =>
      if keyEq k key then (k, x) :: rest else (k, y) :: mapStore key x rest
  end.

Record edgeLookup := mkEdgeLookup { edgeToTriangles : edgeMap }.

(** [func newEdgeLookup() *edgeLookup] *)
Definition newEdgeLookup : edgeLookup := mkEdgeLookup [].

(** [func (l *edgeLookup) OtherTrianglesWithEdge(v, w Vec3, i int) []int].
    [order] is the order in which this [range] over the index set delivers
    its members: Go leaves it unspecified and varies it from one loop to
    the next. *)
Definition OtherTrianglesWithEdge (order : gset nat -> list nat)
    (l : edgeLookup) (v w : Vec3) (i : nat) : intSlice :=
  match mapLookup (v, w) (edgeToTriangles l) with
  | None => None
  | Some triangleSet =>
      Some (List.filter (fun t => negb (t =? i)%nat) (order triangleSet))
  end.

(** [func (l *edgeLookup) InsertEdge(triangleIndex int, v, w Vec3)].  The
    index set is a map, hence a reference: writing to it changes the entry
    of the outer map.  [None] is the run-time panic of a write to a nil map,
    which is what the second lookup returns when it fails. *)
Definition InsertEdge (triangleIndex : nat) (v w : Vec3) (l : edgeLookup)
    : option edgeLookup :=
  let key := (v, w) in
  match mapLookup key (edgeToTriangles l) with
  | Some triangleSet =>
      Some (mkEdgeLookup
              (mapStore key ({[triangleIndex]} ∪ triangleSet) (edgeToTriangles l)))
  | None =>
      let m1 := mapStore key ∅ (edgeToTriangles l) in
      match mapLookup key m1 with
      | Some triangleSet =>
          Some (mkEdgeLookup (mapStore key ({[triangleIndex]} ∪ triangleSet) m1))
      | None => None
      end
  end.

Section Validate.

(** [Triangle.hasEqualVertices], [Triangle.checkNormal] and the constant
    [HalfPi] are declared in files that are not part of the sources at hand;
    [Validate] is modelled over them. *)
Variable hasEqualVertices : Triangle -> bool.
Variable checkNormal : Triangle -> float -> bool.
Variable HalfPi : float.

(** The order of each [range] over an index set, by the triangle and edge
    being checked and by the lookup (same edge: [false], counter-edge:
    [true]). *)
Variable rangeOrder : nat -> nat -> bool -> gset nat -> list nat.

(** [const normalAngleTolerance = HalfPi] *)
Definition normalAngleTolerance : float := HalfPi.

(** The body of the first inner loop, for [vertex1]. *)
Definition insertVertexEdge (i : nat) (t : Triangle) (e : option edgeLookup)
    (vertex1 : nat) : option edgeLookup :=
  match e with
  | None => None
  | Some l =>
      let vertex2 := ((vertex1 + 1) mod 3)%nat in
      InsertEdge i (Vertices t vertex1) (Vertices t vertex2) l
  end.

(** The first loop of [Validate], from index [i] on. *)
Fixpoint insertTriangles (i : nat) (ts : list Triangle) (e : option edgeLookup)
    : option edgeLookup :=
  match ts with
  | [] => e
  | t :: rest =>
      insertTriangles (S i) rest (fold_left (insertVertexEdge i t) [0; 1; 2]%nat e)
  end.

(** The body of the second inner loop, for [vertex1]. *)
Definition checkVertexEdge (e : edgeLookup) (i : nat) (t : Triangle)
    (triangleErrors : triangleErrorsMap) (vertex1 : nat) : triangleErrorsMap :=
  let vertex2 := ((vertex1 + 1) mod 3)%nat in
  let sameEdgeTriangles :=
    OtherTrianglesWithEdge (rangeOrder i vertex1 false) e
      (Vertices t vertex1) (Vertices t vertex2) i in
  let m1 :=
    if (0 <? slen sameEdgeTriangles)%nat
    then updItem i (updEdge vertex1 (fun eer =>
           mkEdgeError sameEdgeTriangles (CounterEdgeTriangles eer))) triangleErrors
    else triangleErrors in
  let counterEdgeTriangles :=
    OtherTrianglesWithEdge (rangeOrder i vertex1 true) e
      (Vertices t vertex2) (Vertices t vertex1) i in
  if negb (slen counterEdgeTriangles =? 1)%nat
  then updItem i (updEdge vertex1 (fun eer =>
         mkEdgeError (SameEdgeTriangles eer) counterEdgeTriangles)) m1
  else m1.

(** The body of the second loop, for triangle [i]. *)
Definition checkTriangle (e : edgeLookup) (i : nat) (t : Triangle)
    (triangleErrors : triangleErrorsMap) : triangleErrorsMap :=
  let m1 :=
    if hasEqualVertices t
    then updItem i (fun te => mkTriangleErrors true (NormalDoesNotMatch te)
                                               (EdgeErrors te)) triangleErrors
    else triangleErrors in
  let m2 :=
    if negb (checkNormal t normalAngleTolerance)
    then updItem i (fun te => mkTriangleErrors (HasEqualVertices te) true
                                               (EdgeErrors te)) m1
    else m1 in
  fold_left (checkVertexEdge e i t) [0; 1; 2]%nat m2.

(** The second loop of [Validate], from index [i] on. *)
Fixpoint checkTriangles (e : edgeLookup) (i : nat) (ts : list Triangle)
    (triangleErrors : triangleErrorsMap) : triangleErrorsMap :=
  match ts with
  | [] => triangleErrors
  | t :: rest => checkTriangles e (S i) rest (checkTriangle e i t triangleErrors)
  end.

(** [func (s *Solid) Validate() map[int]*TriangleErrors]; [None] when the
    call panics. *)
Definition Validate (s : Solid) : option triangleErrorsMap :=
  match insertTriangles 0 (elems (Triangles s)) (Some newEdgeLookup) with
  | None => None
  | Some e => Some (checkTriangles e 0 (elems (Triangles s)) ∅)
  end.

End Validate.

(** *** [Validate] and its receiver

    [Validate] has a pointer receiver and reaches every triangle through
    [t := &s.Triangles[i]], a pointer into the slice of the solid.
    [hasEqualVertices] and [checkNormal] are methods of [*Triangle] called
    on that pointer: what they write to their receiver, if anything, is
    written to the solid.  Here the solid is carried through the call, and
    each of the two methods is given by the triangle it leaves and the value
    it returns. *)
Section Receiver.

Variable hasEqualVertices : Triangle -> Triangle * bool.
Variable checkNormal : Triangle -> float -> Triangle * bool.
Variable HalfPi : float.
Variable rangeOrder : nat -> nat -> bool -> gset nat -> list nat.

(** [*t = t'] for [t := &s.Triangles[i]]. *)
Definition storeTriangle (i : nat) (t' : Triangle) (s : Solid) : Solid :=
  setTriangles s (mkSlice (<[i := t']> (elems (Triangles s)))
                          (capacity (Triangles s))).

(** The triangle as the two methods leave it. *)
Definition afterChecks (t : Triangle) : Triangle :=
  fst (checkNormal (fst (hasEqualVertices t)) (normalAngleTolerance HalfPi)).

(** The body of the first loop for index [i]: the vertices are passed to
    [InsertEdge] by value. *)
Definition insertTriangleAt (s : Solid) (e : option edgeLookup) (i : nat)
    : option edgeLookup :=
  match elems (Triangles s) !! i with
  | Some t => fold_left (insertVertexEdge i t) [0; 1; 2]%nat e
  | None => e
  end.

(** The body of the second loop for index [i], on the solid and the
    findings. *)
Definition checkTriangleAt (e : edgeLookup) (st : Solid * triangleErrorsMap)
    (i : nat) : Solid * triangleErrorsMap :=
  let (s, triangleErrors) := st in
  match elems (Triangles s) !! i with
  | None => st
  | Some t =>
      let (t1, equal) := hasEqualVertices t in
      let m1 :=
        if equal
        then updItem i (fun te => mkTriangleErrors true (NormalDoesNotMatch te)
                                                   (EdgeErrors te)) triangleErrors
        else triangleErrors in
      let (t2, matches) := checkNormal t1 (normalAngleTolerance HalfPi) in
      let m2 :=
        if negb matches
        then updItem i (fun te => mkTriangleErrors (HasEqualVertices te) true
                                                   (EdgeErrors te)) m1
        else m1 in
      (storeTriangle i t2 s,
       fold_left (checkVertexEdge rangeOrder e i t2) [0; 1; 2]%nat m2)
  end.

(** A call of [Validate] on the receiver [s]: the solid after the call and
    the map returned; [None] when the call panics.  [range s.Triangles]
    runs over the indices of the slice as it is when the loop starts. *)
Definition ValidateCall (s : Solid) : option (Solid * triangleErrorsMap) :=
  let n := length (elems (Triangles s)) in
  match fold_left (insertTriangleAt s) (seq 0 n) (Some newEdgeLookup) with
  | None => None
  | Some e => Some (fold_left (checkTriangleAt e) (seq 0 n) (s, ∅))
  end.

End Receiver.

End ValidateGo.

(** *** Vocabulary for the properties of [Validate] *)

Module ValidateSpec.
Import ValidateGo.

(** Edge [e] of a triangle joins vertex [e] to vertex [(e+1)%3]. *)
Definition edgeOf (t : Triangle) (e : nat) : Edge :=
  (Vertices t e, Vertices t ((e + 1) mod 3)%nat).

Definition reversed (k : Edge) : Edge := (snd k, fst k).

(** The triangle contains the directed edge [k] (compared with Go's [==]). *)
Definition hasEdge (t : Triangle) (k : Edge) : bool :=
  keyEq (edgeOf t 0) k || keyEq (edgeOf t 1) k || keyEq (edgeOf t 2) k.

(** The indices, in increasing order, of the triangles other than [i] that
    contain the directed edge [k]. *)
Definition others (ts : list Triangle) (k : Edge) (i : nat) : list nat :=
  List.filter
    (fun j => negb (j =? i)%nat
              && match ts !! j with Some t => hasEdge t k | None => false end)
    (seq 0 (length ts)).

(** No coordinate of the vertices is a NaN: every vertex is [==] to itself. *)
Definition nanFree (t : Triangle) : bool :=
  Vec3eq (V0 t) (V0 t) && Vec3eq (V1 t) (V1 t) && Vec3eq (V2 t) (V2 t).

(** What the findings hold for edge [e] of triangle [i]. *)
Definition edgeError (m : gmap nat TriangleErrors) (i e : nat) : option EdgeError :=
  match m !! i with
  | Some te =>
      match EdgeErrors te !! e with
      | Some (Some eer) => Some eer
      | _ => None
      end
  | None => None
  end.

Definition sameEdgeList (m : gmap nat TriangleErrors) (i e : nat) : list nat :=
  match edgeError m i e with
  | Some eer => indices (SameEdgeTriangles eer)
  | None => []
  end.

(** A counter-edge list is recorded for edge [e] of triangle [i]: the edge
    has an [EdgeError] whose [CounterEdgeTriangles] lists the triangles of
    [expected]. *)
Definition counterEdgeRecorded (m : gmap nat TriangleErrors) (i e : nat)
    (expected : list nat) : Prop :=
  exists eer, edgeError m i e = Some eer
              /\ Permutation (indices (CounterEdgeTriangles eer)) expected.

(** The entry of one edge, from the results of its two lookups. *)
Definition expectedEdgeError (same counter : intSlice) : option EdgeError :=
  if (0 <? slen same)%nat || negb (slen counter =? 1)%nat
  then Some (mkEdgeError (if (0 <? slen same)%nat then same else None)
                         (if negb (slen counter =? 1)%nat then counter else None))
  else None.

(** The entry of one triangle, from its two flags and its three edges. *)
Definition expectedFindings (equalVertices badNormal : bool)
    (e0 e1 e2 : option EdgeError) : option TriangleErrors :=
  if equalVertices || badNormal || bool_decide (e0 <> None)
     || bool_decide (e1 <> None) || bool_decide (e2 <> None)
  then Some (mkTriangleErrors equalVertices badNormal [e0; e1; e2])
  else None.

Section Entries.
Variable hasEqualVertices : Triangle -> bool.
Variable checkNormal : Triangle -> float -> bool.
Variable HalfPi : float.
Variable rangeOrder : nat -> nat -> bool -> gset nat -> list nat.
Variable e : edgeLookup.

(** The two lookups for edge [vertex1] of triangle [i]. *)
Definition sameQuery (i : nat) (t : Triangle) (vertex1 : nat) : intSlice :=
  OtherTrianglesWithEdge (rangeOrder i vertex1 false) e
    (fst (edgeOf t vertex1)) (snd (edgeOf t vertex1)) i.

Definition counterQuery (i : nat) (t : Triangle) (vertex1 : nat) : intSlice :=
  OtherTrianglesWithEdge (rangeOrder i vertex1 true) e
    (snd (edgeOf t vertex1)) (fst (edgeOf t vertex1)) i.

(** The entry the second loop leaves for triangle [i]. *)
Definition findingsOf (i : nat) (t : Triangle) : option TriangleErrors :=
  expectedFindings (hasEqualVertices t) (negb (checkNormal t HalfPi))
    (expectedEdgeError (sameQuery i t 0) (counterQuery i t 0))
    (expectedEdgeError (sameQuery i t 1) (counterQuery i t 1))
    (expectedEdgeError (sameQuery i t 2) (counterQuery i t 2)).

End Entries.

(** The steps of the second loop, seen from the entry of triangle [i]. *)
Definition onEntry (f : TriangleErrors -> TriangleErrors)
    (o : option TriangleErrors) : option TriangleErrors :=
  Some (f (default newTriangleErrors o)).

Definition edgeStep (same counter : intSlice) (vertex1 : nat)
    (o : option TriangleErrors) : option TriangleErrors :=
  let o1 :=
    if (0 <? slen same)%nat
    then onEntry (updEdge vertex1 (fun eer =>
           mkEdgeError same (CounterEdgeTriangles eer))) o
    else o in
  if negb (slen counter =? 1)%nat
  then onEntry (updEdge vertex1 (fun eer =>
         mkEdgeError (SameEdgeTriangles eer) counter)) o1
  else o1.

Definition flagStep (equalVertices badNormal : bool)
    (o : option TriangleErrors) : option TriangleErrors :=
  let o1 :=
    if equalVertices
    then onEntry (fun te => mkTriangleErrors true (NormalDoesNotMatch te)
                                             (EdgeErrors te)) o
    else o in
  if badNormal
  then onEntry (fun te => mkTriangleErrors (HasEqualVertices te) true
                                           (EdgeErrors te)) o1
  else o1.

(** A triangle with nothing to report. *)
Definition healthy (hasEqualVertices : Triangle -> bool)
    (checkNormal : Triangle -> float -> bool) (HalfPi : float)
    (ts : list Triangle) (i : nat) (t : Triangle) : Prop :=
  hasEqualVertices t = false
  /\ checkNormal t HalfPi = true
  /\ forall e, (e < 3)%nat ->
       others ts (edgeOf t e) i = []
       /\ length (others ts (reversed (edgeOf t e)) i) = 1%nat.

(** Two findings maps that differ at most in the order of the indices
    within the same-edge and counter-edge lists. *)
Definition sliceEquiv (a b : intSlice) : Prop :=
  match a, b with
  | None, None => True
  | Some la, Some lb => Permutation la lb
  | _, _ => False
  end.

Definition edgeErrorEquiv (a b : option EdgeError) : Prop :=
  match a, b with
  | None, None => True
  | Some x, Some y =>
      sliceEquiv (SameEdgeTriangles x) (SameEdgeTriangles y)
      /\ sliceEquiv (CounterEdgeTriangles x) (CounterEdgeTriangles y)
  | _, _ => False
  end.

Definition triangleErrorsEquiv (a b : TriangleErrors) : Prop :=
  HasEqualVertices a = HasEqualVertices b
  /\ NormalDoesNotMatch a = NormalDoesNotMatch b
  /\ Forall2 edgeErrorEquiv (EdgeErrors a) (EdgeErrors b).

Definition findingsEquiv (a b : option (gmap nat TriangleErrors)) : Prop :=
  match a, b with
  | None, None => True
  | Some ma, Some mb =>
      forall i, match ma !! i, mb !! i with
                | None, None => True
                | Some x, Some y => triangleErrorsEquiv x y
                | _, _ => False
                end
  | _, _ => False
  end.

(** An order of iteration delivers each member of the set once. *)
Definition validOrder (order : gset nat -> list nat) : Prop :=
  forall X, Permutation (order X) (elements X).

Definition validRangeOrder (o : nat -> nat -> bool -> gset nat -> list nat) : Prop :=
  forall i e b, validOrder (o i e b).

(** Two orders of iteration: the sorted one and its reverse. *)
Definition ascending : nat -> nat -> bool -> gset nat -> list nat :=
  fun _ _ _ X => elements X.
Definition descending : nat -> nat -> bool -> gset nat -> list nat :=
  fun _ _ _ X => rev (elements X).

(** Modelled from the spec: [hasEqualVertices] and [checkNormal] are not
    part of the sources at hand; by section 4.5 of the specification a
    triangle is degenerate when two of its vertices are exactly equal, and
    its normal is flagged when the angle between the stored normal and the
    right-hand-rule normal of the vertices exceeds 90 degrees, that is when
    their dot product is negative. *)
Definition hasEqualVertices (t : Triangle) : bool :=
  Vec3eq (V0 t) (V1 t) || Vec3eq (V0 t) (V2 t) || Vec3eq (V1 t) (V2 t).

Definition checkNormal (t : Triangle) (tol : float) : bool :=
  negb (Vec.Dot (Normal t)
                (Vec.Cross (Vec.Diff (V1 t) (V0 t)) (Vec.Diff (V2 t) (V0 t)))
        <? 0)%float.

(** Modelled from the spec: the constant [HalfPi], 90 degrees in radians. *)
Definition HalfPi : float := 0x1.921fb54442d18p+0%float.

(** The tetrahedron on the origin and the three unit points, every face
    wound counter-clockwise seen from outside. *)
Definition pA : Vec3 := mkVec3 0 0 0.
Definition pB : Vec3 := mkVec3 1 0 0.
Definition pC : Vec3 := mkVec3 0 1 0.
Definition pD : Vec3 := mkVec3 0 0 1.

Definition solidOf (ts : list Triangle) : Solid :=
  mkSolid [] EmptyString (mkSlice ts (Z.of_nat (length ts))) true.

Definition tetrahedron : Solid :=
  solidOf [ mkTriangle (mkVec3 0 0 (-1)) pA pC pB;
            mkTriangle (mkVec3 0 (-1) 0) pA pB pD;
            mkTriangle (mkVec3 (-1) 0 0) pA pD pC;
            mkTriangle (mkVec3 1 1 1) pB pC pD ].

(** One triangle, one coordinate of which is a NaN, as the ASCII parser
    delivers it for the vertex line [vertex NaN 0 0]. *)
Definition nanTriangle : Triangle :=
  mkTriangle (mkVec3 0 0 1) (mkVec3 nan 0 0) pB pC.
Definition nanSolid : Solid := solidOf [nanTriangle].

(** Two triangles that share the directed edge [pA -> pB], followed by the
    triangle with the NaN. *)
Definition sharedEdgeNanSolid : Solid :=
  solidOf [ mkTriangle (mkVec3 0 0 1) pA pB pC;
            mkTriangle (mkVec3 0 (-1) 0) pA pB pD;
            nanTriangle ].

(** Three copies of one triangle. *)
Definition tripleSolid : Solid :=
  solidOf [ mkTriangle (mkVec3 0 0 1) pA pB pC;
            mkTriangle (mkVec3 0 0 1) pA pB pC;
            mkTriangle (mkVec3 0 0 1) pA pB pC ].

(** The triangles that inserted an edge [==] to [q], among the insertions
    [ins] (most recent first). *)
Fixpoint holders (ins : list (nat * Edge)) (q : Edge) : gset nat :=
  match ins with
  | [] => ∅
  | (j, k) :: rest =>
      if keyEq k q then {[j]} ∪ holders rest q else holders rest q
  end.

Definition inserted (ins : list (nat * Edge)) (q : Edge) : bool :=
  existsb (fun p => keyEq (snd p) q) ins.

(** The edge map holds exactly the insertions [ins]. *)
Definition represents (m : list (Edge * gset nat)) (ins : list (nat * Edge)) : Prop :=
  forall q, mapLookup q m
            = if inserted ins q then Some (holders ins q) else None.

(** The insertions of the first loop, most recent first. *)
Definition edgesOfTriangle (i : nat) (t : Triangle) : list (nat * Edge) :=
  [(i, edgeOf t 2); (i, edgeOf t 1); (i, edgeOf t 0)].

Fixpoint allInsertions (i : nat) (ts : list Triangle) (ins : list (nat * Edge))
    : list (nat * Edge) :=
  match ts with
  | [] => ins
  | t :: rest => allInsertions (S i) rest (edgesOfTriangle i t ++ ins)
  end.

End ValidateSpec.

(** ** readascii.go *)

Module ParserGo.
Local Open Scope string_scope.

(** The double quote and the line feed. *)
Definition dquote : string := String (ascii_of_nat 34) EmptyString.
Definition newline : string := String (ascii_of_nat 10) EmptyString.

(** What the two scanners deliver.  [bufio.Scanner] with [ScanLines] yields
    the lines of the stream and, once they are exhausted, possibly an error
    ([Err() != nil]); the scanner with [ScanWords] set up on a line yields
    its words, and possibly an error in the same way. *)
Record Line := mkLine {
  lineBytes : string;
  lineWords : list string;
  lineWordsErr : option string
}.

Record lineScannerState := mkLineScanner {
  linesLeft : list Line;
  linesErr : option string
}.

Record wordScannerState := mkWordScanner {
  wordsLeft : list string;
  wordsErr : option string
}.

(** [type parser struct] *)
Record parser := mkParser {
  line : Z;
  errors : list string;
  currentWord : string;
  currentLine : option string;
  eof : bool;
  lineScanner : lineScannerState;
  wordScanner : wordScannerState;
  HeaderError : bool;
  TrianglesSkipped : bool;
  ErrorText : string
}.

Definition setErrors (es : list string) (p : parser) : parser :=
  mkParser (line p) es (currentWord p) (currentLine p) (eof p) (lineScanner p)
           (wordScanner p) (HeaderError p) (TrianglesSkipped p) (ErrorText p).

Definition setHeaderError (b : bool) (p : parser) : parser :=
  mkParser (line p) (errors p) (currentWord p) (currentLine p) (eof p)
           (lineScanner p) (wordScanner p) b (TrianglesSkipped p) (ErrorText p).

Definition setTrianglesSkipped (b : bool) (p : parser) : parser :=
  mkParser (line p) (errors p) (currentWord p) (currentLine p) (eof p)
           (lineScanner p) (wordScanner p) (HeaderError p) b (ErrorText p).

Definition setErrorText (txt : string) (p : parser) : parser :=
  mkParser (line p) (errors p) (currentWord p) (currentLine p) (eof p)
           (lineScanner p) (wordScanner p) (HeaderError p) (TrianglesSkipped p) txt.

(** [p.currentWord = w] after [p.wordScanner.Scan()]. *)
Definition scanWord (w : string) (rest : list string) (p : parser) : parser :=
  mkParser (line p) (errors p) w (currentLine p) (eof p) (lineScanner p)
           (mkWordScanner rest (wordsErr (wordScanner p)))
           (HeaderError p) (TrianglesSkipped p) (ErrorText p).

(** [p.currentLine = nil; p.currentWord = ""; p.eof = true] *)
Definition endOfStream (p : parser) : parser :=
  mkParser (line p) (errors p) EmptyString None true (lineScanner p)
           (wordScanner p) (HeaderError p) (TrianglesSkipped p) (ErrorText p).

(** The head of [nextLine] after a successful [p.lineScanner.Scan()]. *)
Definition scanLine (l : Line) (rest : list Line) (p : parser) : parser :=
  mkParser (line p + 1) (errors p) (currentWord p) (Some (lineBytes l)) (eof p)
           (mkLineScanner rest (linesErr (lineScanner p)))
           (mkWordScanner (lineWords l) (lineWordsErr l))
           (HeaderError p) (TrianglesSkipped p) (ErrorText p).

(** [fmt.Sprintf("%d: %s", p.line, msg)] *)
Definition formatError (n : Z) (msg : string) : string :=
  NilZero.string_of_int (Z.to_int n) ++ ": " ++ msg.

(** [func (p *parser) addError(msg string)] *)
Definition addError (msg : string) (p : parser) : parser :=
  setErrors (errors p ++ [formatError (line p) msg])%list p.

(** [func (p *parser) nextWord() bool], over the [nextLine] it calls when
    the line has ended. *)
Definition nextWordWith (nextLine : parser -> parser * bool) (p : parser)
    : parser * bool :=
  if eof p then (p, false)
  else
    match wordsLeft (wordScanner p) with
    | w :: rest => (scanWord w rest p, true)
    | [] =>
        match wordsErr (wordScanner p) with
        | None => nextLine p
        | Some err => (endOfStream (addError err p), false)
        end
    end.

(** [func (p *parser) nextLine() bool], by recursion on the lines the line
    scanner still holds. *)
Fixpoint nextLineFrom (ls : list Line) (p : parser) : parser * bool :=
  match ls with
  | l :: rest => nextWordWith (nextLineFrom rest) (scanLine l rest p)
  | [] =>
      match linesErr (lineScanner p) with
      | Some err => (endOfStream (addError err p), false)
      | None => (endOfStream p, false)
      end
  end.

Definition nextLine (p : parser) : parser * bool :=
  nextLineFrom (linesLeft (lineScanner p)) p.

Definition nextWord (p : parser) : parser * bool := nextWordWith nextLine p.

(** [func newParser(reader io.Reader) *parser] *)
Definition newParser (reader : lineScannerState) : parser :=
  fst (nextLine (mkParser 0 [] EmptyString None false reader
                          (mkWordScanner [] None) false false EmptyString)).

(** The identifier constants: [idNone = 0], [idSolid = 1 << iota] with
    [iota = 1], and so on. *)
Definition idNone : Z := 0.
Definition idSolid : Z := Z.shiftl 1 1.
Definition idFacet : Z := Z.shiftl 1 2.
Definition idNormal : Z := Z.shiftl 1 3.
Definition idOuter : Z := Z.shiftl 1 4.
Definition idLoop : Z := Z.shiftl 1 5.
Definition idVertex : Z := Z.shiftl 1 6.
Definition idEndloop : Z := Z.shiftl 1 7.
Definition idEndfacet : Z := Z.shiftl 1 8.
Definition idEndsolid : Z := Z.shiftl 1 9.

(** A regular expression [^(w1|...|wn)$] over literal words: Go's [$]
    matches at the end of the text only, so the expression matches exactly
    the words listed. *)
Definition Regexp : Type := list string.

Definition MatchString (re : Regexp) (w : string) : bool :=
  existsb (String.eqb w) re.

(** [var identRegexps = map[int]*regexp.Regexp{...}] *)
Definition identRegexps (ident : Z) : option Regexp :=
  if (ident =? idSolid)%Z then Some ["solid"]
  else if (ident =? idFacet)%Z then Some ["facet"]
  else if (ident =? idNormal)%Z then Some ["normal"]
  else if (ident =? idOuter)%Z then Some ["outer"]
  else if (ident =? idLoop)%Z then Some ["loop"]
  else if (ident =? idVertex)%Z then Some ["vertex"]
  else if (ident =? idEndloop)%Z then Some ["endloop"]
  else if (ident =? idEndfacet)%Z then Some ["endfacet"]
  else if (ident =? idEndsolid)%Z then Some ["endsolid"]
  else if (ident =? Z.lor idFacet idEndsolid)%Z then Some ["facet"; "endsolid"]
  else None.

(** [re.MatchString(p.currentWord)] for [re := identRegexps[ident]].  The
    calls in the source pass the constants [idFacet], [idEndsolid],
    [idFacet | idEndsolid] and, through [consumeToken], the keywords of
    [parseFacet], all of them keys of the map.  For any other key the
    expression is nil and the Go call panics; that case is never reached
    and no property below is about it. *)
Definition matchIdent (ident : Z) (w : string) : bool :=
  match identRegexps ident with
  | Some re => MatchString re w
  | None => false
  end.

(** [var idents = map[int]string{...}]; a missing key reads as [""]. *)
Definition idents (ident : Z) : string :=
  if (ident =? idSolid)%Z then "solid"
  else if (ident =? idFacet)%Z then "facet"
  else if (ident =? idNormal)%Z then "normal"
  else if (ident =? idOuter)%Z then "outer"
  else if (ident =? idLoop)%Z then "loop"
  else if (ident =? idVertex)%Z then "vertex"
  else if (ident =? idEndloop)%Z then "endloop"
  else if (ident =? idEndfacet)%Z then "endfacet"
  else if (ident =? idEndsolid)%Z then "endsolid"
  else EmptyString.

(** [func (p *parser) isCurrentTokenIdent(ident int) bool] *)
Definition isCurrentTokenIdent (ident : Z) (p : parser) : bool :=
  matchIdent ident (currentWord p).

(** The words the scanners will still deliver after the current one: the
    rest of the line and the words of the lines that follow, up to the
    first scanner error. *)
Fixpoint wordsOfLines (ls : list Line) : list string :=
  match ls with
  | [] => []
  | l :: rest =>
      (lineWords l
       ++ match lineWordsErr l with
          | None => wordsOfLines rest
          | Some _ => []
          end)%list
  end.

Definition pending (p : parser) : list string :=
  (wordsLeft (wordScanner p)
   ++ match wordsErr (wordScanner p) with
      | None => wordsOfLines (linesLeft (lineScanner p))
      | Some _ => []
      end)%list.

(** [func (p *parser) skipToToken(ident int) int]: the loop, with a bound on
    its iterations; [None] when the bound is used up. *)
Fixpoint skipToTokenLoop (bound : nat) (ident : Z) (p : parser)
    : option (parser * Z) :=
  if matchIdent ident (currentWord p) then
    if (ident =? Z.lor idFacet idEndsolid)%Z then
      if matchIdent idFacet (currentWord p)
      then Some (p, idFacet)
      else Some (p, idEndsolid)
    else Some (p, ident)
  else
    let (p1, more) := nextWord p in
    if negb more then Some (p1, idNone)
    else
      match bound with
      | O => None
      | S bound' => skipToTokenLoop bound' ident p1
      end.

(** Every turn of the loop takes a word from the scanners, so one turn per
    pending word is enough: the bound is never used up. *)
Definition skipToToken (ident : Z) (p : parser) : parser * Z :=
  match skipToTokenLoop (length (pending p)) ident p with
  | Some r => r
  | None => (p, idNone)
  end.

(** [func (p *parser) consumeToken(ident int) bool] *)
Definition consumeToken (ident : Z) (p : parser) : parser * bool :=
  if negb (matchIdent ident (currentWord p))
  then (addError (dquote ++ idents ident ++ dquote ++ " expected") p, false)
  else (fst (nextWord p), true).

(** The calls a [Writer] receives, and a writer that records them, oldest
    first.  The methods of the interface return nothing, so the calls made
    are all the parser does to its writer. *)
Inductive WriterCall :=
| SetName (name : string)
| SetBinaryHeader (header : list Byte.byte)
| SetTriangleCount (n : Z)
| AppendTriangle (t : Triangle).

Definition Writer : Type := list WriterCall.

Definition call (c : WriterCall) (sw : Writer) : Writer := (sw ++ [c])%list.

(** A pointer into the triangle being parsed: how a write through it
    changes the triangle. *)
Definition ptr (A : Type) : Type := (A -> A) -> Triangle -> Triangle.

(** [&(t.Normal)] and [&(t.Vertices[k])] *)
Definition NormalPtr : ptr Vec3 :=
  fun f t => mkTriangle (f (Normal t)) (V0 t) (V1 t) (V2 t).
Definition VerticesPtr (k : nat) : ptr Vec3 :=
  fun f t =>
    match k with
    | O => mkTriangle (Normal t) (f (V0 t)) (V1 t) (V2 t)
    | S O => mkTriangle (Normal t) (V0 t) (f (V1 t)) (V2 t)
    | _ => mkTriangle (Normal t) (V0 t) (V1 t) (f (V2 t))
    end.

(** [&(pt[k])] *)
Definition coordPtr (pt : ptr Vec3) (k : nat) : ptr float :=
  fun f =>
    pt (fun v =>
          match k with
          | O => mkVec3 (f (c0 v)) (c1 v) (c2 v)
          | S O => mkVec3 (c0 v) (f (c1 v)) (c2 v)
          | _ => mkVec3 (c0 v) (c1 v) (f (c2 v))
          end).

(** The parser together with the triangle [t] of the loop body. *)
Definition facetState : Type := (parser * Triangle)%type.

(** [a && b] on two calls. *)
Definition andThen (a b : facetState -> facetState * bool)
    : facetState -> facetState * bool :=
  fun st => let (st1, ok) := a st in if ok then b st1 else (st1, false).

Definition token (ident : Z) : facetState -> facetState * bool :=
  fun st => let (p1, ok) := consumeToken ident (fst st) in ((p1, snd st), ok).

Section Parse.

(** [strconv.ParseFloat(s, bitSize)], of Go's library: the value and the
    error returned. *)
Variable ParseFloat : string -> Z -> float * option string.

(** [extractASCIIString] is declared in a file that is not part of the
    sources at hand. *)
Variable extractASCIIString : string -> string.

(** [func (p *parser) parseFloat64(f *float64) bool] *)
Definition parseFloat64 (f : ptr float) : facetState -> facetState * bool :=
  fun st =>
    let (p, t) := st in
    if eof p then (st, false)
    else
      match ParseFloat (currentWord p) 32 with
      | (f64, None) => ((fst (nextWord p), f (fun _ => f64) t), true)
      | (_, Some _) => ((addError "Unable to parse float" p, t), false)
      end.

(** [func (p *parser) parsePoint(pt *Vec3) bool] *)
Definition parsePoint (pt : ptr Vec3) : facetState -> facetState * bool :=
  andThen (parseFloat64 (coordPtr pt 0))
    (andThen (parseFloat64 (coordPtr pt 1)) (parseFloat64 (coordPtr pt 2))).

(** [func (p *parser) parseFacet(t *Triangle) bool] *)
Definition parseFacet : facetState -> facetState * bool :=
  andThen (token idFacet)
  (andThen (token idNormal) (andThen (parsePoint NormalPtr)
  (andThen (token idOuter) (andThen (token idLoop)
  (andThen (token idVertex) (andThen (parsePoint (VerticesPtr 0))
  (andThen (token idVertex) (andThen (parsePoint (VerticesPtr 1))
  (andThen (token idVertex) (andThen (parsePoint (VerticesPtr 2))
  (andThen (token idEndloop)
           (token idEndfacet)))))))))))).

(** [var expectedASCIIHeaderPrefix = []byte("solid ")] *)
Definition expectedASCIIHeaderPrefix : string := "solid ".

(** [p.currentLine] as bytes; the nil slice has no bytes. *)
Definition currentLineBytes (p : parser) : string :=
  match currentLine p with
  | Some l => l
  | None => EmptyString
  end.

(** [func (p *parser) parseASCIIHeaderLine(sw Writer) bool] *)
Definition parseASCIIHeaderLine (p : parser) (sw : Writer)
    : parser * Writer * bool :=
  let '(p1, sw1, success) :=
    if eof p then (addError "unexpected end of file" p, sw, false)
    else if negb (String.prefix expectedASCIIHeaderPrefix (currentLineBytes p))
    then (addError ("ASCII header must start with " ++ dquote ++ "solid "
                    ++ dquote) p, sw, false)
    else
      let name :=
        extractASCIIString
          (substring (String.length expectedASCIIHeaderPrefix)
             (String.length (currentLineBytes p)
              - String.length expectedASCIIHeaderPrefix)%nat
             (currentLineBytes p)) in
      (p, call (SetName name) sw, true) in
  (fst (nextLine p1), sw1, success).

(** The first statement of the body of [TriangleLoop]: when the current
    token is not [facet], report it and skip ahead; the flag says whether
    the loop is left ([break TriangleLoop]). *)
Definition resync (p : parser) : parser * bool :=
  if negb (isCurrentTokenIdent idFacet p) then
    let p1 := addError (dquote ++ "facet" ++ dquote ++ " or " ++ dquote
                        ++ "endsolid" ++ dquote ++ " expected") p in
    let (p2, found) := skipToToken (Z.lor idFacet idEndsolid) p1 in
    if ((found =? idEndsolid) || (found =? idNone))%Z then (p2, true) else (p2, false)
  else (p, false).

(** The second statement of the body: parse one triangle, hand it to the
    writer or skip it. *)
Definition facetOrSkip (p : parser) (sw : Writer) : parser * Writer :=
  let '((p1, t), ok) := parseFacet (p, zeroTriangle) in
  if ok then (p1, call (AppendTriangle t) sw)
  else
    (fst (skipToToken (Z.lor idFacet idEndsolid) (setTrianglesSkipped true p1)),
     sw).

(** [TriangleLoop], with a bound on its iterations; [None] when the bound is
    used up. *)
Fixpoint triangleLoop (bound : nat) (p : parser) (sw : Writer)
    : option (parser * Writer) :=
  if negb (eof p) && negb (isCurrentTokenIdent idEndsolid p) then
    match bound with
    | O => None
    | S bound' =>
        let (p1, leave) := resync p in
        if leave then Some (p1, sw)
        else
          let (p2, sw2) := facetOrSkip p1 sw in
          triangleLoop bound' p2 sw2
    end
  else Some (p, sw).

(** [func (p *parser) generateErrorText()] *)
Definition generateErrorText (p : parser) : parser :=
  setErrorText
    ((if TrianglesSkipped p then "Triangles had to be skipped." ++ newline
      else EmptyString)
     ++ fold_left (fun buf e => buf ++ e ++ newline) (errors p) EmptyString)
    p.

(** [Parse] up to the end of [TriangleLoop].  Every turn of the loop takes
    a word from the scanners, so one turn more than there are pending words
    is enough: the bound is never used up. *)
Definition parseBody (p : parser) (sw : Writer) : parser * Writer :=
  if eof p then (addError "File is empty" (setHeaderError true p), sw)
  else
    let '(p1, sw1, ok) := parseASCIIHeaderLine p sw in
    let p2 := setHeaderError (negb ok) p1 in
    match triangleLoop (S (length (pending p2))) p2 sw1 with
    | Some r => r
    | None => (p2, sw1)
    end.

(** The last three statements of [Parse]. *)
Definition parseEnd (p : parser) : parser * bool :=
  let (p1, success) :=
    if negb (HeaderError p) && negb (TrianglesSkipped p)
    then consumeToken idEndsolid p
    else (p, false) in
  (generateErrorText p1, success).

(** [func (p *parser) Parse(sw Writer) bool] *)
Definition Parse (p : parser) (sw : Writer) : parser * Writer * bool :=
  let (p1, sw1) := parseBody p sw in
  let (p2, success) := parseEnd p1 in
  (p2, sw1, success).

(** [Parse(stream, Writer) -> (success, diagnosticText)] of the
    specification, with the calls the writer received. *)
Definition ParseStream (stream : lineScannerState) : bool * string * Writer :=
  let '(p, sw, success) := Parse (newParser stream) [] in
  (success, ErrorText p, sw).

End Parse.

End ParserGo.

(** *** Vocabulary for the properties of the parser *)

Module ParserSpec.
Import ParserGo.
Local Open Scope string_scope.

(** The words the parser still has before it: the current one and the
    pending ones; none at the end of the stream. *)
Definition tokens (p : parser) : list string :=
  if eof p then [] else currentWord p :: pending p.

(** No scanner error lies ahead. *)
Fixpoint linesClean (ls : list Line) : Prop :=
  match ls with
  | [] => True
  | l :: rest => lineWordsErr l = None /\ linesClean rest
  end.

Definition clean (p : parser) : Prop :=
  wordsErr (wordScanner p) = None
  /\ linesClean (linesLeft (lineScanner p))
  /\ linesErr (lineScanner p) = None.

(** At the end of the stream the current word is empty. *)
Definition wellFormed (p : parser) : Prop :=
  eof p = true -> currentWord p = EmptyString.

(** [framed h pre p] is [p] with [HeaderError] set to [h] and the
    diagnostics [pre] recorded before its own. *)
Definition framed (h : bool) (pre : list string) (p : parser) : parser :=
  mkParser (line p) (pre ++ errors p)%list (currentWord p) (currentLine p)
           (eof p) (lineScanner p) (wordScanner p) h (TrianglesSkipped p)
           (ErrorText p).

Definition onFst {A B C : Type} (f : A -> C) (r : A * B) : C * B :=
  (f (fst r), snd r).

(** [p'] is what reading on from [p] gives: the words [ws] lie before it,
    [more] tells whether the stream has not ended, and no diagnostic was
    recorded unless it has. *)
Definition scanned (p p' : parser) (ws : list string) (more : bool) : Prop :=
  tokens p' = ws
  /\ more = negb (eof p')
  /\ wellFormed p'
  /\ TrianglesSkipped p' = TrianglesSkipped p
  /\ (eof p' = false -> errors p' = errors p).

(** The header line is there and starts with the prefix. *)
Definition headerValid (p : parser) : bool :=
  negb (eof p) && String.prefix expectedASCIIHeaderPrefix (currentLineBytes p).

Definition framedSt (h : bool) (pre : list string) (st : facetState) : facetState :=
  (framed h pre (fst st), snd st).

(** The sub-steps of [parseFacet], in order: a keyword to consume or a
    float to parse into a coordinate. *)
Inductive subStep :=
| Keyword (ident : Z)
| Float (dst : ptr float).

Definition pointSteps (pt : ptr Vec3) : list subStep :=
  [Float (coordPtr pt 0); Float (coordPtr pt 1); Float (coordPtr pt 2)].

Definition facetSteps : list subStep :=
  ([Keyword idFacet; Keyword idNormal] ++ pointSteps NormalPtr
   ++ [Keyword idOuter; Keyword idLoop]
   ++ [Keyword idVertex] ++ pointSteps (VerticesPtr 0)
   ++ [Keyword idVertex] ++ pointSteps (VerticesPtr 1)
   ++ [Keyword idVertex] ++ pointSteps (VerticesPtr 2)
   ++ [Keyword idEndloop; Keyword idEndfacet])%list.

Definition execStep (ParseFloat : string -> Z -> float * option string)
    (s : subStep) : facetState -> facetState * bool :=
  match s with
  | Keyword ident => token ident
  | Float dst => parseFloat64 ParseFloat dst
  end.

Fixpoint runSteps (ParseFloat : string -> Z -> float * option string)
    (steps : list subStep) (st : facetState) : facetState * bool :=
  match steps with
  | [] => (st, true)
  | s :: rest =>
      let (st1, ok) := execStep ParseFloat s st in
      if ok then runSteps ParseFloat rest st1 else (st1, false)
  end.

(** The diagnostic a failing sub-step records at parser state [p]. *)
Definition expectation (s : subStep) (p : parser) : list string :=
  match s with
  | Keyword ident =>
      [formatError (line p) (dquote ++ idents ident ++ dquote ++ " expected")]
  | Float _ =>
      if eof p then [] else [formatError (line p) "Unable to parse float"]
  end.

(** A word at which the parser resumes after an error. *)
Definition isSync (w : string) : bool :=
  String.eqb w "facet" || String.eqb w "endsolid".

(** The words from the first one at which the parser resumes. *)
Fixpoint skipUntilSync (ws : list string) : list string :=
  match ws with
  | [] => []
  | w :: rest => if isSync w then ws else skipUntilSync rest
  end.

(** What [skipToToken(idFacet | idEndsolid)] returns when it stops before
    the words [ws]. *)
Definition syncCode (ws : list string) : Z :=
  match ws with
  | [] => idNone
  | w :: _ => if String.eqb w "facet" then idFacet else idEndsolid
  end.

(** The words of one triangle of the grammar, from its twelve literals. *)

Record TriangleText := mkTriangleText {
  txtNormal : string * string * string;
  txtV0 : string * string * string;
  txtV1 : string * string * string;
  txtV2 : string * string * string
}.

Definition point3 (k : string) (xyz : string * string * string) : list string :=
  [k; fst (fst xyz); snd (fst xyz); snd xyz].

Definition triangleWords (tt : TriangleText) : list string :=
  (["facet"] ++ point3 "normal" (txtNormal tt) ++ ["outer"; "loop"]
   ++ point3 "vertex" (txtV0 tt) ++ point3 "vertex" (txtV1 tt)
   ++ point3 "vertex" (txtV2 tt) ++ ["endloop"; "endfacet"])%list.

Section Conformance.
Variable ParseFloat : string -> Z -> float * option string.

(** A FLOAT of the grammar: a literal that [ParseFloat] accepts at 32 bits. *)
Definition isFloat (w : string) : Prop := snd (ParseFloat w 32) = None.

Definition floatOf (w : string) : float := fst (ParseFloat w 32).

Definition isPoint (xyz : string * string * string) : Prop :=
  isFloat (fst (fst xyz)) /\ isFloat (snd (fst xyz)) /\ isFloat (snd xyz).

Definition pointOf (xyz : string * string * string) : Vec3 :=
  mkVec3 (floatOf (fst (fst xyz))) (floatOf (snd (fst xyz))) (floatOf (snd xyz)).

Definition isTriangle (tt : TriangleText) : Prop :=
  isPoint (txtNormal tt) /\ isPoint (txtV0 tt) /\ isPoint (txtV1 tt)
  /\ isPoint (txtV2 tt).

Definition triangleOf (tt : TriangleText) : Triangle :=
  mkTriangle (pointOf (txtNormal tt)) (pointOf (txtV0 tt)) (pointOf (txtV1 tt))
             (pointOf (txtV2 tt)).

(** A stream that conforms to the grammar
    [file := "solid" STRING triangle* "endsolid"]: its first line is the
    header, starting with ["solid "]; the words of the lines after it are
    those of the triangles [tts], in order, followed by [endsolid]; and no
    scanner reports an error. *)
Definition conforms (stream : lineScannerState) (name : string)
    (tts : list TriangleText) : Prop :=
  exists header body,
    linesLeft stream = header :: body
    /\ linesErr stream = None
    /\ lineBytes header = expectedASCIIHeaderPrefix ++ name
    /\ lineWords header <> []
    /\ lineWordsErr header = None
    /\ linesClean body
    /\ wordsOfLines body = (concat (map triangleWords tts) ++ ["endsolid"])%list
    /\ Forall isTriangle tts.

(** A successful sub-step found what it expects in the current word and
    moved to the next one. *)
Definition accepts (s : subStep) (q : parser) : Prop :=
  match s with
  | Keyword ident => matchIdent ident (currentWord q) = true
  | Float _ => eof q = false /\ snd (ParseFloat (currentWord q) 32) = None
  end.

Definition written (s : subStep) (q : parser) (t : Triangle) : Triangle :=
  match s with
  | Keyword _ => t
  | Float dst => dst (fun _ => fst (ParseFloat (currentWord q) 32)) t
  end.

(** The sub-step accepts the word, and what it writes for it. *)
Definition acceptsWord (s : subStep) (w : string) : Prop :=
  match s with
  | Keyword ident => matchIdent ident w = true
  | Float _ => isFloat w
  end.

Definition writeWord (s : subStep) (w : string) (t : Triangle) : Triangle :=
  match s with
  | Keyword _ => t
  | Float dst => dst (fun _ => floatOf w) t
  end.

Fixpoint allAccepted (steps : list subStep) (ws : list string) : Prop :=
  match steps, ws with
  | [], [] => True
  | s :: steps', w :: ws' => acceptsWord s w /\ allAccepted steps' ws'
  | _, _ => False
  end.

Fixpoint writeAll (steps : list subStep) (ws : list string) (t : Triangle)
    : Triangle :=
  match steps, ws with
  | s :: steps', w :: ws' => writeAll steps' ws' (writeWord s w t)
  | _, _ => t
  end.

End Conformance.

(** The triangles [TriangleLoop] attempts from [p] on: for each call of
    [parseFacet] the loop makes, in order, whether the call succeeded.  A
    triangle is skipped when its call fails. *)
Fixpoint attempts (ParseFloat : string -> Z -> float * option string)
    (bound : nat) (p : parser) (sw : Writer) : list bool :=
  if negb (eof p) && negb (isCurrentTokenIdent idEndsolid p) then
    match bound with
    | O => []
    | S bound' =>
        let (p1, leave) := resync p in
        if leave then []
        else
          let (p2, sw2) := facetOrSkip ParseFloat p1 sw in
          snd (parseFacet ParseFloat (p1, zeroTriangle))
          :: attempts ParseFloat bound' p2 sw2
    end
  else [].

(** The triangles a call of [Parse] attempts. *)
Definition ParseAttempts (ParseFloat : string -> Z -> float * option string)
    (extractASCIIString : string -> string) (p : parser) (sw : Writer)
    : list bool :=
  if eof p then []
  else
    let '(p1, sw1, ok) := parseASCIIHeaderLine extractASCIIString p sw in
    let p2 := setHeaderError (negb ok) p1 in
    attempts ParseFloat (S (length (pending p2))) p2 sw1.

(** The first line of the stream that holds a word, which is the line
    [newParser] stops at: the lines without a word before it are passed
    over. *)
Fixpoint firstWordLine (ls : list Line) : option Line :=
  match ls with
  | [] => None
  | l :: rest =>
      match lineWords l with
      | _ :: _ => Some l
      | [] =>
          match lineWordsErr l with
          | None => firstWordLine rest
          | Some _ => None
          end
      end
  end.

(** The diagnostic of a header line without the prefix. *)
Definition headerMessage : string :=
  "ASCII header must start with " ++ dquote ++ "solid " ++ dquote.

(** Splitting a line into words, as [bufio.ScanWords] does: the words are
    the runs of bytes between white space runes.  White space is what Go's
    [isSpace] says: the six ASCII characters, U+0085 and U+00A0, U+1680,
    U+2000 to U+200A, U+2028, U+2029, U+202F, U+205F and U+3000. *)
Definition isSpace (c : ascii) : bool :=
  let n := nat_of_ascii c in
  (n =? 32)%nat || ((9 <=? n)%nat && (n <=? 13)%nat).

(** The number of bytes of the white space rune the text starts with, in
    UTF-8, and [0] when it starts with none.  The first byte of each of
    these encodings is an ASCII or a leading byte, never a continuation
    byte, so that [utf8.DecodeRune], applied to the bytes before, stops in
    front of it: the scanner meets the rune wherever its bytes stand. *)
Definition spaceWidth (s : string) : nat :=
  match s with
  | EmptyString => 0
  | String b0 rest =>
      if isSpace b0 then 1
      else
        match rest with
        | EmptyString => 0
        | String b1 rest1 =>
            let n0 := nat_of_ascii b0 in
            let n1 := nat_of_ascii b1 in
            if (n0 =? 194)%nat && ((n1 =? 133)%nat || (n1 =? 160)%nat) then 2
            else
              match rest1 with
              | EmptyString => 0
              | String b2 _ =>
                  let n2 := nat_of_ascii b2 in
                  if (n0 =? 225)%nat && (n1 =? 154)%nat && (n2 =? 128)%nat
                  then 3
                  else if (n0 =? 226)%nat && (n1 =? 128)%nat
                          && (((128 <=? n2)%nat && (n2 <=? 138)%nat)
                              || (n2 =? 168)%nat || (n2 =? 169)%nat
                              || (n2 =? 175)%nat)
                  then 3
                  else if (n0 =? 226)%nat && (n1 =? 129)%nat && (n2 =? 159)%nat
                  then 3
                  else if (n0 =? 227)%nat && (n1 =? 128)%nat && (n2 =? 128)%nat
                  then 3
                  else 0
              end
        end
  end.

(** The words of [s], the bytes [word] of the current word having been
    read, and [skip] bytes of a white space rune being still to pass. *)
Fixpoint scanWordsFrom (s : string) (skip : nat) (word : string) : list string :=
  match s with
  | EmptyString => if String.eqb word EmptyString then [] else [word]
  | String c rest =>
      match skip with
      | S skip' => scanWordsFrom rest skip' word
      | O =>
          match spaceWidth s with
          | O => scanWordsFrom rest 0 (word ++ String c EmptyString)
          | S skip' =>
              if String.eqb word EmptyString
              then scanWordsFrom rest skip' EmptyString
              else word :: scanWordsFrom rest skip' EmptyString
          end
      end
  end.

Definition scanWords (s : string) (word : string) : list string :=
  scanWordsFrom s 0 word.

Definition lineOf (s : string) : Line := mkLine s (scanWords s EmptyString) None.

(** The stream of the given lines, read without error. *)
Definition streamOf (ls : list string) : lineScannerState :=
  mkLineScanner (map lineOf ls) None.

(** Splitting a byte stream into lines, as [bufio.ScanLines] does: a line
    ends at a line feed, which is not part of it, as is not one carriage
    return before it; what follows the last line feed is a line when it is
    not empty. *)
Fixpoint rawLines (s : string) : list string :=
  match s with
  | EmptyString => []
  | String c rest =>
      if (nat_of_ascii c =? 10)%nat then EmptyString :: rawLines rest
      else
        match rawLines rest with
        | [] => [String c EmptyString]
        | l :: ls => String c l :: ls
        end
  end.

(** [dropCR] *)
Fixpoint dropCR (s : string) : string :=
  match s with
  | EmptyString => EmptyString
  | String c rest =>
      match rest with
      | EmptyString => if (nat_of_ascii c =? 13)%nat then EmptyString else s
      | _ => String c (dropCR rest)
      end
  end.

Fixpoint lengthN (s : string) : N :=
  match s with
  | EmptyString => 0%N
  | String _ rest => N.succ (lengthN rest)
  end.

(** [bufio.MaxScanTokenSize = 64 * 1024]: the buffer of a [bufio.Scanner]
    grows to this size and no further.  A line whose bytes before the line
    feed (or before the end of the stream) number that many or more fills
    the buffer without a token being found, and [Scan] gives up:
    [Err()] is [ErrTooLong] from then on and no further line is
    delivered.  The words of a line that was delivered fit the buffer of
    the word scanner, which reports no error. *)
Definition MaxScanTokenSize : N := (64 * 1024)%N.

Definition ErrTooLong : string := "bufio.Scanner: token too long".

Fixpoint scanLines (ls : list string) : list Line * option string :=
  match ls with
  | [] => ([], None)
  | l :: rest =>
      if (lengthN l <? MaxScanTokenSize)%N
      then let (lines, err) := scanLines rest in (lineOf (dropCR l) :: lines, err)
      else ([], Some ErrTooLong)
  end.

(** What the scanners deliver for the bytes [input], read from a reader
    that hands them over and then reports the end of the stream. *)
Definition streamOfBytes (input : string) : lineScannerState :=
  let (lines, err) := scanLines (rawLines input) in mkLineScanner lines err.

(** The lines and words of [input] themselves, as a scanner without a
    limit on the size of a token would deliver them. *)
Definition unlimitedStream (input : string) : lineScannerState :=
  streamOf (map dropCR (rawLines input)).

(** The bytes of a file with the given lines, each ended by a line feed. *)
Definition bytesOf (ls : list string) : string :=
  String.concat EmptyString (map (fun l => l ++ newline) ls).

(** [strconv.ParseFloat] on the few literals of the examples: [1e39] is a
    float64 beyond the range of float32, which Go reports as a range error
    together with an infinity. *)
Definition sampleParseFloat (w : string) (bitSize : Z) : float * option string :=
  if String.eqb w "0" then (0%float, None)
  else if String.eqb w "1" then (1%float, None)
  else if String.eqb w "0.5" then (0.5%float, None)
  else if String.eqb w "NaN" then (nan, None)
  else if String.eqb w "1e39" then
    if (bitSize =? 32)%Z then (infinity, Some "value out of range")
    else (1e39%float, None)
  else (0%float, Some "invalid syntax").

(** *** Decimal literals

    A plain decimal literal: an optional sign; digits with at most one
    point among them, one digit at least; and optionally [e] or [E], an
    optional sign and one to four digits.  [readDecimal w] is
    [Some (neg, m, e)] when [w] is such a literal, of value [m * 10^e],
    negated when [neg] is set; it is [None] for every other word. *)
Definition digitOf (c : ascii) : option Z :=
  let n := nat_of_ascii c in
  if ((48 <=? n) && (n <=? 57))%nat then Some (Z.of_nat n - 48) else None.

Fixpoint readDigits (s : string) (acc : Z) (count : nat) : Z * nat * string :=
  match s with
  | EmptyString => (acc, count, s)
  | String c rest =>
      match digitOf c with
      | Some d => readDigits rest (10 * acc + d) (S count)
      | None => (acc, count, s)
      end
  end.

Definition readSign (s : string) : bool * string :=
  match s with
  | String c rest =>
      if (nat_of_ascii c =? 43)%nat then (false, rest)
      else if (nat_of_ascii c =? 45)%nat then (true, rest)
      else (false, s)
  | EmptyString => (false, s)
  end.

Definition readDecimal (w : string) : option (bool * Z * Z) :=
  let (neg, s1) := readSign w in
  let '(mi, ni, s2) := readDigits s1 0 0 in
  let '(m, nf, s3) :=
    match s2 with
    | String c rest =>
        if (nat_of_ascii c =? 46)%nat then readDigits rest mi 0 else (mi, O, s2)
    | EmptyString => (mi, O, s2)
    end in
  if (ni + nf =? 0)%nat then None
  else
    match s3 with
    | EmptyString => Some (neg, m, - Z.of_nat nf)
    | String c rest =>
        if ((nat_of_ascii c =? 101) || (nat_of_ascii c =? 69))%nat then
          let (eneg, s4) := readSign rest in
          let '(ev, ne, s5) := readDigits s4 0 0 in
          if ((1 <=? ne) && (ne <=? 4))%nat && String.eqb s5 EmptyString
          then Some (neg, m, (if eneg then - ev else ev) - Z.of_nat nf)
          else None
        else None
    end.

(** The largest finite value of a binary floating point format, plus half
    a unit in its last place: [(2^24 - 1) * 2^104 + 2^103] for 32 bits and
    [(2^53 - 1) * 2^971 + 2^970] for 64. *)
Definition limit (bitSize : Z) : Z :=
  if (bitSize =? 32)%Z then (2 ^ 25 - 1) * 2 ^ 103 else (2 ^ 54 - 1) * 2 ^ 970.

(** [m * 10^e] lies below, or above, the integer [L]. *)
Definition below (m e L : Z) : bool :=
  if (0 <=? e)%Z then (m * 10 ^ e <? L)%Z else (m <? L * 10 ^ (- e))%Z.
Definition above (m e L : Z) : bool :=
  if (0 <=? e)%Z then (L <? m * 10 ^ e)%Z else (L * 10 ^ (- e) <? m)%Z.

(** The integer nearest to [n / d], the even one of two at equal
    distance. *)
Definition roundHalfEven (n d : Z) : Z :=
  let q := n / d in
  let r := n mod d in
  if (2 * r <? d)%Z then q
  else if (d <? 2 * r)%Z then q + 1
  else if Z.even q then q else q + 1.

(** [n / d * 2^-k], as a fraction. *)
Definition scaled (n d k : Z) : Z * Z :=
  if (0 <=? k)%Z then (n, d * 2 ^ k) else (n * 2 ^ (- k), d).

(** The value of the format with [prec] bits of precision and least
    exponent [emin] nearest to [n / d], as a binary64 value. *)
Definition nearest (prec emin : Z) (n d : Z) : float :=
  if (n =? 0)%Z then 0%float
  else
    let e0 := Z.log2 n - Z.log2 d in
    let e2 := if (let (a, b) := scaled n d e0 in (a <? b)%Z) then e0 - 1 else e0 in
    let q := Z.max (e2 - (prec - 1)) (emin - (prec - 1)) in
    let (a, b) := scaled n d q in
    Z.ldexp (of_uint63 (Uint63.of_Z (roundHalfEven a b))) q.

(** A function that treats the plain decimal literals as the documentation
    of [strconv.ParseFloat] says: the literal is refused with a range error
    and an infinity when its value is not below [limit bitSize], and is
    otherwise accepted with the nearest value of that size.  Every other
    word is refused here (the library accepts more: hexadecimal literals,
    underscores between digits, infinities and NaN). *)
Definition decimalParseFloat (w : string) (bitSize : Z) : float * option string :=
  match readDecimal w with
  | None => (0%float, Some "invalid syntax")
  | Some (neg, m, e) =>
      let sign := fun x => if neg then (- x)%float else x in
      if below m e (limit bitSize) then
        let n := if (0 <=? e)%Z then m * 10 ^ e else m in
        let d := if (0 <=? e)%Z then 1 else 10 ^ (- e) in
        (sign (if (bitSize =? 32)%Z then nearest 24 (-126) n d else nearest 53 (-1022) n d), None)
      else (sign infinity, Some "value out of range")
  end.

(** Modelled from the spec: [extractASCIIString] is not part of the sources
    at hand; by section 4.3 of the specification the name is the rest of
    the header line, without a trailing carriage return. *)
Fixpoint extractASCIIString (s : string) : string :=
  match s with
  | EmptyString => EmptyString
  | String c rest =>
      match rest with
      | EmptyString => if (nat_of_ascii c =? 13)%nat then EmptyString else s
      | _ => String c (extractASCIIString rest)
      end
  end.

(** A file of one triangle and a file of two. *)
Definition oneTriangleFile : list string :=
  [ "solid cube";
    "facet normal 0 0 1";
    "  outer loop";
    "    vertex 0 0 0";
    "    vertex 1 0 0";
    "    vertex 0 1 0";
    "  endloop";
    "endfacet";
    "endsolid" ].

(** The same file with 64 KiB of blanks before [endfacet]: it has the
    words of [oneTriangleFile], and a line that [bufio.Scanner] does not
    deliver. *)
Definition blanks : string :=
  string_of_list_ascii (repeat " "%char (N.to_nat MaxScanTokenSize)).

Definition longLineFile : string :=
  bytesOf [ "solid cube";
            "facet normal 0 0 1";
            "  outer loop";
            "    vertex 0 0 0";
            "    vertex 1 0 0";
            "    vertex 0 1 0";
            "  endloop";
            blanks ++ "endfacet";
            "endsolid" ].

(** The stream ends where the first coordinate of the normal is due. *)
Definition truncatedFile : list string := [ "solid cube"; "facet normal" ].

(** A blank line before a well-formed file. *)
Definition blankFirstFile : list string := [ ""; "solid cube"; "endsolid" ].

(** A header without the prefix, a triangle with a malformed float, and a
    well-formed triangle. *)
Definition badHeaderFile : list string :=
  [ "cube";
    "facet normal 0 0 1 outer loop";
    "vertex 0 0 0 vertex 1 x 0 vertex 0 1 0";
    "endloop endfacet";
    "facet normal 0 0 1 outer loop";
    "vertex 0 0 0 vertex 1 0 0 vertex 0 1 0";
    "endloop endfacet";
    "endsolid" ].

(** The parser after the header line of [badHeaderFile], at the first
    [facet]. *)
Definition atFirstFacet : parser :=
  fst (nextLine (newParser (streamOf badHeaderFile))).

End ParserSpec.

(** *** Vocabulary for the scanners and for error recovery *)

Module StreamSpec.
Import ParserGo ParserSpec.
Local Open Scope string_scope.

(** The name [parseASCIIHeaderLine] hands to [SetName]. *)
Definition headerName (extractASCIIString : string -> string) (p : parser)
    : string :=
  extractASCIIString
    (substring (String.length expectedASCIIHeaderPrefix)
       (String.length (currentLineBytes p)
        - String.length expectedASCIIHeaderPrefix)%nat
       (currentLineBytes p)).

(** The call [Parse] makes for the header line, if it makes one. *)
Definition headerCalls (extractASCIIString : string -> string) (p : parser)
    : Writer :=
  if headerValid p then [SetName (headerName extractASCIIString p)] else [].

(** A call of [nextWord] ([false]) or of [nextLine] ([true]), for what it
    does to the parser. *)
Definition advance (p : parser) (byLine : bool) : parser :=
  fst (if byLine then nextLine p else nextWord p).

(** The parser is on line number [line p] of [lines], counted from 1: the
    bytes of that line are its current line and its current word is one of
    the words of that line. *)
Definition onLine (lines : list Line) (p : parser) : Prop :=
  exists l, 1 <= line p
            /\ lines !! Z.to_nat (line p - 1) = Some l
            /\ currentLine p = Some (lineBytes l)
            /\ In (currentWord p) (lineWords l).

(** The position of the parser in the stream [lines]: the lines before the
    current one, the current line, and the words of it that were passed. *)
Definition positioned (lines : list Line) (p : parser) : Prop :=
  exists before l seen,
    lines = (before ++ l :: linesLeft (lineScanner p))%list
    /\ line p = Z.of_nat (length before) + 1
    /\ currentLine p = Some (lineBytes l)
    /\ lineWords l = (seen ++ currentWord p :: wordsLeft (wordScanner p))%list
    /\ wordsErr (wordScanner p) = lineWordsErr l.

(** Two parsers at the same place of the same stream: they differ at most
    in the diagnostics, the two flags and the text. *)
Definition samePlace (p q : parser) : Prop :=
  line p = line q
  /\ currentWord p = currentWord q
  /\ currentLine p = currentLine q
  /\ eof p = eof q
  /\ lineScanner p = lineScanner q
  /\ wordScanner p = wordScanner q.

(** *** Input with stray words and broken triangles *)

(** None of the words is [facet] or [endsolid]. *)
Definition noSync (ws : list string) : bool :=
  forallb (fun w => negb (isSync w)) ws.

(** The messages of the diagnostics of the triangle loop. *)
Definition strayMessage : string :=
  dquote ++ "facet" ++ dquote ++ " or " ++ dquote ++ "endsolid" ++ dquote
  ++ " expected".

Definition expectationMessage (s : subStep) : string :=
  match s with
  | Keyword ident => dquote ++ idents ident ++ dquote ++ " expected"
  | Float _ => "Unable to parse float"
  end.

(** A triangle of the input: a whole one, or one broken at a word: the
    words [ws] that the sub-steps [done] accept, followed by the word [bad]
    that the next sub-step, [failing], does not accept. *)
Inductive facetText :=
| Whole (txt : TriangleText)
| Broken (done : list subStep) (failing : subStep) (ws : list string)
         (bad : string).

(** A triangle with the stray words before it. *)
Record item := mkItem { stray : list string; body : facetText }.

Definition facetWords (b : facetText) : list string :=
  match b with
  | Whole txt => triangleWords txt
  | Broken _ _ ws bad => (ws ++ [bad])%list
  end.

Definition itemWords (it : item) : list string :=
  (stray it ++ facetWords (body it))%list.

Definition isWhole (it : item) : bool :=
  match body it with
  | Whole _ => true
  | Broken _ _ _ _ => false
  end.

Section Items.
Variable ParseFloat : string -> Z -> float * option string.

Definition facetTextOk (b : facetText) : Prop :=
  match b with
  | Whole txt => isTriangle ParseFloat txt
  | Broken done failing ws bad =>
      (exists todo, facetSteps = (done ++ failing :: todo)%list)
      /\ done <> []
      /\ allAccepted ParseFloat done ws
      /\ ~ acceptsWord ParseFloat failing bad
      /\ isSync bad = false
  end.

Definition itemOk (it : item) : Prop :=
  noSync (stray it) = true /\ facetTextOk (body it).

(** The triangles handed to the writer: the whole ones. *)
Definition delivered (items : list item) : list Triangle :=
  flat_map (fun it => match body it with
                      | Whole txt => [triangleOf ParseFloat txt]
                      | Broken _ _ _ _ => []
                      end) items.

End Items.

(** The messages recorded, in order: one for each run of stray words,
    unless it follows a broken triangle (it is then skipped together with
    the rest of that triangle), and one for each broken triangle.
    [afterBroken] tells whether a broken triangle precedes. *)
Fixpoint messages (afterBroken : bool) (items : list item)
    (strayEnd : list string) : list string :=
  match items with
  | [] =>
      match strayEnd with
      | [] => []
      | _ :: _ => if afterBroken then [] else [strayMessage]
      end
  | it :: rest =>
      (match stray it with
       | [] => []
       | _ :: _ => if afterBroken then [] else [strayMessage]
       end
       ++ match body it with
          | Whole _ => messages false rest strayEnd
          | Broken _ failing _ _ =>
              expectationMessage failing :: messages true rest strayEnd
          end)%list
  end.

(** The diagnostic [e] is the message [msg] with a line number. *)
Definition numbered (e msg : string) : Prop := exists n, e = formatError n msg.

(** A stream made of a header line that starts with ["solid "] and, on the
    lines after it, the words of [items], the stray words [strayEnd], the
    word [endsolid] and the words [trailer]; no scanner reports an error. *)
Definition recoverable (ParseFloat : string -> Z -> float * option string)
    (stream : lineScannerState) (name : string) (items : list item)
    (strayEnd trailer : list string) : Prop :=
  exists header body,
    linesLeft stream = header :: body
    /\ linesErr stream = None
    /\ lineBytes header = expectedASCIIHeaderPrefix ++ name
    /\ lineWords header <> []
    /\ lineWordsErr header = None
    /\ linesClean body
    /\ wordsOfLines body
       = (concat (map itemWords items) ++ strayEnd ++ "endsolid" :: trailer)%list
    /\ Forall (itemOk ParseFloat) items
    /\ noSync strayEnd = true.

(** A file with a stray word, a triangle broken at a coordinate, a whole
    triangle, and words after [endsolid]. *)
Definition strayBrokenFile : list string :=
  [ "solid part 1";
    "oops";
    "facet normal 0 0 1 outer loop";
    "vertex 0 0 0 vertex 1 x 0 vertex 0 1 0";
    "endloop endfacet";
    "facet normal 0 0 1 outer loop";
    "vertex 0 0 0 vertex 1 0 0 vertex 0 1 0";
    "endloop endfacet";
    "endsolid part 1" ].

Definition unitText : TriangleText :=
  mkTriangleText ("0", "0", "1") ("0", "0", "0") ("1", "0", "0") ("0", "1", "0").

Definition strayBrokenItems : list item :=
  [ mkItem ["oops"]
      (Broken (firstn 13 facetSteps) (Float (coordPtr (VerticesPtr 1) 1))
         ["facet"; "normal"; "0"; "0"; "1"; "outer"; "loop";
          "vertex"; "0"; "0"; "0"; "vertex"; "1"]
         "x");
    mkItem ["0"; "vertex"; "0"; "1"; "0"; "endloop"; "endfacet"]
      (Whole unitText) ].

End StreamSpec.

(** ** solid.go: the operations on the triangles of a solid *)

Module SolidOps.
Import ValidateGo.

(** [v[d]] and [v[d] = x], for an index within the array. *)
Definition coord (v : Vec3) (d : nat) : float :=
  match d with
  | O => c0 v
  | S O => c1 v
  | _ => c2 v
  end.

Definition setCoord (d : nat) (x : float) (v : Vec3) : Vec3 :=
  match d with
  | O => mkVec3 x (c1 v) (c2 v)
  | S O => mkVec3 (c0 v) x (c2 v)
  | _ => mkVec3 (c0 v) (c1 v) x
  end.

(** [t.Vertices[k] = v] *)
Definition setVertex (k : nat) (v : Vec3) (t : Triangle) : Triangle :=
  match k with
  | O => mkTriangle (Normal t) v (V1 t) (V2 t)
  | S O => mkTriangle (Normal t) (V0 t) v (V2 t)
  | _ => mkTriangle (Normal t) (V0 t) (V1 t) v
  end.

(** [t.Vertices[v][d] = x] *)
Definition setVertexCoord (v d : nat) (x : float) (t : Triangle) : Triangle :=
  setVertex v (setCoord d x (Vertices t v)) t.

(** [for i := 0; i < len(s.Triangles); i++ { body(&s.Triangles[i]) }] *)
Definition forTriangles (body : Triangle -> Triangle) (s : Solid) : Solid :=
  setTriangles s
    (mkSlice (fold_left (fun ts i => alter body i ts)
                        (seq 0 (length (elems (Triangles s))))
                        (elems (Triangles s)))
             (capacity (Triangles s))).

(** [for v := 0; v < 3; v++ { for d := 0; d < 3; d++ {
      t.Vertices[v][d] = f(d, t.Vertices[v][d]) } }] *)
Definition forCoords (f : nat -> float -> float) (t : Triangle) : Triangle :=
  fold_left
    (fun t v =>
       fold_left (fun t d => setVertexCoord v d (f d (coord (Vertices t v) d)) t)
                 [0; 1; 2]%nat t)
    [0; 1; 2]%nat t.

(** [func (s *Solid) Scale(factor float64)] *)
Definition Scale (factor : float) (s : Solid) : Solid :=
  forTriangles (forCoords (fun _ x => factor * x)%float) s.

(** [func (s *Solid) Translate(vec Vec3)] *)
Definition Translate (vec : Vec3) (s : Solid) : Solid :=
  forTriangles (forCoords (fun d x => x + coord vec d)%float) s.

(** [func (s *Solid) scaleDim(factor float64, dim int)]; [None] is the
    run-time panic of an index out of range, which the first access raises
    when [dim] is not 0, 1 or 2. *)
Definition scaleDim (factor : float) (dim : Z) (s : Solid) : option Solid :=
  if (0 <=? dim) && (dim <? 3) then
    Some (forTriangles
            (fun t => fold_left
                        (fun t v => setVertexCoord v (Z.to_nat dim)
                                      (factor * coord (Vertices t v) (Z.to_nat dim))%float t)
                        [0; 1; 2]%nat t)
            s)
  else
    match elems (Triangles s) with
    | [] => Some s
    | _ :: _ => None
    end.

(** [type SolidMeasure struct { Min, Max, Len Vec3 }] *)
Record SolidMeasure := mkSolidMeasure { Min : Vec3; Max : Vec3; Len : Vec3 }.

Section Ops.

(** [append] allocates a new array when the capacity does not suffice; its
    capacity, from the old capacity and the length needed, is the choice of
    Go's run time. *)
Variable growslice : Z -> Z -> Z.

(** [min4], [max4] and [Triangle.recalculateNormal] are declared in files
    that are not part of the sources at hand. *)
Variable min4 : float -> float -> float -> float -> float.
Variable max4 : float -> float -> float -> float -> float.
Variable recalculateNormal : Triangle -> Triangle.

(** [append(s, x)] *)
Definition append {A : Type} (s : slice A) (x : A) : slice A :=
  mkSlice (elems s ++ [x])
          (if len s + 1 <=? capacity s then capacity s
           else growslice (capacity s) (len s + 1)).

(** [func (s *Solid) AppendTriangle(t Triangle)] *)
Definition AppendTriangle (t : Triangle) (s : Solid) : Solid :=
  setTriangles s (append (Triangles s) t).

(** The body of the loop of [Measure] for one triangle. *)
Definition measureTriangle (measure : SolidMeasure) (triangle : Triangle)
    : SolidMeasure :=
  fold_left
    (fun m d =>
       mkSolidMeasure
         (setCoord d (min4 (coord (Min m) d) (coord (V0 triangle) d)
                           (coord (V1 triangle) d) (coord (V2 triangle) d))
                   (Min m))
         (setCoord d (max4 (coord (Max m) d) (coord (V0 triangle) d)
                           (coord (V1 triangle) d) (coord (V2 triangle) d))
                   (Max m))
         (Len m))
    [0; 1; 2]%nat measure.

(** [func (s *Solid) Measure() SolidMeasure] *)
Definition Measure (s : Solid) : SolidMeasure :=
  match elems (Triangles s) with
  | [] => mkSolidMeasure Vec3Zero Vec3Zero Vec3Zero
  | first :: _ =>
      let a := V0 first in
      let m := fold_left measureTriangle (elems (Triangles s))
                         (mkSolidMeasure a a Vec3Zero) in
      mkSolidMeasure (Min m) (Max m) (Vec.Diff (Max m) (Min m))
  end.

(** [func (s *Solid) RecalculateNormals()] *)
Definition RecalculateNormals (s : Solid) : Solid :=
  forTriangles recalculateNormal s.

(** [func (s *Solid) Stretch(vec Vec3)] *)
Definition Stretch (vec : Vec3) (s : Solid) : Solid :=
  forTriangles
    (fun t => recalculateNormal (forCoords (fun d x => coord vec d * x)%float t))
    s.

(** The loop of [ScaleLinearDowntoSizeBox] that chooses the factor. *)
Definition sizeBoxFactor (sizeBox : Vec3) (measure : SolidMeasure) : float :=
  fold_left
    (fun factor d =>
       if (coord sizeBox d <? coord (Len measure) d)%float
       then let scale := (coord sizeBox d / coord (Len measure) d)%float in
            if (scale <? factor)%float then scale else factor
       else factor)
    [0; 1; 2]%nat 1%float.

(** [func (s *Solid) ScaleLinearDowntoSizeBox(sizeBox Vec3)]; [None] is the
    [panic] of the first statement. *)
Definition ScaleLinearDowntoSizeBox (sizeBox : Vec3) (s : Solid) : option Solid :=
  if ((c0 sizeBox <=? 0) || (c1 sizeBox <=? 0) || (c2 sizeBox <=? 0))%float
  then None
  else
    let measure := Measure s in
    let factor := sizeBoxFactor sizeBox measure in
    if negb (factor =? 1)%float then Some (Scale factor s) else Some s.

(** [func (s *Solid) IsInPositive() bool] *)
Definition IsInPositive (s : Solid) : bool :=
  let measure := Measure s in
  forallb (fun dim => negb (coord (Min measure) dim <? 0)%float) [0; 1; 2]%nat.

(** The vector [MoveToPositive] builds. *)
Definition translationVector (measure : SolidMeasure) : Vec3 :=
  fold_left
    (fun tv dim =>
       if (coord (Min measure) dim <? 0)%float
       then setCoord dim (- coord (Min measure) dim)%float tv
       else tv)
    [0; 1; 2]%nat Vec3Zero.

(** [func (s *Solid) MoveToPositive()] *)
Definition MoveToPositive (s : Solid) : Solid :=
  let measure := Measure s in
  if negb (Vec3eq (translationVector measure) Vec3Zero)
  then Translate (translationVector measure) s
  else s.

End Ops.

(** What [Scale], [Translate] and [Stretch] do to one vertex. *)
Definition mapCoords (f : nat -> float -> float) (v : Vec3) : Vec3 :=
  mkVec3 (f 0%nat (c0 v)) (f 1%nat (c1 v)) (f 2%nat (c2 v)).

Definition mapVertices (f : nat -> float -> float) (t : Triangle) : Triangle :=
  mkTriangle (Normal t) (mapCoords f (V0 t)) (mapCoords f (V1 t))
             (mapCoords f (V2 t)).

(** A run time that doubles the capacity, or takes what is needed. *)
Definition doubling (oldCap needed : Z) : Z := Z.max (2 * oldCap) needed.

End SolidOps.

(** ** readascii.go: reading into a solid *)

Module ReaderGo.
Import ParserGo.

Section Reader.
Variable ParseFloat : string -> Z -> float * option string.
Variable extractASCIIString : string -> string.
Variable growslice : Z -> Z -> Z.

(** [func readAllASCII(r io.Reader, sw Writer) (err error)]: the calls the
    writer received and the error returned, [errors.New(p.ErrorText)]. *)
Definition readAllASCII (r : lineScannerState) : Writer * option string :=
  let '(p, sw, ok) := Parse ParseFloat extractASCIIString (newParser r) [] in
  (sw, if negb ok then Some (ErrorText p) else None).

(** [*Solid] as a [Writer]: what a call does to the solid. *)
Definition applyCall (s : Solid) (c : WriterCall) : Solid :=
  match c with
  | SetName name => SolidGo.SetName name s
  | SetBinaryHeader header => SolidGo.SetBinaryHeader header s
  | SetTriangleCount n => SolidGo.SetTriangleCount n s
  | AppendTriangle t => SolidOps.AppendTriangle growslice t s
  end.

(** [readAllASCII(r, s)] for a [*Solid]: the solid after the call. *)
Definition readInto (r : lineScannerState) (s : Solid) : Solid * option string :=
  let (sw, err) := readAllASCII r in
  (fold_left applyCall sw s, err).

End Reader.

End ReaderGo.

(** *** More vocabulary for [Validate] *)

Module FindingsSpec.

(** A coordinate of a vertex of the triangle is a NaN. *)
Definition vecHasNaN (v : Vec3) : bool :=
  is_nan (c0 v) || is_nan (c1 v) || is_nan (c2 v).

Definition hasNaN (t : Triangle) : bool :=
  vecHasNaN (V0 t) || vecHasNaN (V1 t) || vecHasNaN (V2 t).

End FindingsSpec.

(* ===================================================================== *)
(** * Properties *)
(* ===================================================================== *)

(** ** Facts about binary64 comparisons *)

Module FloatFacts.
Import FloatSpec.

Lemma SFcompare_antisym (x y : spec_float) :
  SFcompare y x = option_map CompOpp (SFcompare x y).
Proof.
  destruct x as [[]|[]| |[] m1 e1], y as [[]|[]| |[] m2 e2]; simpl; try reflexivity;
    rewrite (Z.compare_antisym e1 e2); destruct (e1 ?= e2)%Z; simpl; try reflexivity;
    pose proof (Pos.compare_cont_antisym m1 m2 Eq) as H; simpl in H; rewrite <- H;
    destruct (Pos.compare_cont Eq m1 m2); reflexivity.
Qed.

Lemma SFcompare_refl (x : spec_float) :
  x <> S754_nan -> SFcompare x x = Some Eq.
Proof.
  destruct x as [[]|[]| |[] m e]; simpl; try congruence; intros _;
    rewrite Z.compare_refl, Pos.compare_cont_refl; reflexivity.
Qed.

Lemma SFcompare_some (x y : spec_float) :
  x <> S754_nan -> y <> S754_nan -> exists c, SFcompare x y = Some c.
Proof.
  destruct x as [[]|[]| |[] m1 e1], y as [[]|[]| |[] m2 e2]; simpl;
    try congruence; intros _ _; eexists; reflexivity.
Qed.

Lemma is_nan_spec (x : float) :
  is_nan x = true <-> Prim2SF x = S754_nan.
Proof.
  unfold is_nan. rewrite FloatAxioms.eqb_spec. unfold SFeqb.
  destruct (Prim2SF x) as [[]|[]| |[] m e] eqn:E.
  all: try (rewrite SFcompare_refl by discriminate; simpl;
            split; intros; discriminate).
  simpl. split; reflexivity.
Qed.

(** [a < b] is the negation of [b <= a] exactly when neither side is NaN. *)
Lemma ltb_as_leb (a b : float) :
  (a <? b)%float = negb ((b <=? a)%float || is_nan a || is_nan b).
Proof.
  destruct (is_nan a) eqn:Ha.
  { apply is_nan_spec in Ha. rewrite FloatAxioms.ltb_spec, Ha, orb_true_r. reflexivity. }
  destruct (is_nan b) eqn:Hb.
  { apply is_nan_spec in Hb. rewrite FloatAxioms.ltb_spec, Hb, orb_true_r.
    unfold SFltb. rewrite SFcompare_antisym. reflexivity. }
  rewrite !orb_false_r, FloatAxioms.ltb_spec, FloatAxioms.leb_spec. unfold SFltb, SFleb.
  rewrite (SFcompare_antisym (Prim2SF a) (Prim2SF b)).
  destruct (SFcompare_some (Prim2SF a) (Prim2SF b)) as [c Hc].
  - intros E. apply is_nan_spec in E. congruence.
  - intros E. apply is_nan_spec in E. congruence.
  - rewrite Hc. destruct c; reflexivity.
Qed.

(** [|d| < e] is [-e < d && d < e] for a positive finite [e]. *)
Lemma abs_ltb (d e : float) (m : positive) (ex : Z) :
  Prim2SF e = S754_finite false m ex ->
  (abs d <? e)%float = ((- e <? d) && (d <? e))%float.
Proof.
  intros He. rewrite !FloatAxioms.ltb_spec, FloatAxioms.abs_spec, FloatAxioms.opp_spec, He. unfold SFltb.
  destruct (Prim2SF d) as [[]|[]| |[] m' e']; simpl; try reflexivity.
  rewrite (Z.compare_antisym e' ex). destruct (e' ?= ex)%Z; simpl; try reflexivity.
  pose proof (Pos.compare_cont_antisym m' m Eq) as H; simpl in H; rewrite <- H.
  destruct (Pos.compare_cont Eq m' m); reflexivity.
Qed.

(** Go's [==] on floats is a partial equivalence: symmetric and
    transitive, and reflexive except at NaN. *)
Lemma SFeqb_class (x y : spec_float) :
  SFeqb x y = true <-> SFclass x = SFclass y /\ SFclass x <> None.
Proof.
  unfold SFeqb.
  destruct x as [[]|[]| |[] m1 e1], y as [[]|[]| |[] m2 e2]; simpl;
    try (split; [discriminate | intros [? ?]; congruence]);
    try (split; [intros _; split; [reflexivity | discriminate] | reflexivity]).
  all: destruct (e1 ?= e2)%Z eqn:He;
    try (split; [discriminate |
                 intros [H _]; injection H as -> ->;
                 rewrite Z.compare_refl in He; discriminate]).
  all: apply Z.compare_eq in He; subst e2.
  all: destruct (Pos.compare_cont Eq m1 m2) eqn:Hm; simpl;
    try (split; [discriminate |
                 intros [H _]; injection H as ->;
                 rewrite Pos.compare_cont_refl in Hm; discriminate]).
  all: apply Pos.compare_eq in Hm; subst m2;
    split; [intros _; split; [reflexivity | discriminate] | reflexivity].
Qed.

Lemma eqb_sym (x y : float) : (x =? y)%float = (y =? x)%float.
Proof.
  rewrite !FloatAxioms.eqb_spec. unfold SFeqb.
  rewrite (SFcompare_antisym (Prim2SF x) (Prim2SF y)).
  destruct (SFcompare (Prim2SF x) (Prim2SF y)) as [[]|]; reflexivity.
Qed.

Lemma eqb_trans (x y z : float) :
  (x =? y)%float = true -> (y =? z)%float = true -> (x =? z)%float = true.
Proof.
  rewrite !FloatAxioms.eqb_spec, !SFeqb_class.
  intros [H1 H2] [H3 _]. split; congruence.
Qed.

End FloatFacts.

(** ** ray.go: the Moeller-Trumbore test *)

Module RayFacts.
Import Vec RayGo.

(** The parallel test of the source, [det > -epsilon && det < epsilon], is
    the specification's [|det| < epsilon]. *)
Lemma parallel_spec (ray : Ray) (triangle : Triangle) :
  parallel ray triangle
  = ((- epsilon <? det ray triangle) && (det ray triangle <? epsilon))%float.
Proof.
  unfold parallel.
  apply (FloatFacts.abs_ltb _ _ 4503599627370496%positive (-104)%Z).
  reflexivity.
Qed.

(** The function as one decision: a miss as soon as one of the tests of the
    source fires, a hit otherwise. *)
Lemma IntersectsTriangle_cases (ray : Ray) (triangle : Triangle) :
  IntersectsTriangle ray triangle
  = if parallel ray triangle || u_outside ray triangle
       || v_outside ray triangle || negb (epsilon <? t_ ray triangle)%float
    then (Vec3Zero, false)
    else (hitPoint ray triangle, true).
Proof.
  rewrite parallel_spec.
  unfold IntersectsTriangle, u_outside, v_outside, hitPoint, t_, v_, u_,
    sCrossE1, s_, invDet, det, rayCrossE2, edge1, edge2.
  cbv zeta.
  repeat match goal with
         | |- context [if ?b then _ else _] =>
             lazymatch b with
             | context [if _ then _ else _] => fail
             | _ => destruct b eqn:?
             end
         end; simpl; try reflexivity; try discriminate.
Qed.

Lemma not_hit_spec (t : float) :
  negb (epsilon <? t)%float = ((t <=? epsilon)%float || is_nan t).
Proof.
  rewrite FloatFacts.ltb_as_leb, negb_involutive.
  replace (is_nan epsilon) with false by reflexivity.
  rewrite orb_false_r. reflexivity.
Qed.

(** C3, as amended.  [IntersectsTriangle] returns a miss when
    [|det| < epsilon], when [u < 0] or [u > 1], when [v < 0] or [u+v > 1],
    when [t <= epsilon], or when [t] is NaN; in every other case it returns
    a hit at [origin + t * direction].  The three examples of the
    specification evaluate as it says: a hit at [(0.1, 0.1, 0)], a miss
    because [u + v > 1], and a miss for the plane-parallel direction
    [(1, 0, 0)] whatever the origin. *)
Theorem IntersectsTriangle_moeller_trumbore :
  (forall ray triangle,
     IntersectsTriangle ray triangle
     = if parallel ray triangle || u_outside ray triangle
          || v_outside ray triangle || t_behind ray triangle
          || is_nan (t_ ray triangle)
       then (Vec3Zero, false)
       else (hitPoint ray triangle, true))
  /\ IntersectsTriangle (mkRay (mkVec3 0.1 0.1 1) down) unitTriangle
     = (mkVec3 0.1 0.1 0, true)
  /\ (v_outside (mkRay (mkVec3 0.51 0.51 1) down) unitTriangle = true
      /\ IntersectsTriangle (mkRay (mkVec3 0.51 0.51 1) down) unitTriangle
         = (Vec3Zero, false))
  /\ (forall origin,
        parallel (mkRay origin (mkVec3 1 0 0)) unitTriangle = true
        /\ IntersectsTriangle (mkRay origin (mkVec3 1 0 0)) unitTriangle
           = (Vec3Zero, false)).
Proof.
  split; [| split; [| split; [| ]]].
  - intros ray triangle. rewrite IntersectsTriangle_cases, not_hit_spec.
    rewrite !orb_assoc. reflexivity.
  - vm_compute. reflexivity.
  - split; vm_compute; reflexivity.
  - intros origin.
    assert (Hp : parallel (mkRay origin (mkVec3 1 0 0)) unitTriangle = true)
      by (vm_compute; reflexivity).
    split; [exact Hp |].
    rewrite IntersectsTriangle_cases, Hp. reflexivity.
Qed.

(** C3, as stated, fails: for the finite inputs [farRay] and [hugeTriangle]
    none of the four listed miss conditions holds ([det] is infinite, [u] is
    0, [v] and [t] are NaN, and every comparison with a NaN is false), yet
    the function returns a miss. *)
Lemma fourConditionRule_fails :
  parallel farRay hugeTriangle || u_outside farRay hugeTriangle
    || v_outside farRay hugeTriangle || t_behind farRay hugeTriangle = false
  /\ IntersectsTriangle farRay hugeTriangle = (Vec3Zero, false)
  /\ ~ fourConditionRule farRay hugeTriangle.
Proof.
  assert (H1 : parallel farRay hugeTriangle || u_outside farRay hugeTriangle
               || v_outside farRay hugeTriangle || t_behind farRay hugeTriangle
               = false) by (vm_compute; reflexivity).
  assert (H2 : IntersectsTriangle farRay hugeTriangle = (Vec3Zero, false))
    by (vm_compute; reflexivity).
  split; [exact H1 | split; [exact H2 |]].
  intros [_ Hhit]. specialize (Hhit H1). rewrite H2 in Hhit. discriminate.
Qed.

End RayFacts.

(** ** solid.go: SetTriangleCount *)

Module SetTriangleCountFacts.
Import SolidGo.

Lemma uint32_small (x : Z) : 0 <= x < 2 ^ 32 -> uint32 x = x.
Proof. intros H. unfold uint32. apply Z.mod_small. exact H. Qed.

Lemma uint32_le (x : Z) : 0 <= x -> uint32 x <= x.
Proof. intros H. unfold uint32. apply Z.mod_le; lia. Qed.

Lemma uint32_range (x : Z) : 0 <= uint32 x < 2 ^ 32.
Proof. unfold uint32. apply Z.mod_pos_bound. lia. Qed.

Lemma len_nonneg {A : Type} (s : slice A) : 0 <= len s.
Proof. unfold len. lia. Qed.

Lemma copy_fresh {A : Type} (zero : A) (src : list A) (k : nat) :
  (k <= length src)%nat -> copy (repeat zero k) src = firstn k src.
Proof.
  intros Hk. unfold copy. rewrite repeat_length.
  rewrite Nat.min_l by exact Hk.
  rewrite skipn_all2 by (rewrite repeat_length; lia).
  apply app_nil_r.
Qed.

(** X26.  For a Solid of fewer than [2^32] triangles and every
    [n] of type [uint32], after [SetTriangleCount(n)] the length of
    [Triangles] is [min(previous length, n)], its capacity is at least [n],
    its elements are the first [min(previous length, n)] elements of before,
    and [Name], [BinaryHeader] and [IsAscii] are unchanged. *)
Theorem SetTriangleCount_spec (s : Solid) (n : Z) :
  0 <= n < 2 ^ 32 ->
  slice_ok (Triangles s) ->
  len (Triangles s) < 2 ^ 32 ->
  let s' := SetTriangleCount n s in
  len (Triangles s') = Z.min (len (Triangles s)) n
  /\ n <= capacity (Triangles s')
  /\ elems (Triangles s')
     = firstn (Z.to_nat (Z.min (len (Triangles s)) n)) (elems (Triangles s))
  /\ Name s' = Name s
  /\ BinaryHeader s' = BinaryHeader s
  /\ IsAscii s' = IsAscii s.
Proof.
  intros Hn Hok Hlen. unfold slice_ok in Hok.
  pose proof (len_nonneg (Triangles s)) as H0.
  pose proof (uint32_le (capacity (Triangles s))) as Hc.
  unfold SetTriangleCount.
  rewrite (uint32_small (len (Triangles s))) by lia.
  destruct (Z.ltb_spec n (len (Triangles s))) as [Hlt | Hge].
  - cbn [Triangles setTriangles elems capacity Name BinaryHeader IsAscii].
    unfold len in *. cbn [elems].
    rewrite length_firstn.
    rewrite Z.min_r by lia.
    repeat split; try reflexivity; lia.
  - assert (Hall : elems (Triangles s)
                   = firstn (Z.to_nat (Z.min (len (Triangles s)) n))
                            (elems (Triangles s))).
    { rewrite Z.min_l by lia. unfold len. rewrite Nat2Z.id.
      symmetry. apply firstn_all. }
    destruct (Z.leb_spec n (uint32 (capacity (Triangles s)))) as [Hle | Hgt].
    + cbv zeta. repeat split; first [reflexivity | exact Hall | lia].
    + cbv zeta.
      assert (Hcopy : copy (elems (make zeroTriangle (len (Triangles s)) n))
                           (elems (Triangles s)) = elems (Triangles s)).
      { unfold make. cbn [elems]. unfold len. rewrite Nat2Z.id.
        rewrite copy_fresh by lia. apply firstn_all. }
      destruct (Z.ltb_spec 0 (len (Triangles s))) as [Hpos | Hzero].
      * cbn [Triangles setTriangles elems capacity Name BinaryHeader IsAscii].
        rewrite Hcopy.
        repeat split;
          first [reflexivity | exact Hall | unfold len in *; cbn [elems]; lia].
      * assert (Hl0 : len (Triangles s) = 0) by lia.
        rewrite Hl0. unfold make.
        cbn [Triangles setTriangles elems capacity Name BinaryHeader IsAscii].
        rewrite Z.min_l by lia.
        repeat split; first [reflexivity | lia].
Qed.

(** A solid of three triangles with room for four, cut down to two. *)
Lemma SetTriangleCount_spec_witness :
  let s := mkSolid [] EmptyString
                   (mkSlice [zeroTriangle; zeroTriangle; zeroTriangle] 4) true in
  len (Triangles (SetTriangleCount 2 s)) = Z.min (len (Triangles s)) 2
  /\ 2 <= capacity (Triangles (SetTriangleCount 2 s))
  /\ elems (Triangles (SetTriangleCount 2 s))
     = firstn (Z.to_nat (Z.min (len (Triangles s)) 2)) (elems (Triangles s))
  /\ Name (SetTriangleCount 2 s) = Name s
  /\ BinaryHeader (SetTriangleCount 2 s) = BinaryHeader s
  /\ IsAscii (SetTriangleCount 2 s) = IsAscii s.
Proof.
  intros s.
  apply (SetTriangleCount_spec s 2).
  - lia.
  - unfold slice_ok, len. simpl. lia.
  - unfold len. simpl. lia.
Defined.

Lemma hugeSolid_len : len (Triangles hugeSolid) = hugeCount.
Proof.
  unfold hugeSolid, len. cbn [Triangles elems].
  rewrite repeat_length. apply Z2Nat.id. unfold hugeCount. lia.
Qed.

(** When the length does not fit 32 bits, the count kept is the truncated
    length. *)
Lemma SetTriangleCount_wraps (s : Solid) :
  len (Triangles s) = hugeCount ->
  capacity (Triangles s) = hugeCount ->
  len (Triangles (SetTriangleCount 10 s)) = 5.
Proof.
  intros Hlen Hcap.
  assert (Hu : uint32 hugeCount = 5) by reflexivity.
  unfold SetTriangleCount. rewrite Hlen, Hcap, Hu.
  change (10 <? 5) with false. change (10 <=? 5) with false.
  change (0 <? 5) with true. cbv iota.
  unfold setTriangles, len. cbn [Triangles elems].
  unfold copy, make. cbn [elems].
  rewrite length_app, length_firstn, length_skipn, repeat_length.
  unfold len, hugeCount in Hlen. lia.
Qed.

(** C10, at a failing input.  On a well-formed solid of [2^32 + 5]
    triangles [uint32(len(s.Triangles))] is 5, so that
    [SetTriangleCount(10)] keeps 5 triangles where
    [min(previous length, 10)] is 10: triangles below index [n] are
    deleted. *)
Lemma SetTriangleCount_truncates_length :
  slice_ok (Triangles hugeSolid)
  /\ len (Triangles hugeSolid) = 2 ^ 32 + 5
  /\ len (Triangles (SetTriangleCount 10 hugeSolid)) = 5
  /\ len (Triangles (SetTriangleCount 10 hugeSolid))
     <> Z.min (len (Triangles hugeSolid)) 10.
Proof.
  pose proof hugeSolid_len as Hlen.
  pose proof (SetTriangleCount_wraps hugeSolid Hlen eq_refl) as H5.
  split; [| split; [| split]].
  - unfold slice_ok. rewrite Hlen. apply Z.le_refl.
  - exact Hlen.
  - exact H5.
  - rewrite H5, Hlen. discriminate.
Qed.

End SetTriangleCountFacts.

(** ** solid.go: the edge index *)

Module EdgeIndexFacts.
Import ValidateGo ValidateSpec.

Lemma Vec3eq_sym (a b : Vec3) : Vec3eq a b = Vec3eq b a.
Proof.
  unfold Vec3eq.
  rewrite (FloatFacts.eqb_sym (c0 a)), (FloatFacts.eqb_sym (c1 a)),
    (FloatFacts.eqb_sym (c2 a)).
  reflexivity.
Qed.

Lemma Vec3eq_trans (a b c : Vec3) :
  Vec3eq a b = true -> Vec3eq b c = true -> Vec3eq a c = true.
Proof.
  unfold Vec3eq. rewrite !andb_true_iff.
  intros [[H0 H1] H2] [[K0 K1] K2].
  repeat split; eapply FloatFacts.eqb_trans; eassumption.
Qed.

Lemma keyEq_sym (k k' : Edge) : keyEq k k' = keyEq k' k.
Proof.
  unfold keyEq. rewrite (Vec3eq_sym (fst k)), (Vec3eq_sym (snd k)). reflexivity.
Qed.

Lemma keyEq_trans (a b c : Edge) :
  keyEq a b = true -> keyEq b c = true -> keyEq a c = true.
Proof.
  unfold keyEq. rewrite !andb_true_iff.
  intros [H0 H1] [K0 K1]. split; eapply Vec3eq_trans; eassumption.
Qed.

(** A key that is [==] to some key is [==] to itself. *)
Lemma keyEq_refl_l (a b : Edge) : keyEq a b = true -> keyEq a a = true.
Proof.
  intros H. apply (keyEq_trans a b a); [exact H |]. rewrite keyEq_sym. exact H.
Qed.

(** Keys that are [==] are interchangeable in a comparison. *)
Lemma keyEq_ext (a b q : Edge) : keyEq a b = true -> keyEq a q = keyEq b q.
Proof.
  intros H.
  destruct (keyEq a q) eqn:Ha, (keyEq b q) eqn:Hb; try reflexivity.
  - rewrite keyEq_sym in H. rewrite (keyEq_trans b a q H Ha) in Hb. discriminate.
  - rewrite (keyEq_trans a b q H Hb) in Ha. discriminate.
Qed.

Lemma keyEq_ext_r (a b q : Edge) : keyEq a b = true -> keyEq q a = keyEq q b.
Proof.
  intros H. rewrite (keyEq_sym q a), (keyEq_sym q b). apply keyEq_ext. exact H.
Qed.

(** The map read after a write. *)
Lemma mapLookup_store (q key : Edge) (x : gset nat) (m : list (Edge * gset nat)) :
  mapLookup q (mapStore key x m)
  = if keyEq key q then Some x else mapLookup q m.
Proof.
  induction m as [| [k y] rest IH]; simpl.
  - reflexivity.
  - destruct (keyEq k key) eqn:Hk; simpl.
    + rewrite (keyEq_ext k key q Hk). destruct (keyEq key q); reflexivity.
    + rewrite IH. destruct (keyEq k q) eqn:Hq; [| reflexivity].
      destruct (keyEq key q) eqn:Hkq; [| reflexivity].
      rewrite keyEq_sym in Hkq. rewrite (keyEq_trans k q key Hq Hkq) in Hk.
      discriminate.
Qed.

Lemma holders_ext (ins : list (nat * Edge)) (a b : Edge) :
  keyEq a b = true -> holders ins a = holders ins b.
Proof.
  intros H. induction ins as [| [j k] rest IH]; simpl; [reflexivity |].
  rewrite (keyEq_ext_r a b k H), IH. reflexivity.
Qed.

Lemma inserted_ext (ins : list (nat * Edge)) (a b : Edge) :
  keyEq a b = true -> inserted ins a = inserted ins b.
Proof.
  intros H. unfold inserted. induction ins as [| [j k] rest IH]; simpl; [reflexivity |].
  rewrite (keyEq_ext_r a b k H), IH. reflexivity.
Qed.

Lemma holders_not_inserted (ins : list (nat * Edge)) (q : Edge) :
  inserted ins q = false -> holders ins q = ∅.
Proof.
  unfold inserted. induction ins as [| [j k] rest IH]; simpl; [reflexivity |].
  intros H. apply orb_false_iff in H as [H1 H2]. rewrite H1. auto.
Qed.

Lemma elem_of_holders (ins : list (nat * Edge)) (q : Edge) (j : nat) :
  j ∈ holders ins q <-> exists k, In (j, k) ins /\ keyEq k q = true.
Proof.
  induction ins as [| [j' k'] rest IH]; simpl.
  - split; [set_solver | intros (k & [] & _)].
  - destruct (keyEq k' q) eqn:Hk.
    + rewrite elem_of_union, elem_of_singleton, IH. split.
      * intros [-> | (k & Hin & Hq)]; [exists k'; auto | exists k; auto].
      * intros (k & [Heq | Hin] & Hq).
        -- injection Heq as -> ->. left. reflexivity.
        -- right. exists k. auto.
    + rewrite IH. split.
      * intros (k & Hin & Hq). exists k. auto.
      * intros (k & [Heq | Hin] & Hq).
        -- injection Heq as -> ->. congruence.
        -- exists k. auto.
Qed.

Lemma inserted_true (ins : list (nat * Edge)) (q : Edge) :
  inserted ins q = true <-> exists j k, In (j, k) ins /\ keyEq k q = true.
Proof.
  unfold inserted. rewrite existsb_exists. split.
  - intros ([j k] & Hin & Hq). exists j, k. auto.
  - intros (j & k & Hin & Hq). exists (j, k). auto.
Qed.

(** [InsertEdge] panics exactly on a key that is not [==] to itself, and
    otherwise records the insertion. *)
Lemma InsertEdge_nan (j : nat) (k : Edge) (l : edgeLookup) (ins : list (nat * Edge)) :
  represents (edgeToTriangles l) ins ->
  keyEq k k = false ->
  InsertEdge j (fst k) (snd k) l = None.
Proof.
  destruct k as [v w]. cbn [fst snd].
  intros Hrep Hnan. unfold InsertEdge.
  assert (Hni : inserted ins (v, w) = false).
  { destruct (inserted ins (v, w)) eqn:E; [| reflexivity].
    apply inserted_true in E as (j' & k & _ & Hk).
    rewrite keyEq_sym in Hk. apply keyEq_refl_l in Hk. congruence. }
  rewrite (Hrep (v, w)), Hni, mapLookup_store, Hnan, (Hrep (v, w)), Hni.
  reflexivity.
Qed.

Lemma InsertEdge_ok (j : nat) (k : Edge) (l : edgeLookup) (ins : list (nat * Edge)) :
  represents (edgeToTriangles l) ins ->
  keyEq k k = true ->
  exists l', InsertEdge j (fst k) (snd k) l = Some l'
             /\ represents (edgeToTriangles l') ((j, k) :: ins).
Proof.
  destruct k as [v w]. cbn [fst snd].
  intros Hrep Hself. unfold InsertEdge. rewrite (Hrep (v, w)).
  destruct (inserted ins (v, w)) eqn:Hin.
  - eexists. split; [reflexivity |]. cbn [edgeToTriangles].
    intros q. rewrite mapLookup_store, (Hrep q).
    unfold inserted in *. cbn [existsb holders snd].
    destruct (keyEq (v, w) q) eqn:Hq; cbn [orb].
    + rewrite (holders_ext ins (v, w) q Hq). reflexivity.
    + reflexivity.
  - rewrite mapLookup_store, Hself.
    eexists. split; [reflexivity |]. cbn [edgeToTriangles].
    intros q. rewrite !mapLookup_store, (Hrep q).
    unfold inserted in *. cbn [existsb holders snd].
    destruct (keyEq (v, w) q) eqn:Hq; cbn [orb].
    + rewrite <- (holders_ext ins (v, w) q Hq).
      rewrite (holders_not_inserted ins (v, w) Hin). reflexivity.
    + reflexivity.
Qed.

Lemma edge_self (t : Triangle) :
  nanFree t
  = keyEq (edgeOf t 0) (edgeOf t 0) && keyEq (edgeOf t 1) (edgeOf t 1)
    && keyEq (edgeOf t 2) (edgeOf t 2).
Proof.
  unfold nanFree, keyEq, edgeOf. simpl.
  destruct (Vec3eq (V0 t) (V0 t)), (Vec3eq (V1 t) (V1 t)), (Vec3eq (V2 t) (V2 t));
    reflexivity.
Qed.

Section FirstLoop.
Variable i : nat.
Variable t : Triangle.

Lemma insertVertexEdge_panicked (es : list nat) :
  fold_left (insertVertexEdge i t) es None = None.
Proof. induction es as [| e es IH]; simpl; auto. Qed.

Lemma insertVertexEdge_some (l : edgeLookup) (e : nat) :
  insertVertexEdge i t (Some l) e
  = InsertEdge i (fst (edgeOf t e)) (snd (edgeOf t e)) l.
Proof. reflexivity. Qed.

(** The three insertions for one triangle. *)
Lemma insertEdges_spec (l : edgeLookup) (ins : list (nat * Edge)) :
  represents (edgeToTriangles l) ins ->
  match fold_left (insertVertexEdge i t) [0; 1; 2]%nat (Some l) with
  | Some l' => nanFree t = true
               /\ represents (edgeToTriangles l') (edgesOfTriangle i t ++ ins)
  | None => nanFree t = false
  end.
Proof.
  intros Hrep. rewrite edge_self. unfold edgesOfTriangle.
  cbn [fold_left app]. rewrite insertVertexEdge_some.
  destruct (keyEq (edgeOf t 0) (edgeOf t 0)) eqn:H0.
  2:{ rewrite (InsertEdge_nan i _ l ins Hrep H0). reflexivity. }
  destruct (InsertEdge_ok i _ l ins Hrep H0) as (l0 & -> & Hrep0).
  rewrite insertVertexEdge_some.
  destruct (keyEq (edgeOf t 1) (edgeOf t 1)) eqn:H1.
  2:{ rewrite (InsertEdge_nan i _ l0 _ Hrep0 H1). reflexivity. }
  destruct (InsertEdge_ok i _ l0 _ Hrep0 H1) as (l1 & -> & Hrep1).
  rewrite insertVertexEdge_some.
  destruct (keyEq (edgeOf t 2) (edgeOf t 2)) eqn:H2.
  2:{ rewrite (InsertEdge_nan i _ l1 _ Hrep1 H2). reflexivity. }
  destruct (InsertEdge_ok i _ l1 _ Hrep1 H2) as (l2 & -> & Hrep2).
  split; [reflexivity | exact Hrep2].
Qed.

End FirstLoop.

Lemma insertTriangles_panicked (i : nat) (ts : list Triangle) :
  insertTriangles i ts None = None.
Proof.
  revert i. induction ts as [| t rest IH]; intros i; simpl; [reflexivity |].
  apply IH.
Qed.

(** The first loop completes exactly on the solids without a NaN vertex
    coordinate, and then the index holds every edge of every triangle. *)
Lemma insertTriangles_spec (ts : list Triangle) :
  forall (i : nat) (l : edgeLookup) (ins : list (nat * Edge)),
  represents (edgeToTriangles l) ins ->
  match insertTriangles i ts (Some l) with
  | Some l' => forallb nanFree ts = true
               /\ represents (edgeToTriangles l') (allInsertions i ts ins)
  | None => forallb nanFree ts = false
  end.
Proof.
  induction ts as [| t rest IH]; intros i l ins Hrep.
  - simpl. auto.
  - cbn [insertTriangles forallb allInsertions].
    pose proof (insertEdges_spec i t l ins Hrep) as Hone.
    destruct (fold_left (insertVertexEdge i t) [0; 1; 2]%nat (Some l)) as [l1 |].
    + destruct Hone as [Hfree Hrep1]. rewrite Hfree. cbn [andb].
      apply IH. exact Hrep1.
    + rewrite Hone, insertTriangles_panicked. reflexivity.
Qed.

Lemma In_allInsertions (ts : list Triangle) :
  forall (i : nat) (ins : list (nat * Edge)) (j : nat) (k : Edge),
  In (j, k) (allInsertions i ts ins)
  <-> In (j, k) ins
      \/ exists t, (i <= j)%nat /\ ts !! (j - i)%nat = Some t
                   /\ (k = edgeOf t 0 \/ k = edgeOf t 1 \/ k = edgeOf t 2).
Proof.
  induction ts as [| t rest IH]; intros i ins j k.
  - simpl. split; [auto | intros [H | (t & _ & H & _)]; [auto | discriminate]].
  - cbn [allInsertions]. rewrite IH, in_app_iff. unfold edgesOfTriangle.
    cbn [In]. split.
    + intros [[Hin | Hin] | (t' & Hle & Hl & Hk)].
      * right. exists t.
        assert (j = i /\ (k = edgeOf t 0 \/ k = edgeOf t 1 \/ k = edgeOf t 2))
          as [-> Hk].
        { destruct Hin as [H | [H | [H | []]]]; injection H as <- <-; auto. }
        rewrite Nat.sub_diag. auto.
      * left. exact Hin.
      * right. exists t'. split; [lia |]. split; [| exact Hk].
        replace (j - i)%nat with (S (j - S i)) by lia. exact Hl.
    + intros [Hin | (t' & Hle & Hl & Hk)]; [left; right; exact Hin |].
      destruct (Nat.eq_dec j i) as [-> | Hne].
      * rewrite Nat.sub_diag in Hl. injection Hl as <-.
        left. left. destruct Hk as [-> | [-> | ->]]; auto.
      * right. exists t'. split; [lia |]. split; [| exact Hk].
        replace (j - i)%nat with (S (j - S i)) in Hl by lia. exact Hl.
Qed.

Lemma hasEdge_true (t : Triangle) (q : Edge) :
  hasEdge t q = true
  <-> exists k, (k = edgeOf t 0 \/ k = edgeOf t 1 \/ k = edgeOf t 2)
                /\ keyEq k q = true.
Proof.
  unfold hasEdge. rewrite !orb_true_iff. split.
  - intros [[H | H] | H]; eexists; eauto.
  - intros (k & [-> | [-> | ->]] & H); auto.
Qed.

(** What a lookup in the finished index returns. *)
Lemma index_lookup (ts : list Triangle) (l : edgeLookup) (q : Edge) :
  insertTriangles 0 ts (Some newEdgeLookup) = Some l ->
  match mapLookup q (edgeToTriangles l) with
  | Some X => forall j, j ∈ X <-> exists t, ts !! j = Some t /\ hasEdge t q = true
  | None => forall j t, ts !! j = Some t -> hasEdge t q = false
  end.
Proof.
  intros Hl.
  assert (Hrep0 : represents (edgeToTriangles newEdgeLookup) [])
    by (intros q'; reflexivity).
  pose proof (insertTriangles_spec ts 0 newEdgeLookup [] Hrep0) as Hspec.
  rewrite Hl in Hspec. destruct Hspec as [_ Hrep].
  rewrite (Hrep q).
  destruct (inserted (allInsertions 0 ts []) q) eqn:Hins.
  - intros j. rewrite elem_of_holders. split.
    + intros (k & Hin & Hk). apply In_allInsertions in Hin as [[] | (t & _ & Ht & Hek)].
      rewrite Nat.sub_0_r in Ht. exists t. split; [exact Ht |].
      apply hasEdge_true. exists k. auto.
    + intros (t & Ht & He). apply hasEdge_true in He as (k & Hek & Hk).
      exists k. split; [| exact Hk]. apply In_allInsertions. right.
      exists t. rewrite Nat.sub_0_r. split; [lia | auto].
  - intros j t Ht. destruct (hasEdge t q) eqn:He; [| reflexivity].
    apply hasEdge_true in He as (k & Hek & Hk).
    assert (inserted (allInsertions 0 ts []) q = true); [| congruence].
    apply inserted_true. exists j, k. split; [| exact Hk].
    apply In_allInsertions. right. exists t. rewrite Nat.sub_0_r.
    split; [lia | auto].
Qed.

Lemma first_loop_completes (ts : list Triangle) :
  insertTriangles 0 ts (Some newEdgeLookup) <> None
  <-> forallb nanFree ts = true.
Proof.
  assert (Hrep0 : represents (edgeToTriangles newEdgeLookup) [])
    by (intros q'; reflexivity).
  pose proof (insertTriangles_spec ts 0 newEdgeLookup [] Hrep0) as Hspec.
  destruct (insertTriangles 0 ts (Some newEdgeLookup)).
  - destruct Hspec as [H _]. split; [auto | discriminate].
  - rewrite Hspec. split; [congruence | discriminate].
Qed.

Lemma others_spec (ts : list Triangle) (k : Edge) (i j : nat) :
  In j (others ts k i)
  <-> j <> i /\ exists t, ts !! j = Some t /\ hasEdge t k = true.
Proof.
  unfold others. rewrite filter_In, in_seq, andb_true_iff, negb_true_iff,
    Nat.eqb_neq. split.
  - intros (_ & Hne & Hh). split; [exact Hne |].
    destruct (ts !! j) as [t |]; [| discriminate]. eauto.
  - intros (Hne & t & Ht & Hh). rewrite Ht. repeat split; auto; try lia.
    apply lookup_lt_Some in Ht. lia.
Qed.

Lemma others_NoDup (ts : list Triangle) (k : Edge) (i : nat) :
  List.NoDup (others ts k i).
Proof. unfold others. apply List.NoDup_filter, seq_NoDup. Qed.

(** [OtherTrianglesWithEdge] on the finished index: the other triangles
    that contain the edge, in the order of the iteration. *)
Lemma OtherTrianglesWithEdge_spec (order : gset nat -> list nat)
    (ts : list Triangle) (l : edgeLookup) (v w : Vec3) (i : nat) :
  validOrder order ->
  insertTriangles 0 ts (Some newEdgeLookup) = Some l ->
  Permutation (indices (OtherTrianglesWithEdge order l v w i))
              (others ts (v, w) i).
Proof.
  intros Hord Hl. pose proof (index_lookup ts l (v, w) Hl) as Hlook.
  unfold OtherTrianglesWithEdge.
  destruct (mapLookup (v, w) (edgeToTriangles l)) as [X |]; cbn [indices].
  - apply Permutation.NoDup_Permutation.
    + apply List.NoDup_filter.
      eapply Permutation_NoDup; [symmetry; apply Hord |].
      apply NoDup_ListNoDup, NoDup_elements.
    + apply others_NoDup.
    + intros j. rewrite filter_In, negb_true_iff, Nat.eqb_neq, others_spec.
      rewrite <- (Hlook j).
      assert (In j (order X) <-> j ∈ X) as ->.
      { rewrite <- elem_of_elements, list_elem_of_In. split.
        - apply Permutation.Permutation_in, Hord.
        - apply Permutation.Permutation_in. symmetry. apply Hord. }
      tauto.
  - destruct (others ts (v, w) i) as [| j rest] eqn:Ho; [constructor |].
    assert (Hin : In j (others ts (v, w) i)) by (rewrite Ho; left; reflexivity).
    apply others_spec in Hin as (_ & t & Ht & Hh).
    rewrite (Hlook j t Ht) in Hh. discriminate.
Qed.

(** The nil slice is returned only when no triangle at all holds the edge. *)
Lemma OtherTrianglesWithEdge_slen (order : gset nat -> list nat)
    (ts : list Triangle) (l : edgeLookup) (v w : Vec3) (i : nat) :
  validOrder order ->
  insertTriangles 0 ts (Some newEdgeLookup) = Some l ->
  slen (OtherTrianglesWithEdge order l v w i) = length (others ts (v, w) i).
Proof.
  intros Hord Hl.
  rewrite <- (Permutation_length (OtherTrianglesWithEdge_spec order ts l v w i Hord Hl)).
  destruct (OtherTrianglesWithEdge order l v w i); reflexivity.
Qed.

End EdgeIndexFacts.

(** ** solid.go: the second loop of Validate *)

Module ValidateFacts.
Import ValidateGo ValidateSpec EdgeIndexFacts.

Lemma updItem_lookup (i : nat) (f : TriangleErrors -> TriangleErrors)
    (m : gmap nat TriangleErrors) :
  updItem i f m !! i = Some (f (default newTriangleErrors (m !! i))).
Proof.
  unfold updItem, item. destruct (m !! i) as [te |] eqn:E.
  - rewrite E. cbn [default]. apply lookup_insert_eq.
  - rewrite lookup_insert_eq. cbn [default]. apply lookup_insert_eq.
Qed.

Lemma updItem_lookup_ne (i j : nat) (f : TriangleErrors -> TriangleErrors)
    (m : gmap nat TriangleErrors) :
  i <> j -> updItem i f m !! j = m !! j.
Proof.
  intros Hne. unfold updItem, item. destruct (m !! i) as [te |] eqn:E.
  - rewrite E. apply lookup_insert_ne. exact Hne.
  - rewrite lookup_insert_eq, !lookup_insert_ne by exact Hne. reflexivity.
Qed.

(** Run on a fresh entry, the steps for one triangle give the expected
    entry. *)
Lemma steps_from_nothing (equalVertices badNormal : bool)
    (s0 c0 s1 c1 s2 c2 : intSlice) :
  edgeStep s2 c2 2 (edgeStep s1 c1 1 (edgeStep s0 c0 0
    (flagStep equalVertices badNormal None)))
  = expectedFindings equalVertices badNormal
      (expectedEdgeError s0 c0) (expectedEdgeError s1 c1) (expectedEdgeError s2 c2).
Proof.
  unfold edgeStep, flagStep, expectedFindings, expectedEdgeError.
  destruct equalVertices, badNormal,
    (0 <? slen s0)%nat, (slen c0 =? 1)%nat,
    (0 <? slen s1)%nat, (slen c1 =? 1)%nat,
    (0 <? slen s2)%nat, (slen c2 =? 1)%nat; reflexivity.
Qed.

Section SecondLoop.
Variable hasEqualVertices : Triangle -> bool.
Variable checkNormal : Triangle -> float -> bool.
Variable HalfPi : float.
Variable rangeOrder : nat -> nat -> bool -> gset nat -> list nat.
Variable e : edgeLookup.

Local Abbreviation sameQuery := (sameQuery rangeOrder e).
Local Abbreviation counterQuery := (counterQuery rangeOrder e).
Local Abbreviation findingsOf :=
  (findingsOf hasEqualVertices checkNormal HalfPi rangeOrder e).

Lemma checkVertexEdge_lookup (i : nat) (t : Triangle)
    (m : gmap nat TriangleErrors) (vertex1 : nat) :
  checkVertexEdge rangeOrder e i t m vertex1 !! i
  = edgeStep (sameQuery i t vertex1) (counterQuery i t vertex1) vertex1 (m !! i).
Proof.
  unfold checkVertexEdge, edgeStep, sameQuery, counterQuery, onEntry, edgeOf.
  cbn [fst snd].
  repeat match goal with
         | |- context [if ?b then _ else _] => destruct b
         end;
    rewrite ?updItem_lookup; reflexivity.
Qed.

Lemma checkVertexEdge_lookup_ne (i j : nat) (t : Triangle)
    (m : gmap nat TriangleErrors) (vertex1 : nat) :
  i <> j -> checkVertexEdge rangeOrder e i t m vertex1 !! j = m !! j.
Proof.
  intros Hne. unfold checkVertexEdge.
  repeat match goal with
         | |- context [if ?b then _ else _] => destruct b
         end;
    rewrite ?updItem_lookup_ne by exact Hne; reflexivity.
Qed.

Lemma checkTriangle_lookup (i : nat) (t : Triangle) (m : gmap nat TriangleErrors) :
  m !! i = None ->
  checkTriangle hasEqualVertices checkNormal HalfPi rangeOrder e i t m !! i
  = findingsOf i t.
Proof.
  intros Hnone. unfold checkTriangle, findingsOf. cbn [fold_left].
  rewrite !checkVertexEdge_lookup, <- steps_from_nothing.
  do 3 f_equal. unfold flagStep, normalAngleTolerance, onEntry.
  destruct (hasEqualVertices t), (negb (checkNormal t HalfPi));
    rewrite ?updItem_lookup, ?Hnone; reflexivity.
Qed.

Lemma checkTriangle_lookup_ne (i j : nat) (t : Triangle)
    (m : gmap nat TriangleErrors) :
  i <> j ->
  checkTriangle hasEqualVertices checkNormal HalfPi rangeOrder e i t m !! j
  = m !! j.
Proof.
  intros Hne. unfold checkTriangle. cbn [fold_left].
  rewrite !checkVertexEdge_lookup_ne by exact Hne.
  destruct (hasEqualVertices t), (negb (checkNormal t (normalAngleTolerance HalfPi)));
    rewrite ?updItem_lookup_ne by exact Hne; reflexivity.
Qed.

(** The second loop touches the entry of each triangle once. *)
Lemma checkTriangles_lookup (ts : list Triangle) :
  forall (i0 : nat) (m : gmap nat TriangleErrors) (j : nat),
  (forall k, (i0 <= k)%nat -> m !! k = None) ->
  checkTriangles hasEqualVertices checkNormal HalfPi rangeOrder e i0 ts m !! j
  = if (i0 <=? j)%nat
    then match ts !! (j - i0)%nat with
         | Some t => findingsOf j t
         | None => None
         end
    else m !! j.
Proof.
  induction ts as [| t rest IH]; intros i0 m j Hfresh.
  - cbn [checkTriangles]. destruct (Nat.leb_spec i0 j); [| reflexivity].
    rewrite lookup_nil. apply Hfresh. assumption.
  - cbn [checkTriangles]. rewrite IH.
    + destruct (Nat.leb_spec (S i0) j) as [Hle | Hgt].
      * destruct (Nat.leb_spec i0 j); [| lia].
        replace (j - i0)%nat with (S (j - S i0)) by lia. reflexivity.
      * destruct (Nat.leb_spec i0 j) as [Hle | Hlt].
        -- assert (j = i0) as -> by lia. rewrite Nat.sub_diag. cbn.
           apply checkTriangle_lookup. apply Hfresh. lia.
        -- apply checkTriangle_lookup_ne. lia.
    + intros k Hk. rewrite checkTriangle_lookup_ne by lia. apply Hfresh. lia.
Qed.

End SecondLoop.

Section Findings.
Variable hasEqualVertices : Triangle -> bool.
Variable checkNormal : Triangle -> float -> bool.
Variable HalfPi : float.

Local Abbreviation Validate := (Validate hasEqualVertices checkNormal HalfPi).
Local Abbreviation findingsOf := (findingsOf hasEqualVertices checkNormal HalfPi).

(** [Validate] panics exactly on the solids that hold a NaN vertex
    coordinate; the order of iteration plays no part in it. *)
Lemma Validate_completes (rangeOrder : nat -> nat -> bool -> gset nat -> list nat)
    (s : Solid) :
  Validate rangeOrder s <> None
  <-> forallb nanFree (elems (Triangles s)) = true.
Proof.
  rewrite <- first_loop_completes. unfold ValidateGo.Validate.
  destruct (insertTriangles 0 (elems (Triangles s)) (Some newEdgeLookup));
    split; congruence.
Qed.

(** Every entry of the map returned. *)
Lemma Validate_entries (rangeOrder : nat -> nat -> bool -> gset nat -> list nat)
    (s : Solid) (m : gmap nat TriangleErrors) :
  Validate rangeOrder s = Some m ->
  exists e,
    insertTriangles 0 (elems (Triangles s)) (Some newEdgeLookup) = Some e
    /\ forall j, m !! j = match elems (Triangles s) !! j with
                          | Some t => findingsOf rangeOrder e j t
                          | None => None
                          end.
Proof.
  unfold ValidateGo.Validate.
  destruct (insertTriangles 0 (elems (Triangles s)) (Some newEdgeLookup))
    as [e |]; [| discriminate].
  intros [= <-]. exists e. split; [reflexivity |]. intros j.
  rewrite checkTriangles_lookup by (intros k _; apply lookup_empty).
  cbn. rewrite Nat.sub_0_r. reflexivity.
Qed.

Lemma edgeError_spec (rangeOrder : nat -> nat -> bool -> gset nat -> list nat)
    (e : edgeLookup) (m : gmap nat TriangleErrors) (i : nat) (t : Triangle)
    (vertex1 : nat) :
  m !! i = findingsOf rangeOrder e i t ->
  (vertex1 < 3)%nat ->
  edgeError m i vertex1
  = expectedEdgeError (sameQuery rangeOrder e i t vertex1)
                      (counterQuery rangeOrder e i t vertex1).
Proof.
  intros Hm Hlt. unfold edgeError. rewrite Hm.
  unfold ValidateSpec.findingsOf, expectedFindings.
  destruct vertex1 as [| [| [| ?]]]; try lia;
    generalize (expectedEdgeError (sameQuery rangeOrder e i t 0)
                                  (counterQuery rangeOrder e i t 0));
    generalize (expectedEdgeError (sameQuery rangeOrder e i t 1)
                                  (counterQuery rangeOrder e i t 1));
    generalize (expectedEdgeError (sameQuery rangeOrder e i t 2)
                                  (counterQuery rangeOrder e i t 2));
    intros [e2 |] [e1 |] [e0 |];
    destruct (hasEqualVertices t), (negb (checkNormal t HalfPi)); reflexivity.
Qed.

Lemma slen_indices (q : intSlice) : slen q = length (indices q).
Proof. destruct q; reflexivity. Qed.

Lemma indices_nil (q : intSlice) : (0 <? slen q)%nat = false -> indices q = [].
Proof.
  rewrite slen_indices. destruct (indices q); [reflexivity |].
  cbn. discriminate.
Qed.

Lemma edge_hasEdge (t : Triangle) (vertex1 : nat) (q : Edge) :
  (vertex1 < 3)%nat -> keyEq (edgeOf t vertex1) q = true -> hasEdge t q = true.
Proof.
  intros Hlt Hk. apply hasEdge_true. exists (edgeOf t vertex1).
  split; [| exact Hk].
  destruct vertex1 as [| [| [| ?]]]; auto; lia.
Qed.

Section Queries.
Variable rangeOrder : nat -> nat -> bool -> gset nat -> list nat.
Variable ts : list Triangle.
Variable e : edgeLookup.
Hypothesis Horder : validRangeOrder rangeOrder.
Hypothesis Hindex : insertTriangles 0 ts (Some newEdgeLookup) = Some e.

Lemma sameQuery_spec (i : nat) (t : Triangle) (vertex1 : nat) :
  Permutation (indices (sameQuery rangeOrder e i t vertex1))
              (others ts (edgeOf t vertex1) i).
Proof.
  exact (OtherTrianglesWithEdge_spec (rangeOrder i vertex1 false) ts e
           (fst (edgeOf t vertex1)) (snd (edgeOf t vertex1)) i
           (Horder i vertex1 false) Hindex).
Qed.

Lemma counterQuery_spec (i : nat) (t : Triangle) (vertex1 : nat) :
  Permutation (indices (counterQuery rangeOrder e i t vertex1))
              (others ts (reversed (edgeOf t vertex1)) i).
Proof.
  exact (OtherTrianglesWithEdge_spec (rangeOrder i vertex1 true) ts e
           (snd (edgeOf t vertex1)) (fst (edgeOf t vertex1)) i
           (Horder i vertex1 true) Hindex).
Qed.

Lemma sameEdgeList_spec (m : gmap nat TriangleErrors) (i : nat) (t : Triangle)
    (vertex1 : nat) :
  m !! i = findingsOf rangeOrder e i t ->
  (vertex1 < 3)%nat ->
  Permutation (sameEdgeList m i vertex1) (others ts (edgeOf t vertex1) i).
Proof.
  intros Hm Hlt. rewrite <- sameQuery_spec.
  unfold sameEdgeList. rewrite (edgeError_spec rangeOrder e m i t vertex1 Hm Hlt).
  unfold expectedEdgeError.
  destruct (0 <? slen (sameQuery rangeOrder e i t vertex1))%nat eqn:Hs;
    destruct (slen (counterQuery rangeOrder e i t vertex1) =? 1)%nat;
    cbn; rewrite ?(indices_nil _ Hs); reflexivity.
Qed.

Lemma counterEdgeRecorded_spec (m : gmap nat TriangleErrors) (i : nat)
    (t : Triangle) (vertex1 : nat) :
  m !! i = findingsOf rangeOrder e i t ->
  (vertex1 < 3)%nat ->
  counterEdgeRecorded m i vertex1 (others ts (reversed (edgeOf t vertex1)) i)
  <-> length (others ts (reversed (edgeOf t vertex1)) i) <> 1%nat.
Proof.
  intros Hm Hlt. unfold counterEdgeRecorded.
  rewrite (edgeError_spec rangeOrder e m i t vertex1 Hm Hlt).
  pose proof (counterQuery_spec i t vertex1) as Hperm.
  pose proof (Permutation_length Hperm) as Hlen.
  rewrite <- slen_indices in Hlen. rewrite <- Hlen.
  unfold expectedEdgeError.
  destruct (Nat.eqb_spec (slen (counterQuery rangeOrder e i t vertex1)) 1)
    as [H1 | H1]; cbn [negb].
  - split; [| congruence].
    intros (eer & Heer & Hp). apply Permutation_length in Hp.
    destruct (0 <? slen (sameQuery rangeOrder e i t vertex1))%nat;
      cbn in Heer; [| discriminate].
    injection Heer as <-. cbn in Hp. lia.
  - split; [intros _; exact H1 |]. intros _.
    rewrite orb_true_r. eexists. split; [reflexivity |]. cbn. exact Hperm.
Qed.

End Queries.

(** X1 (the part of C2 that the code keeps).  The edge findings of a call
    that returns: for edge [vertex1] of triangle
    [i], the same-edge list holds exactly the other triangles that contain
    the same directed edge, so that it is not empty exactly when there is
    one; two such triangles list each other; and a counter-edge list is
    recorded exactly when the number of other triangles that contain the
    reversed edge is not one. *)
Theorem Validate_edge_findings
    (rangeOrder : nat -> nat -> bool -> gset nat -> list nat)
    (s : Solid) (m : gmap nat TriangleErrors) :
  validRangeOrder rangeOrder ->
  Validate rangeOrder s = Some m ->
  forall (i : nat) (t : Triangle) (vertex1 : nat),
  elems (Triangles s) !! i = Some t ->
  (vertex1 < 3)%nat ->
  Permutation (sameEdgeList m i vertex1)
              (others (elems (Triangles s)) (edgeOf t vertex1) i)
  /\ (sameEdgeList m i vertex1 <> []
      <-> exists j tj, j <> i /\ elems (Triangles s) !! j = Some tj
                       /\ hasEdge tj (edgeOf t vertex1) = true)
  /\ (forall j tj vertex1',
        j <> i -> elems (Triangles s) !! j = Some tj -> (vertex1' < 3)%nat ->
        keyEq (edgeOf tj vertex1') (edgeOf t vertex1) = true ->
        In j (sameEdgeList m i vertex1) /\ In i (sameEdgeList m j vertex1'))
  /\ (counterEdgeRecorded m i vertex1
        (others (elems (Triangles s)) (reversed (edgeOf t vertex1)) i)
      <-> length (others (elems (Triangles s)) (reversed (edgeOf t vertex1)) i)
          <> 1%nat).
Proof.
  intros Hord Hval i t vertex1 Ht Hlt.
  destruct (Validate_entries rangeOrder s m Hval) as (e & He & Hent).
  assert (Hm : forall j tj, elems (Triangles s) !! j = Some tj ->
                            m !! j = findingsOf rangeOrder e j tj).
  { intros j tj Hj. rewrite (Hent j), Hj. reflexivity. }
  pose proof (sameEdgeList_spec rangeOrder _ e Hord He m i t vertex1
                (Hm i t Ht) Hlt) as Hsame.
  split; [exact Hsame |]. split; [| split].
  - split.
    + intros Hne. destruct (sameEdgeList m i vertex1) as [| j rest] eqn:E;
        [congruence |].
      assert (Hin : In j (others (elems (Triangles s)) (edgeOf t vertex1) i)).
      { eapply Permutation.Permutation_in; [exact Hsame | left; reflexivity]. }
      apply others_spec in Hin as (Hji & tj & Hj & Hh). eauto.
    + intros (j & tj & Hji & Hj & Hh) Hnil.
      assert (Hin : In j (others (elems (Triangles s)) (edgeOf t vertex1) i))
        by (apply others_spec; eauto).
      eapply Permutation.Permutation_in in Hin; [| symmetry; exact Hsame].
      rewrite Hnil in Hin. destruct Hin.
  - intros j tj vertex1' Hji Hj Hlt' Hk. split.
    + eapply Permutation.Permutation_in; [symmetry; exact Hsame |].
      apply others_spec. split; [exact Hji |]. exists tj. split; [exact Hj |].
      eapply edge_hasEdge; eassumption.
    + eapply Permutation.Permutation_in;
        [symmetry;
         exact (sameEdgeList_spec rangeOrder _ e Hord He m j tj vertex1'
                  (Hm j tj Hj) Hlt') |].
      apply others_spec. split; [congruence |]. exists t. split; [exact Ht |].
      eapply edge_hasEdge; [exact Hlt |]. rewrite keyEq_sym. exact Hk.
  - exact (counterEdgeRecorded_spec rangeOrder _ e Hord He m i t vertex1
             (Hm i t Ht) Hlt).
Qed.

(** The entry of a triangle is missing exactly when it is healthy. *)
Lemma findingsOf_None (rangeOrder : nat -> nat -> bool -> gset nat -> list nat)
    (ts : list Triangle) (e : edgeLookup) (i : nat) (t : Triangle) :
  validRangeOrder rangeOrder ->
  insertTriangles 0 ts (Some newEdgeLookup) = Some e ->
  findingsOf rangeOrder e i t = None
  <-> healthy hasEqualVertices checkNormal HalfPi ts i t.
Proof.
  intros Hord He.
  assert (Hedge : forall vertex1,
    expectedEdgeError (sameQuery rangeOrder e i t vertex1)
                      (counterQuery rangeOrder e i t vertex1) = None
    <-> others ts (edgeOf t vertex1) i = []
        /\ length (others ts (reversed (edgeOf t vertex1)) i) = 1%nat).
  { intros vertex1.
    pose proof (Permutation_length (sameQuery_spec rangeOrder ts e Hord He i t vertex1)) as Hs.
    pose proof (Permutation_length (counterQuery_spec rangeOrder ts e Hord He i t vertex1)) as Hc.
    rewrite <- slen_indices in Hs, Hc. unfold expectedEdgeError.
    rewrite <- Hc.
    assert (others ts (edgeOf t vertex1) i = []
            <-> slen (sameQuery rangeOrder e i t vertex1) = 0%nat) as ->.
    { rewrite Hs. destruct (others ts (edgeOf t vertex1) i); cbn; split;
        congruence. }
    destruct (Nat.ltb_spec 0 (slen (sameQuery rangeOrder e i t vertex1)));
      destruct (Nat.eqb_spec (slen (counterQuery rangeOrder e i t vertex1)) 1);
      cbn; split; try discriminate; try reflexivity; try lia;
      intros [? ?]; lia. }
  unfold ValidateSpec.findingsOf, expectedFindings, healthy.
  pose proof (Hedge 0%nat) as H0. pose proof (Hedge 1%nat) as H1.
  pose proof (Hedge 2%nat) as H2.
  split.
  - intros Hnone.
    destruct (hasEqualVertices t); [discriminate |].
    destruct (checkNormal t HalfPi); [| discriminate].
    cbn [negb orb] in Hnone.
    repeat match type of Hnone with
           | context [bool_decide ?P] => destruct (bool_decide_reflect P)
           end; try discriminate.
    split; [reflexivity |]. split; [reflexivity |].
    intros vertex1 Hlt. apply Hedge.
    destruct vertex1 as [| [| [| ?]]]; try lia;
      match goal with
      | H : ~ (?x <> None) |- ?x = None => destruct x; [exfalso; apply H; discriminate | reflexivity]
      end.
  - intros (Heq & Hn & Hall). rewrite Heq, Hn. cbn [negb orb].
    rewrite (proj2 H0 (Hall 0%nat ltac:(lia))),
            (proj2 H1 (Hall 1%nat ltac:(lia))),
            (proj2 H2 (Hall 2%nat ltac:(lia))).
    reflexivity.
Qed.

(** A healthy triangle has no NaN among its vertex coordinates: each of its
    edges is [==] to the reverse of an edge of another triangle. *)
Lemma healthy_nanFree (ts : list Triangle) (i : nat) (t : Triangle) :
  healthy hasEqualVertices checkNormal HalfPi ts i t -> nanFree t = true.
Proof.
  intros (_ & _ & Hall).
  assert (Hself : forall vertex1, (vertex1 < 3)%nat ->
            keyEq (edgeOf t vertex1) (edgeOf t vertex1) = true).
  { intros vertex1 Hlt. destruct (Hall vertex1 Hlt) as [_ Hone].
    destruct (others ts (reversed (edgeOf t vertex1)) i) as [| j rest] eqn:E;
      [discriminate |].
    assert (Hin : In j (others ts (reversed (edgeOf t vertex1)) i))
      by (rewrite E; left; reflexivity).
    apply others_spec in Hin as (_ & tj & _ & Hh).
    apply hasEdge_true in Hh as (k & _ & Hk).
    rewrite keyEq_sym in Hk. apply keyEq_refl_l in Hk.
    unfold keyEq, reversed in *. cbn [fst snd] in *.
    rewrite andb_comm. exact Hk. }
  rewrite edge_self, !Hself by lia. reflexivity.
Qed.

(** X2 (the part of C4 that the code keeps).  The findings of a call that
    returns are complete and omit exactly the healthy triangles, and a
    solid of healthy triangles only (a closed manifold mesh, such as a
    tetrahedron) has no findings at all. *)
Theorem Validate_reports_exactly_unhealthy
    (rangeOrder : nat -> nat -> bool -> gset nat -> list nat) (s : Solid) :
  validRangeOrder rangeOrder ->
  (forall m, Validate rangeOrder s = Some m ->
     forall i,
       m !! i = None
       <-> forall t, elems (Triangles s) !! i = Some t ->
             healthy hasEqualVertices checkNormal HalfPi
                     (elems (Triangles s)) i t)
  /\ ((forall i t, elems (Triangles s) !! i = Some t ->
         healthy hasEqualVertices checkNormal HalfPi (elems (Triangles s)) i t) ->
      Validate rangeOrder s = Some ∅).
Proof.
  intros Hord.
  assert (Hfirst : forall m, Validate rangeOrder s = Some m ->
     forall i,
       m !! i = None
       <-> forall t, elems (Triangles s) !! i = Some t ->
             healthy hasEqualVertices checkNormal HalfPi
                     (elems (Triangles s)) i t).
  { intros m Hval i.
    destruct (Validate_entries rangeOrder s m Hval) as (e & He & Hent).
    rewrite (Hent i). destruct (elems (Triangles s) !! i) as [t |].
    - rewrite (findingsOf_None rangeOrder _ e i t Hord He). split.
      + intros Hh t' [= <-]. exact Hh.
      + intros Hh. apply Hh. reflexivity.
    - split; [intros _ t' Ht'; discriminate | reflexivity]. }
  split; [exact Hfirst |].
  intros Hall.
  destruct (Validate rangeOrder s) as [m |] eqn:Hval.
  - f_equal. apply map_empty. intros i. apply (Hfirst m eq_refl i).
    intros t Ht. apply Hall. exact Ht.
  - exfalso. apply (proj2 (Validate_completes rangeOrder s)); [| exact Hval].
    apply forallb_forall. intros t Hin.
    apply list_elem_of_In, list_elem_of_lookup in Hin as [i Hi].
    apply (healthy_nanFree (elems (Triangles s)) i t). apply Hall. exact Hi.
Qed.

(** Two orders of iteration give the same slice up to its order. *)
Lemma query_equiv (o1 o2 : gset nat -> list nat) (l : edgeLookup)
    (v w : Vec3) (i : nat) :
  validOrder o1 -> validOrder o2 ->
  sliceEquiv (OtherTrianglesWithEdge o1 l v w i)
             (OtherTrianglesWithEdge o2 l v w i).
Proof.
  intros H1 H2. unfold OtherTrianglesWithEdge.
  destruct (mapLookup (v, w) (edgeToTriangles l)) as [X |]; cbn; [| exact I].
  assert (Hp : Permutation (o1 X) (o2 X)).
  { etransitivity; [apply H1 | symmetry; apply H2]. }
  induction Hp as [| x l1 l2 _ IH | x y l1 | l1 l2 l3 _ IH1 _ IH2]; cbn.
  - constructor.
  - destruct (negb (x =? i)%nat); [constructor |]; exact IH.
  - destruct (negb (x =? i)%nat), (negb (y =? i)%nat);
      try reflexivity; constructor.
  - etransitivity; eassumption.
Qed.

Lemma sliceEquiv_slen (a b : intSlice) : sliceEquiv a b -> slen a = slen b.
Proof.
  destruct a, b; cbn; try tauto. apply Permutation_length.
Qed.

Lemma expectedEdgeError_equiv (s1 s2 c1 c2 : intSlice) :
  sliceEquiv s1 s2 -> sliceEquiv c1 c2 ->
  edgeErrorEquiv (expectedEdgeError s1 c1) (expectedEdgeError s2 c2).
Proof.
  intros Hs Hc. unfold expectedEdgeError.
  rewrite <- (sliceEquiv_slen _ _ Hs), <- (sliceEquiv_slen _ _ Hc).
  destruct (0 <? slen s1)%nat, (slen c1 =? 1)%nat; cbn; auto.
Qed.

Lemma expectedFindings_equiv (equalVertices badNormal : bool)
    (a0 b0 a1 b1 a2 b2 : option EdgeError) :
  edgeErrorEquiv a0 b0 -> edgeErrorEquiv a1 b1 -> edgeErrorEquiv a2 b2 ->
  match expectedFindings equalVertices badNormal a0 a1 a2,
        expectedFindings equalVertices badNormal b0 b1 b2 with
  | None, None => True
  | Some x, Some y => triangleErrorsEquiv x y
  | _, _ => False
  end.
Proof.
  intros Q0 Q1 Q2. unfold expectedFindings.
  destruct equalVertices, badNormal,
    a0 as [x0 |], b0 as [y0 |], a1 as [x1 |], b1 as [y1 |],
    a2 as [x2 |], b2 as [y2 |]; cbn in Q0, Q1, Q2; try contradiction;
    cbn; try exact I;
    (split; [reflexivity | split; [reflexivity |]]);
    cbn [EdgeErrors];
    repeat (apply List.Forall2_cons; [first [assumption | exact I] |]);
    apply List.Forall2_nil.
Qed.

(** The findings of two calls differ at most in the order of the indices
    within the lists, and both calls panic when one does. *)
Lemma Validate_findings_equiv
    (order1 order2 : nat -> nat -> bool -> gset nat -> list nat) (s : Solid) :
  validRangeOrder order1 ->
  validRangeOrder order2 ->
  findingsEquiv (Validate order1 s) (Validate order2 s).
Proof.
  intros H1 H2.
  destruct (Validate order1 s) as [m1 |] eqn:E1,
           (Validate order2 s) as [m2 |] eqn:E2; cbn.
  - destruct (Validate_entries order1 s m1 E1) as (e1 & He1 & Hent1).
    destruct (Validate_entries order2 s m2 E2) as (e2 & He2 & Hent2).
    assert (e2 = e1) as -> by congruence.
    intros i. rewrite (Hent1 i), (Hent2 i).
    destruct (elems (Triangles s) !! i) as [t |]; [| exact I].
    unfold ValidateSpec.findingsOf.
    apply expectedFindings_equiv;
      apply expectedEdgeError_equiv; apply query_equiv; auto.
  - exfalso.
    assert (Hc : forallb nanFree (elems (Triangles s)) = true)
      by (apply (Validate_completes order1 s); congruence).
    apply (Validate_completes order2 s) in Hc. congruence.
  - exfalso.
    assert (Hc : forallb nanFree (elems (Triangles s)) = true)
      by (apply (Validate_completes order2 s); congruence).
    apply (Validate_completes order1 s) in Hc. congruence.
  - exact I.
Qed.

End Findings.

(** *** The receiver of [Validate] *)

Section Receiver.
Variable hasEqualVertices : Triangle -> Triangle * bool.
Variable checkNormal : Triangle -> float -> Triangle * bool.
Variable HalfPi : float.

Local Abbreviation ValidateCall :=
  (ValidateCall hasEqualVertices checkNormal HalfPi).
Local Abbreviation afterChecks := (afterChecks hasEqualVertices checkNormal HalfPi).

(** The values the two methods return. *)
Local Abbreviation equalVertices := (fun t => snd (hasEqualVertices t)).
Local Abbreviation normalMatches := (fun t tol => snd (checkNormal t tol)).

Lemma setTriangles_same (s : Solid) :
  setTriangles s (mkSlice (elems (Triangles s)) (capacity (Triangles s))) = s.
Proof. destruct s as [h n [el c] a]. reflexivity. Qed.

(** The first loop reads the triangles in turn. *)
Lemma insertTriangleAt_loop (s : Solid) (rest : list Triangle) :
  forall pre e,
  elems (Triangles s) = (pre ++ rest)%list ->
  fold_left (insertTriangleAt s) (seq (length pre) (length rest)) e
  = insertTriangles (length pre) rest e.
Proof.
  induction rest as [| t rest IH]; intros pre e Hs; [reflexivity |].
  cbn [length seq fold_left insertTriangles]. unfold insertTriangleAt at 2.
  rewrite Hs, list_lookup_middle by reflexivity.
  specialize (IH (pre ++ [t])%list).
  rewrite length_app, Nat.add_1_r in IH. apply IH.
  rewrite <- app_assoc. exact Hs.
Qed.

(** The second loop leaves of the solid what the two methods leave of each
    triangle, and nothing else is changed. *)
Lemma checkTriangleAt_solid
    (rangeOrder : nat -> nat -> bool -> gset nat -> list nat) (e : edgeLookup)
    (rest : list Triangle) :
  forall pre s m,
  elems (Triangles s) = (pre ++ rest)%list ->
  fst (fold_left (checkTriangleAt hasEqualVertices checkNormal HalfPi rangeOrder e)
                 (seq (length pre) (length rest)) (s, m))
  = setTriangles s (mkSlice (pre ++ map afterChecks rest)%list
                            (capacity (Triangles s))).
Proof.
  induction rest as [| t rest IH]; intros pre s m Hs.
  - cbn [length seq fold_left map fst]. rewrite <- Hs. symmetry.
    apply setTriangles_same.
  - cbn [length seq fold_left]. unfold checkTriangleAt at 2.
    rewrite Hs, list_lookup_middle by reflexivity.
    unfold ValidateGo.afterChecks. cbn [map].
    destruct (hasEqualVertices t) as [t1 equal]. cbn [fst].
    destruct (checkNormal t1 (normalAngleTolerance HalfPi)) as [t2 matches].
    cbn [fst].
    specialize (IH (pre ++ [t2])%list).
    rewrite length_app, Nat.add_1_r in IH. rewrite IH.
    + unfold storeTriangle, setTriangles. cbn. rewrite <- app_assoc. reflexivity.
    + unfold storeTriangle, setTriangles. cbn [Triangles elems].
      rewrite Hs, <- app_assoc. cbn [app].
      rewrite insert_app_r_alt by lia.
      rewrite Nat.sub_diag. reflexivity.
Qed.

Section Pure.
Hypothesis hasEqualVertices_reads : forall t, fst (hasEqualVertices t) = t.
Hypothesis checkNormal_reads : forall t tol, fst (checkNormal t tol) = t.

(** When the two methods write nothing, the second loop is the one of
    [Validate] over the values they return, and leaves the solid alone. *)
Lemma checkTriangleAt_loop
    (rangeOrder : nat -> nat -> bool -> gset nat -> list nat) (e : edgeLookup)
    (s : Solid) (rest : list Triangle) :
  forall pre m,
  elems (Triangles s) = (pre ++ rest)%list ->
  fold_left (checkTriangleAt hasEqualVertices checkNormal HalfPi rangeOrder e)
            (seq (length pre) (length rest)) (s, m)
  = (s, checkTriangles equalVertices normalMatches HalfPi rangeOrder e
                       (length pre) rest m).
Proof.
  induction rest as [| t rest IH]; intros pre m Hs; [reflexivity |].
  cbn [length seq fold_left checkTriangles]. unfold checkTriangleAt at 2.
  rewrite Hs, list_lookup_middle by reflexivity.
  pose proof (hasEqualVertices_reads t) as H1.
  destruct (hasEqualVertices t) as [t1 equal] eqn:E1. cbn [fst] in H1. subst t1.
  pose proof (checkNormal_reads t (normalAngleTolerance HalfPi)) as H2.
  destruct (checkNormal t (normalAngleTolerance HalfPi)) as [t2 matches] eqn:E2.
  cbn [fst] in H2. subst t2.
  assert (Hstore : storeTriangle (length pre) t s = s).
  { unfold storeTriangle. rewrite list_insert_id.
    - apply setTriangles_same.
    - rewrite Hs. apply list_lookup_middle. reflexivity. }
  rewrite Hstore.
  specialize (IH (pre ++ [t])%list).
  rewrite length_app, Nat.add_1_r in IH. rewrite IH.
  - unfold checkTriangle. cbn [snd]. rewrite E1, E2. reflexivity.
  - rewrite <- app_assoc. exact Hs.
Qed.

Lemma ValidateCall_reads
    (rangeOrder : nat -> nat -> bool -> gset nat -> list nat) (s : Solid) :
  ValidateCall rangeOrder s
  = option_map (fun m => (s, m))
      (Validate equalVertices normalMatches HalfPi rangeOrder s).
Proof.
  unfold ValidateGo.ValidateCall, Validate.
  rewrite (insertTriangleAt_loop s (elems (Triangles s)) [] _ eq_refl).
  cbn [length].
  destruct (insertTriangles 0 (elems (Triangles s)) (Some newEdgeLookup))
    as [e |]; [| reflexivity].
  cbn [option_map].
  rewrite (checkTriangleAt_loop rangeOrder e s (elems (Triangles s)) [] _ eq_refl).
  reflexivity.
Qed.

End Pure.

(** C9, as amended.  A call of [Validate] writes to the solid only what
    [hasEqualVertices] and [checkNormal] write to the triangle they are
    called on: the name, the header, the flag and the capacity are as they
    were, and so is every triangle up to what the two methods did to it.
    When the two methods write nothing, the call leaves the solid unchanged,
    and a second call on it, whatever the order in which each of the two
    iterates over the index sets, returns findings that are identical to
    those of the first up to the order of the indices within each same-edge
    and counter-edge list (and panics when the first did). *)
Theorem Validate_idempotent_up_to_order
    (order1 order2 : nat -> nat -> bool -> gset nat -> list nat) (s : Solid) :
  validRangeOrder order1 ->
  validRangeOrder order2 ->
  (forall s1 m1,
     ValidateCall order1 s = Some (s1, m1) ->
     s1 = setTriangles s (mkSlice (map afterChecks (elems (Triangles s)))
                                  (capacity (Triangles s))))
  /\ ((forall t, fst (hasEqualVertices t) = t) ->
      (forall t tol, fst (checkNormal t tol) = t) ->
      match ValidateCall order1 s with
      | Some (s1, m1) =>
          s1 = s
          /\ exists m2,
               ValidateCall order2 s1 = Some (s, m2)
               /\ findingsEquiv (Some m1) (Some m2)
      | None => ValidateCall order2 s = None
      end).
Proof.
  intros H1 H2. split.
  - intros s1 m1. unfold ValidateGo.ValidateCall.
    destruct (fold_left (insertTriangleAt s) _ _) as [e |]; [| discriminate].
    intros [= Hr].
    pose proof (checkTriangleAt_solid order1 e (elems (Triangles s)) [] s ∅
                  eq_refl) as Hf.
    cbn [length app] in Hf. rewrite Hr in Hf. exact Hf.
  - intros Hh Hc.
    rewrite (ValidateCall_reads Hh Hc order1 s).
    pose proof (Validate_findings_equiv equalVertices normalMatches HalfPi
                  order1 order2 s H1 H2) as Heq.
    destruct (Validate equalVertices normalMatches HalfPi order1 s) as [m1 |];
      cbn [option_map].
    + split; [reflexivity |].
      rewrite (ValidateCall_reads Hh Hc order2 s).
      destruct (Validate equalVertices normalMatches HalfPi order2 s) as [m2 |];
        [| contradiction].
      exists m2. split; [reflexivity | exact Heq].
    + rewrite (ValidateCall_reads Hh Hc order2 s).
      destruct (Validate equalVertices normalMatches HalfPi order2 s) as [m2 |];
        [contradiction | reflexivity].
Qed.

End Receiver.

End ValidateFacts.

(** ** solid.go: Validate on concrete solids *)

Module ValidateExamples.
Import ValidateGo ValidateSpec ValidateFacts.

Lemma ascending_valid : validRangeOrder ascending.
Proof. intros i e b X. unfold ascending. reflexivity. Qed.

Lemma descending_valid : validRangeOrder descending.
Proof. intros i e b X. unfold descending. symmetry. apply Permutation_rev. Qed.

(** C4, at a failing input.  On a solid whose one triangle has a NaN vertex
    coordinate, [Validate] panics in [InsertEdge] (the index set stored under
    the key is not found again, and the write goes to a nil map), whatever
    [hasEqualVertices], [checkNormal] and the order of iteration are: it
    does not return a findings map. *)
Theorem Validate_panics_on_nan
    (hasEqualVertices : Triangle -> bool) (checkNormal : Triangle -> float -> bool)
    (HalfPi : float) (rangeOrder : nat -> nat -> bool -> gset nat -> list nat) :
  Validate hasEqualVertices checkNormal HalfPi rangeOrder nanSolid = None.
Proof.
  unfold Validate.
  replace (insertTriangles 0 (elems (Triangles nanSolid)) (Some newEdgeLookup))
    with (@None edgeLookup) by (vm_compute; reflexivity).
  reflexivity.
Qed.

(** C2, at a failing input.  In [sharedEdgeNanSolid] triangle 1 contains the
    directed edge 0 of triangle 0, so that a non-empty same-edge list is due
    for that edge; but the third triangle has a NaN vertex coordinate and
    [Validate] panics before it records anything. *)
Theorem Validate_records_nothing_beside_nan
    (hasEqualVertices : Triangle -> bool) (checkNormal : Triangle -> float -> bool)
    (HalfPi : float) (rangeOrder : nat -> nat -> bool -> gset nat -> list nat) :
  others (elems (Triangles sharedEdgeNanSolid))
         (edgeOf (mkTriangle (mkVec3 0 0 1) pA pB pC) 0) 0 = [1%nat]
  /\ Validate hasEqualVertices checkNormal HalfPi rangeOrder sharedEdgeNanSolid
     = None.
Proof.
  split; [vm_compute; reflexivity |].
  unfold Validate.
  replace (insertTriangles 0 (elems (Triangles sharedEdgeNanSolid))
                           (Some newEdgeLookup))
    with (@None edgeLookup) by (vm_compute; reflexivity).
  reflexivity.
Qed.

(** The edge findings on the three copies of one triangle. *)
Lemma Validate_edge_findings_witness :
  let m := default ∅ (Validate hasEqualVertices checkNormal HalfPi ascending
                               tripleSolid) in
  let t := mkTriangle (mkVec3 0 0 1) pA pB pC in
  Permutation (sameEdgeList m 0 0) (others (elems (Triangles tripleSolid)) (edgeOf t 0) 0)
  /\ (sameEdgeList m 0 0 <> []
      <-> exists j tj, j <> 0%nat /\ elems (Triangles tripleSolid) !! j = Some tj
                       /\ hasEdge tj (edgeOf t 0) = true)
  /\ (forall j tj vertex1',
        j <> 0%nat -> elems (Triangles tripleSolid) !! j = Some tj ->
        (vertex1' < 3)%nat ->
        keyEq (edgeOf tj vertex1') (edgeOf t 0) = true ->
        In j (sameEdgeList m 0 0) /\ In 0%nat (sameEdgeList m j vertex1'))
  /\ (counterEdgeRecorded m 0 0
        (others (elems (Triangles tripleSolid)) (reversed (edgeOf t 0)) 0)
      <-> length (others (elems (Triangles tripleSolid)) (reversed (edgeOf t 0)) 0)
          <> 1%nat).
Proof.
  intros m t.
  apply (Validate_edge_findings hasEqualVertices checkNormal HalfPi ascending
           tripleSolid m ascending_valid).
  - vm_compute. reflexivity.
  - reflexivity.
  - lia.
Defined.

Lemma tetrahedron_healthy (i : nat) (t : Triangle) :
  elems (Triangles tetrahedron) !! i = Some t ->
  healthy hasEqualVertices checkNormal HalfPi (elems (Triangles tetrahedron)) i t.
Proof.
  intros Ht.
  destruct i as [| [| [| [| i]]]]; cbn in Ht; try discriminate;
    injection Ht as <-;
    (split; [vm_compute; reflexivity |]);
    (split; [vm_compute; reflexivity |]);
    intros [| [| [| e]]] He; try lia;
    split; vm_compute; reflexivity.
Qed.

(** The tetrahedron has no findings. *)
Lemma Validate_reports_exactly_unhealthy_witness :
  Validate hasEqualVertices checkNormal HalfPi ascending tetrahedron = Some ∅.
Proof.
  apply (Validate_reports_exactly_unhealthy hasEqualVertices checkNormal HalfPi
           ascending tetrahedron ascending_valid).
  exact tetrahedron_healthy.
Defined.

(** Two calls on the three copies of one triangle, iterating in opposite
    orders, with methods that write nothing. *)
Lemma Validate_idempotent_up_to_order_witness :
  let hasEqualVertices' := fun t => (t, hasEqualVertices t) in
  let checkNormal' := fun t tol => (t, checkNormal t tol) in
  (forall s1 m1,
     ValidateCall hasEqualVertices' checkNormal' HalfPi ascending tripleSolid
     = Some (s1, m1) ->
     s1 = setTriangles tripleSolid
            (mkSlice (map (afterChecks hasEqualVertices' checkNormal' HalfPi)
                          (elems (Triangles tripleSolid)))
                     (capacity (Triangles tripleSolid))))
  /\ match ValidateCall hasEqualVertices' checkNormal' HalfPi ascending
                        tripleSolid with
     | Some (s1, m1) =>
         s1 = tripleSolid
         /\ exists m2,
              ValidateCall hasEqualVertices' checkNormal' HalfPi descending s1
              = Some (tripleSolid, m2)
              /\ findingsEquiv (Some m1) (Some m2)
     | None =>
         ValidateCall hasEqualVertices' checkNormal' HalfPi descending
                      tripleSolid = None
     end.
Proof.
  intros hasEqualVertices' checkNormal'.
  destruct (Validate_idempotent_up_to_order hasEqualVertices' checkNormal' HalfPi
              ascending descending tripleSolid ascending_valid descending_valid)
    as [Hframe Hreads].
  split; [exact Hframe |].
  apply Hreads; reflexivity.
Defined.

(** C9, as stated, fails: on three copies of one triangle every edge of
    triangle 0 is shared with triangles 1 and 2, and two calls that iterate
    over the index set in different orders (both deliver each member once)
    return same-edge lists in different orders, hence maps that are not
    identical. *)
Lemma Validate_findings_differ_by_order :
  validRangeOrder ascending
  /\ validRangeOrder descending
  /\ Validate hasEqualVertices checkNormal HalfPi ascending tripleSolid
     <> Validate hasEqualVertices checkNormal HalfPi descending tripleSolid.
Proof.
  split; [exact ascending_valid |]. split; [exact descending_valid |].
  intros Heq.
  apply (f_equal (fun r => sameEdgeList (default ∅ r) 0 0)) in Heq.
  vm_compute in Heq. discriminate.
Qed.

End ValidateExamples.

(** ** readascii.go: the scanner *)

Module ScannerFacts.
Import ParserGo ParserSpec.
Local Open Scope string_scope.

(** *** Diagnostics recorded earlier and the header flag play no part:
    every step of the parser commutes with [framed]. *)

Section Framed.
Variable h : bool.
Variable pre : list string.

Lemma framed_addError (msg : string) (p : parser) :
  addError msg (framed h pre p) = framed h pre (addError msg p).
Proof.
  unfold addError, setErrors, framed. cbn. rewrite app_assoc. reflexivity.
Qed.

Lemma framed_nextWordWith (k : parser -> parser * bool) (p : parser) :
  (forall q, k (framed h pre q) = onFst (framed h pre) (k q)) ->
  nextWordWith k (framed h pre p) = onFst (framed h pre) (nextWordWith k p).
Proof.
  intros Hk. unfold nextWordWith. cbn [eof wordScanner framed].
  destruct (eof p); [reflexivity |].
  destruct (wordsLeft (wordScanner p)) as [| w rest]; [| reflexivity].
  destruct (wordsErr (wordScanner p)) as [err |].
  - change (framed h pre p) with (framed h pre p).
    rewrite framed_addError. reflexivity.
  - apply Hk.
Qed.

Lemma framed_nextLineFrom (ls : list Line) (p : parser) :
  nextLineFrom ls (framed h pre p) = onFst (framed h pre) (nextLineFrom ls p).
Proof.
  revert p. induction ls as [| l rest IH]; intros p; cbn [nextLineFrom].
  - cbn [lineScanner framed]. destruct (linesErr (lineScanner p)).
    + rewrite framed_addError. reflexivity.
    + reflexivity.
  - change (scanLine l rest (framed h pre p))
      with (framed h pre (scanLine l rest p)).
    apply framed_nextWordWith. exact IH.
Qed.

Lemma framed_nextLine (p : parser) :
  nextLine (framed h pre p) = onFst (framed h pre) (nextLine p).
Proof. unfold nextLine. apply framed_nextLineFrom. Qed.

Lemma framed_nextWord (p : parser) :
  nextWord (framed h pre p) = onFst (framed h pre) (nextWord p).
Proof. unfold nextWord. apply framed_nextWordWith, framed_nextLine. Qed.

Lemma framed_consumeToken (ident : Z) (p : parser) :
  consumeToken ident (framed h pre p)
  = onFst (framed h pre) (consumeToken ident p).
Proof.
  unfold consumeToken. cbn [currentWord framed].
  destruct (matchIdent ident (currentWord p)); cbn [negb].
  - rewrite framed_nextWord. reflexivity.
  - rewrite framed_addError. reflexivity.
Qed.

Lemma framed_skipToTokenLoop (bound : nat) (ident : Z) (p : parser) :
  skipToTokenLoop bound ident (framed h pre p)
  = option_map (onFst (framed h pre)) (skipToTokenLoop bound ident p).
Proof.
  revert p. induction bound as [| bound IH]; intros p;
    cbn [skipToTokenLoop currentWord framed];
    destruct (matchIdent ident (currentWord p));
    try (destruct (ident =? Z.lor idFacet idEndsolid)%Z;
         [destruct (matchIdent idFacet (currentWord p)) |]; reflexivity);
    rewrite framed_nextWord; destruct (nextWord p) as [p1 more];
    cbn [onFst fst snd]; destruct more; cbn [negb]; try reflexivity.
  apply IH.
Qed.

Lemma framed_skipToToken (ident : Z) (p : parser) :
  skipToToken ident (framed h pre p) = onFst (framed h pre) (skipToToken ident p).
Proof.
  unfold skipToToken.
  change (pending (framed h pre p)) with (pending p).
  rewrite framed_skipToTokenLoop.
  destruct (skipToTokenLoop (length (pending p)) ident p); reflexivity.
Qed.

End Framed.

(** *** What a step of the scanners leaves *)

Lemma nextLineFrom_scanned (ls : list Line) (p : parser) :
  eof p = false ->
  scanned p (fst (nextLineFrom ls p)) (wordsOfLines ls) (snd (nextLineFrom ls p)).
Proof.
  revert p. induction ls as [| l rest IH]; intros p Hp; cbn [nextLineFrom].
  - destruct (linesErr (lineScanner p)); cbn; unfold scanned, tokens, wellFormed;
      cbn; repeat split; auto; discriminate.
  - unfold nextWordWith. cbn [eof scanLine wordScanner wordsLeft wordsErr].
    rewrite Hp. cbn [wordsOfLines].
    destruct (lineWords l) as [| w ws] eqn:Hw.
    + destruct (lineWordsErr l) as [err |] eqn:He.
      * cbn. unfold scanned, tokens, wellFormed; cbn.
        repeat split; auto; discriminate.
      * cbn [app].
        destruct (IH (scanLine l rest p) Hp) as (H1 & H2 & H3 & H4 & H5).
        repeat split; auto.
    + cbn [fst snd]. unfold scanned, tokens, wellFormed, pending.
      cbn. rewrite Hp. repeat split; auto. discriminate.
Qed.

Lemma nextWord_scanned (p : parser) :
  eof p = false ->
  scanned p (fst (nextWord p)) (pending p) (snd (nextWord p)).
Proof.
  intros Hp. unfold nextWord, nextWordWith, pending. rewrite Hp.
  destruct (wordsLeft (wordScanner p)) as [| w ws] eqn:Hw.
  - destruct (wordsErr (wordScanner p)) as [err |] eqn:He.
    + cbn. unfold scanned, tokens, wellFormed; cbn.
      repeat split; auto; discriminate.
    + cbn [app]. apply nextLineFrom_scanned. exact Hp.
  - cbn [fst snd]. unfold scanned, tokens, wellFormed, pending.
    cbn. rewrite Hp, He || rewrite Hp. repeat split; auto. discriminate.
Qed.

Lemma nextWord_eof (p : parser) : eof p = true -> nextWord p = (p, false).
Proof. intros Hp. unfold nextWord, nextWordWith. rewrite Hp. reflexivity. Qed.

Lemma tokens_eof (p : parser) : eof p = true <-> tokens p = [].
Proof.
  unfold tokens. destruct (eof p); split; try reflexivity; discriminate.
Qed.

Lemma tokens_cons (p : parser) (w : string) (ws : list string) :
  tokens p = w :: ws -> eof p = false /\ currentWord p = w /\ pending p = ws.
Proof.
  unfold tokens. destruct (eof p); [discriminate |].
  intros [= -> ->]. auto.
Qed.

(** Reading on in a stream without scanner errors records nothing. *)
Lemma nextLineFrom_clean (ls : list Line) (p : parser) :
  eof p = false -> clean p -> linesLeft (lineScanner p) = ls ->
  clean (fst (nextLineFrom ls p))
  /\ errors (fst (nextLineFrom ls p)) = errors p.
Proof.
  revert p. induction ls as [| l rest IH]; intros p Hp (Hw & Hl & He) Hls;
    cbn [nextLineFrom].
  - rewrite He. cbn. unfold clean. cbn. rewrite Hls. cbn. auto.
  - rewrite Hls in Hl. destruct Hl as [Hle Hrest].
    unfold nextWordWith. cbn [eof scanLine wordScanner wordsLeft wordsErr].
    rewrite Hp, Hle.
    destruct (lineWords l) as [| w ws] eqn:Hlw.
    + destruct (IH (scanLine l rest p)) as [H1 H2]; auto.
      unfold clean. cbn. auto.
    + cbn. unfold clean. cbn. auto.
Qed.

Lemma nextLine_clean (p : parser) :
  eof p = false -> clean p ->
  clean (fst (nextLine p)) /\ errors (fst (nextLine p)) = errors p.
Proof. intros Hp Hc. apply nextLineFrom_clean; auto. Qed.

Lemma nextWord_clean (p : parser) :
  eof p = false -> clean p ->
  clean (fst (nextWord p)) /\ errors (fst (nextWord p)) = errors p.
Proof.
  intros Hp Hc. unfold nextWord, nextWordWith. rewrite Hp.
  destruct (wordsLeft (wordScanner p)) as [| w ws] eqn:Hw.
  - destruct Hc as (Hwe & Hl & He). rewrite Hwe.
    apply nextLine_clean; [exact Hp | repeat split; assumption].
  - destruct Hc as (Hwe & Hl & He). cbn. unfold clean. cbn. auto.
Qed.

(** A successful [nextWord] takes one of the pending words. *)
Lemma nextWord_pending (p p' : parser) :
  nextWord p = (p', true) -> S (length (pending p')) = length (pending p).
Proof.
  intros H. destruct (eof p) eqn:Hp.
  - rewrite nextWord_eof in H by exact Hp. discriminate.
  - pose proof (nextWord_scanned p Hp) as (Ht & Hm & _).
    rewrite H in Ht, Hm. cbn [fst snd] in Ht, Hm.
    rewrite <- Ht. unfold tokens.
    destruct (eof p'); [discriminate | reflexivity].
Qed.

(** *** skipToToken *)

Lemma matchIdent_sync (w : string) :
  matchIdent (Z.lor idFacet idEndsolid) w = isSync w.
Proof.
  unfold matchIdent, isSync.
  replace (identRegexps (Z.lor idFacet idEndsolid))
    with (Some ["facet"; "endsolid"]) by reflexivity.
  unfold MatchString. cbn [existsb]. rewrite orb_false_r. reflexivity.
Qed.

Lemma matchIdent_facet (w : string) : matchIdent idFacet w = String.eqb w "facet".
Proof.
  unfold matchIdent.
  replace (identRegexps idFacet) with (Some ["facet"]) by reflexivity.
  unfold MatchString. cbn [existsb]. apply orb_false_r.
Qed.

Lemma matchIdent_endsolid (w : string) :
  matchIdent idEndsolid w = String.eqb w "endsolid".
Proof.
  unfold matchIdent.
  replace (identRegexps idEndsolid) with (Some ["endsolid"]) by reflexivity.
  unfold MatchString. cbn [existsb]. apply orb_false_r.
Qed.

(** The bound given to the loop is never used up. *)
Lemma skipToTokenLoop_bound (ident : Z) (bound : nat) :
  forall p, (length (pending p) <= bound)%nat ->
            skipToTokenLoop bound ident p <> None.
Proof.
  induction bound as [| bound IH]; intros p Hle; cbn [skipToTokenLoop];
    destruct (matchIdent ident (currentWord p));
    try (destruct (ident =? Z.lor idFacet idEndsolid)%Z;
         [destruct (matchIdent idFacet (currentWord p)) |]; discriminate);
    destruct (nextWord p) as [p1 more] eqn:Hn; destruct more; cbn [negb];
    try discriminate; apply nextWord_pending in Hn.
  - lia.
  - apply IH. lia.
Qed.

Lemma skipToToken_bound (ident : Z) (p : parser) :
  skipToTokenLoop (length (pending p)) ident p <> None.
Proof. apply skipToTokenLoop_bound. lia. Qed.

(** Skipping to [facet] or [endsolid] stops before the first such word, or
    at the end of the stream. *)
Lemma skipToTokenLoop_sync (bound : nat) :
  forall p r,
  wellFormed p ->
  skipToTokenLoop bound (Z.lor idFacet idEndsolid) p = Some r ->
  tokens (fst r) = skipUntilSync (tokens p)
  /\ snd r = syncCode (tokens (fst r))
  /\ wellFormed (fst r)
  /\ TrianglesSkipped (fst r) = TrianglesSkipped p.
Proof.
  induction bound as [| bound IH]; intros p r Hwf; cbn [skipToTokenLoop];
    rewrite matchIdent_sync, matchIdent_facet; change (_ =? _)%Z with true.
  all: destruct (eof p) eqn:Hp.
  all: try (rewrite (Hwf Hp); cbn [isSync String.eqb orb];
            rewrite nextWord_eof by exact Hp; cbn [negb];
            intros [= <-]; cbn [fst snd]; unfold tokens; rewrite Hp;
            repeat split; auto).
  all: unfold tokens at 2; rewrite Hp; cbn [skipUntilSync].
  all: destruct (isSync (currentWord p)) eqn:Hs.
  all: try (destruct (String.eqb (currentWord p) "facet") eqn:Hf;
            intros [= <-]; cbn [fst snd]; unfold tokens; rewrite Hp;
            cbn [syncCode]; rewrite Hf; repeat split; auto).
  all: pose proof (nextWord_scanned p Hp) as (Ht & Hm & Hw & Hts & _);
    destruct (nextWord p) as [p1 more]; cbn [fst snd] in *;
    destruct more; cbn [negb].
  - discriminate.
  - intros [= <-]. cbn [fst snd].
    assert (Hp1 : eof p1 = true) by (destruct (eof p1); [reflexivity | discriminate]).
    apply tokens_eof in Hp1 as Hnil. rewrite <- Ht, Hnil. cbn.
    repeat split; auto.
  - intros Hr. destruct (IH p1 r Hw Hr) as (H1 & H2 & H3 & H4).
    rewrite <- Ht. repeat split; auto. congruence.
  - intros [= <-]. cbn [fst snd].
    assert (Hp1 : eof p1 = true) by (destruct (eof p1); [reflexivity | discriminate]).
    apply tokens_eof in Hp1 as Hnil. rewrite <- Ht, Hnil. cbn.
    repeat split; auto.
Qed.

Lemma skipToToken_sync (p : parser) :
  wellFormed p ->
  let r := skipToToken (Z.lor idFacet idEndsolid) p in
  tokens (fst r) = skipUntilSync (tokens p)
  /\ snd r = syncCode (tokens (fst r))
  /\ wellFormed (fst r)
  /\ TrianglesSkipped (fst r) = TrianglesSkipped p.
Proof.
  intros Hwf r. subst r. unfold skipToToken.
  destruct (skipToTokenLoop (length (pending p)) (Z.lor idFacet idEndsolid) p)
    as [r |] eqn:E.
  - exact (skipToTokenLoop_sync _ p r Hwf E).
  - exfalso. exact (skipToToken_bound _ p E).
Qed.

End ScannerFacts.

(** ** readascii.go: one triangle *)

Module FacetFacts.
Import ParserGo ParserSpec ScannerFacts.
Local Open Scope string_scope.

Section Facet.
Variable ParseFloat : string -> Z -> float * option string.

Local Abbreviation parseFloat64 := (parseFloat64 ParseFloat).
Local Abbreviation parsePoint := (parsePoint ParseFloat).
Local Abbreviation parseFacet := (parseFacet ParseFloat).
Local Abbreviation execStep := (execStep ParseFloat).
Local Abbreviation runSteps := (runSteps ParseFloat).
Local Abbreviation accepts := (accepts ParseFloat).
Local Abbreviation written := (written ParseFloat).

(** *** [parseFacet] is its sub-steps run in order *)

Lemma runSteps_app (s1 s2 : list subStep) (st : facetState) :
  runSteps (s1 ++ s2) st
  = andThen (runSteps s1) (runSteps s2) st.
Proof.
  revert st. induction s1 as [| s rest IH]; intros st; cbn [runSteps app].
  - unfold andThen. cbn. reflexivity.
  - unfold andThen in *. cbn [runSteps].
    destruct (execStep s st) as [st1 ok]. destruct ok; [apply IH | reflexivity].
Qed.

Lemma runSteps_one (s : subStep) (st : facetState) :
  runSteps [s] st = execStep s st.
Proof.
  cbn [runSteps]. destruct (execStep s st) as [st1 ok]. destruct ok; reflexivity.
Qed.

Lemma andThen_ext (a a' b b' : facetState -> facetState * bool) (st : facetState) :
  (forall x, a x = a' x) -> (forall x, b x = b' x) ->
  andThen a b st = andThen a' b' st.
Proof.
  intros Ha Hb. unfold andThen. rewrite Ha.
  destruct (a' st) as [st1 ok]. destruct ok; [apply Hb | reflexivity].
Qed.

Lemma andThen_assoc (a b c : facetState -> facetState * bool) (st : facetState) :
  andThen (andThen a b) c st = andThen a (andThen b c) st.
Proof.
  unfold andThen. destruct (a st) as [st1 ok]. destruct ok; [| reflexivity].
  destruct (b st1) as [st2 ok2]. destruct ok2; reflexivity.
Qed.

Lemma parsePoint_steps (pt : ptr Vec3) (st : facetState) :
  parsePoint pt st = runSteps (pointSteps pt) st.
Proof.
  unfold ParserGo.parsePoint, pointSteps.
  change [Float (coordPtr pt 0); Float (coordPtr pt 1); Float (coordPtr pt 2)]
    with ([Float (coordPtr pt 0)] ++ [Float (coordPtr pt 1)]
          ++ [Float (coordPtr pt 2)])%list.
  rewrite runSteps_app. apply andThen_ext; intros x.
  - symmetry. apply runSteps_one.
  - rewrite runSteps_app. apply andThen_ext; intros y; symmetry;
      apply runSteps_one.
Qed.

Lemma parseFacet_steps (st : facetState) :
  parseFacet st = runSteps facetSteps st.
Proof.
  unfold ParserGo.parseFacet, facetSteps.
  change [Keyword idFacet; Keyword idNormal]
    with ([Keyword idFacet] ++ [Keyword idNormal])%list.
  change [Keyword idOuter; Keyword idLoop]
    with ([Keyword idOuter] ++ [Keyword idLoop])%list.
  change [Keyword idEndloop; Keyword idEndfacet]
    with ([Keyword idEndloop] ++ [Keyword idEndfacet])%list.
  rewrite <- !app_assoc.
  repeat (rewrite runSteps_app;
          apply andThen_ext;
          [intros x; first [symmetry; apply runSteps_one
                           | apply parsePoint_steps] |];
          clear st; intros st).
  symmetry. apply runSteps_one.
Qed.

(** *** A sub-step that fails, a sub-step that succeeds *)

Lemma setErrors_same (p : parser) : setErrors (errors p ++ [])%list p = p.
Proof. destruct p. unfold setErrors. cbn. rewrite app_nil_r. reflexivity. Qed.

(** A failing sub-step leaves the parser where it is and records its
    expectation, if any. *)
Lemma execStep_fails (s : subStep) (q : parser) (t : Triangle) (st' : facetState) :
  execStep s (q, t) = (st', false) ->
  st' = (setErrors (errors q ++ expectation s q)%list q, t).
Proof.
  destruct s as [ident | dst]; cbn [ParserSpec.execStep expectation].
  - unfold token, consumeToken. cbn [fst snd].
    destruct (matchIdent ident (currentWord q)); cbn [negb]; intros [= <-].
    reflexivity.
  - unfold ParserGo.parseFloat64.
    destruct (eof q).
    + intros [= <-]. rewrite setErrors_same. reflexivity.
    + destruct (ParseFloat (currentWord q) 32) as [f64 [err |]]; intros [= <-].
      reflexivity.
Qed.

Lemma execStep_succeeds (s : subStep) (q : parser) (t : Triangle) (st' : facetState) :
  execStep s (q, t) = (st', true) ->
  accepts s q /\ st' = (fst (nextWord q), written s q t).
Proof.
  destruct s as [ident | dst]; cbn [ParserSpec.execStep ParserSpec.accepts ParserSpec.written].
  - unfold token, consumeToken. cbn [fst snd].
    destruct (matchIdent ident (currentWord q)); cbn [negb]; intros [= <-].
    auto.
  - unfold ParserGo.parseFloat64.
    destruct (eof q); [discriminate |].
    destruct (ParseFloat (currentWord q) 32) as [f64 [err |]]; intros [= <-].
    auto.
Qed.

Lemma execStep_accepts (s : subStep) (q : parser) (t : Triangle) :
  accepts s q -> execStep s (q, t) = ((fst (nextWord q), written s q t), true).
Proof.
  destruct s as [ident | dst]; cbn [ParserSpec.execStep ParserSpec.accepts ParserSpec.written].
  - intros H. unfold token, consumeToken. cbn [fst snd]. rewrite H. reflexivity.
  - intros [He Hf]. unfold ParserGo.parseFloat64. rewrite He.
    destruct (ParseFloat (currentWord q) 32) as [f64 [err |]];
      [discriminate | reflexivity].
Qed.

Lemma nextWord_wellFormed (p : parser) :
  wellFormed p ->
  wellFormed (fst (nextWord p))
  /\ TrianglesSkipped (fst (nextWord p)) = TrianglesSkipped p.
Proof.
  intros Hwf. destruct (eof p) eqn:Hp.
  - rewrite nextWord_eof by exact Hp. auto.
  - destruct (nextWord_scanned p Hp) as (_ & _ & H1 & H2 & _). auto.
Qed.

Lemma execStep_flags (s : subStep) (q : parser) (t : Triangle) :
  wellFormed q ->
  wellFormed (fst (fst (execStep s (q, t))))
  /\ TrianglesSkipped (fst (fst (execStep s (q, t)))) = TrianglesSkipped q.
Proof.
  intros Hwf. destruct (execStep s (q, t)) as [st' ok] eqn:E. destruct ok.
  - apply execStep_succeeds in E as [_ ->]. cbn [fst].
    apply nextWord_wellFormed, Hwf.
  - apply execStep_fails in E as ->. cbn [fst]. auto.
Qed.

Lemma runSteps_flags (steps : list subStep) :
  forall q t,
  wellFormed q ->
  wellFormed (fst (fst (runSteps steps (q, t))))
  /\ TrianglesSkipped (fst (fst (runSteps steps (q, t)))) = TrianglesSkipped q.
Proof.
  induction steps as [| s rest IH]; intros q t Hwf; cbn [ParserSpec.runSteps].
  - auto.
  - pose proof (execStep_flags s q t Hwf) as [H1 H2].
    destruct (execStep s (q, t)) as [[q1 t1] ok]. cbn [fst] in *.
    destruct ok; [| auto].
    destruct (IH q1 t1 H1) as [K1 K2]. split; [exact K1 | congruence].
Qed.

(** Where a run of sub-steps fails: the steps before succeeded, and the
    run ends with the result of the failing one. *)
Lemma runSteps_fails (steps : list subStep) :
  forall st st',
  runSteps steps st = (st', false) ->
  exists done failing todo q,
    steps = (done ++ failing :: todo)%list
    /\ runSteps done st = (q, true)
    /\ execStep failing q = (st', false).
Proof.
  induction steps as [| s rest IH]; intros st st'; cbn [ParserSpec.runSteps].
  - discriminate.
  - destruct (execStep s st) as [st1 ok] eqn:E. destruct ok.
    + intros Hr. destruct (IH st1 st' Hr) as (done & failing & todo & q & -> & Hd & Hf).
      exists (s :: done), failing, todo, q. split; [reflexivity |]. split; [| exact Hf].
      cbn [ParserSpec.runSteps]. rewrite E. exact Hd.
    + intros [= <-]. exists [], s, rest, st. auto.
Qed.

End Facet.

End FacetFacts.

(** ** readascii.go: the triangle loop and Parse *)

Module ParseFacts.
Import ParserGo ParserSpec ScannerFacts FacetFacts.
Local Open Scope string_scope.

Section Loop.
Variable ParseFloat : string -> Z -> float * option string.
Variable extractASCIIString : string -> string.

Local Abbreviation parseFloat64 := (parseFloat64 ParseFloat).
Local Abbreviation parseFacet := (parseFacet ParseFloat).
Local Abbreviation execStep := (execStep ParseFloat).
Local Abbreviation runSteps := (runSteps ParseFloat).
Local Abbreviation facetOrSkip := (facetOrSkip ParseFloat).
Local Abbreviation triangleLoop := (triangleLoop ParseFloat).
Local Abbreviation parseBody := (parseBody ParseFloat extractASCIIString).
Local Abbreviation Parse := (Parse ParseFloat extractASCIIString).

(** *** The loop is indifferent to the header flag and to what was
    recorded before *)

Lemma framed_execStep (h : bool) (pre : list string) (s : subStep)
    (st : facetState) :
  execStep s (framedSt h pre st) = onFst (framedSt h pre) (execStep s st).
Proof.
  destruct st as [q t]. destruct s as [ident | dst];
    cbn [ParserSpec.execStep framedSt fst snd].
  - unfold token, framedSt. cbn [fst snd]. rewrite framed_consumeToken.
    destruct (consumeToken ident q). reflexivity.
  - unfold ParserGo.parseFloat64, framedSt. cbn [fst snd eof currentWord framed].
    destruct (eof q); [reflexivity |].
    destruct (ParseFloat (currentWord q) 32) as [f64 [err |]].
    + rewrite framed_addError. reflexivity.
    + rewrite framed_nextWord. reflexivity.
Qed.

Lemma framed_runSteps (h : bool) (pre : list string) (steps : list subStep) :
  forall st,
  runSteps steps (framedSt h pre st) = onFst (framedSt h pre) (runSteps steps st).
Proof.
  induction steps as [| s rest IH]; intros st; cbn [ParserSpec.runSteps].
  - reflexivity.
  - rewrite framed_execStep. destruct (execStep s st) as [st1 ok].
    cbn [onFst fst snd]. destruct ok; [apply IH | reflexivity].
Qed.

Lemma framed_resync (h : bool) (pre : list string) (p : parser) :
  resync (framed h pre p) = onFst (framed h pre) (resync p).
Proof.
  unfold resync, isCurrentTokenIdent. cbn [currentWord framed].
  destruct (matchIdent idFacet (currentWord p)); cbn [negb]; [reflexivity |].
  rewrite framed_addError, framed_skipToToken.
  destruct (skipToToken _ _) as [p2 found]. cbn [onFst fst snd].
  destruct ((found =? idEndsolid) || (found =? idNone))%Z; reflexivity.
Qed.

Lemma framed_facetOrSkip (h : bool) (pre : list string) (p : parser) (sw : Writer) :
  facetOrSkip (framed h pre p) sw = onFst (framed h pre) (facetOrSkip p sw).
Proof.
  unfold ParserGo.facetOrSkip. rewrite !parseFacet_steps.
  change (framed h pre p, zeroTriangle) with (framedSt h pre (p, zeroTriangle)).
  rewrite framed_runSteps.
  destruct (runSteps facetSteps (p, zeroTriangle)) as [[p1 t] ok].
  cbn [onFst framedSt fst snd]. destruct ok; [reflexivity |].
  change (setTrianglesSkipped true (framed h pre p1))
    with (framed h pre (setTrianglesSkipped true p1)).
  rewrite framed_skipToToken. reflexivity.
Qed.

Lemma framed_triangleLoop (h : bool) (pre : list string) (bound : nat) :
  forall p sw,
  triangleLoop bound (framed h pre p) sw
  = option_map (onFst (framed h pre)) (triangleLoop bound p sw).
Proof.
  induction bound as [| bound IH]; intros p sw; cbn [ParserGo.triangleLoop];
    unfold isCurrentTokenIdent; cbn [eof currentWord framed];
    destruct (negb (eof p) && negb (matchIdent idEndsolid (currentWord p)));
    try reflexivity.
  rewrite framed_resync. destruct (resync p) as [p1 leave].
  cbn [onFst fst snd]. destruct leave; [reflexivity |].
  rewrite framed_facetOrSkip. destruct (facetOrSkip p1 sw) as [p2 sw2].
  cbn [onFst fst snd]. apply IH.
Qed.

(** *** Every turn of the loop consumes a word *)

Lemma nextWord_shorter (p : parser) :
  eof p = false ->
  S (length (tokens (fst (nextWord p)))) = length (tokens p).
Proof.
  intros Hp. destruct (nextWord_scanned p Hp) as (Ht & _).
  rewrite Ht. unfold tokens. rewrite Hp. reflexivity.
Qed.

Lemma nextWord_not_longer (p : parser) :
  (length (tokens (fst (nextWord p))) <= length (tokens p))%nat.
Proof.
  destruct (eof p) eqn:Hp.
  - rewrite nextWord_eof by exact Hp. cbn [fst]. lia.
  - pose proof (nextWord_shorter p Hp). lia.
Qed.

Lemma execStep_not_longer (s : subStep) (q : parser) (t : Triangle) :
  (length (tokens (fst (fst (execStep s (q, t))))) <= length (tokens q))%nat.
Proof.
  destruct (execStep s (q, t)) as [st' ok] eqn:E. destruct ok.
  - apply execStep_succeeds in E as [_ ->]. cbn [fst]. apply nextWord_not_longer.
  - apply execStep_fails in E as ->. cbn [fst]. apply Nat.le_refl.
Qed.

Lemma runSteps_not_longer (steps : list subStep) :
  forall q t,
  (length (tokens (fst (fst (runSteps steps (q, t))))) <= length (tokens q))%nat.
Proof.
  induction steps as [| s rest IH]; intros q t; cbn [ParserSpec.runSteps].
  - apply Nat.le_refl.
  - pose proof (execStep_not_longer s q t) as H.
    destruct (execStep s (q, t)) as [[q1 t1] ok]. cbn [fst] in *.
    destruct ok; [| exact H].
    specialize (IH q1 t1). lia.
Qed.

Lemma skipUntilSync_not_longer (ws : list string) :
  (length (skipUntilSync ws) <= length ws)%nat.
Proof.
  induction ws as [| w rest IH]; cbn [skipUntilSync]; [lia |].
  destruct (isSync w); cbn [length]; lia.
Qed.

(** The first sub-step of [parseFacet] at a [facet] takes that word. *)
Lemma parseFacet_shorter (p : parser) :
  eof p = false ->
  matchIdent idFacet (currentWord p) = true ->
  (length (tokens (fst (fst (parseFacet (p, zeroTriangle))))) < length (tokens p))%nat.
Proof.
  intros Hp Hm. rewrite parseFacet_steps.
  change facetSteps with (Keyword idFacet :: tl facetSteps).
  cbn [ParserSpec.runSteps].
  rewrite (execStep_accepts ParseFloat (Keyword idFacet) p zeroTriangle Hm).
  pose proof (runSteps_not_longer (tl facetSteps) (fst (nextWord p))
                (written ParseFloat (Keyword idFacet) p zeroTriangle)) as H.
  pose proof (nextWord_shorter p Hp). lia.
Qed.

(** What [resync] leaves. *)
Lemma resync_spec (p : parser) :
  wellFormed p ->
  wellFormed (fst (resync p))
  /\ TrianglesSkipped (fst (resync p)) = TrianglesSkipped p
  /\ (length (tokens (fst (resync p))) <= length (tokens p))%nat
  /\ (snd (resync p) = false ->
      eof (fst (resync p)) = false
      \/ eof p = true)
  /\ (snd (resync p) = false -> eof p = false ->
      matchIdent idFacet (currentWord (fst (resync p))) = true).
Proof.
  intros Hwf. unfold resync, isCurrentTokenIdent.
  destruct (matchIdent idFacet (currentWord p)) eqn:Hm; cbn [negb fst snd].
  - repeat split; auto. intros _. destruct (eof p); auto.
  - set (msg := dquote ++ "facet" ++ dquote ++ " or " ++ dquote ++ "endsolid"
                 ++ dquote ++ " expected").
    assert (Hwf1 : wellFormed (addError msg p)) by exact Hwf.
    pose proof (skipToToken_sync (addError msg p) Hwf1) as (Ht & Hc & Hw & Hs).
    destruct (skipToToken (Z.lor idFacet idEndsolid) (addError msg p))
      as [p2 found].
    cbn [fst snd] in *.
    assert (Htok : tokens (addError msg p) = tokens p) by reflexivity.
    rewrite Htok in Ht.
    assert (Hlen : (length (tokens p2) <= length (tokens p))%nat)
      by (rewrite Ht; apply skipUntilSync_not_longer).
    destruct ((found =? idEndsolid) || (found =? idNone))%Z eqn:Hf;
      cbn [fst snd]; repeat split; auto; try discriminate.
    + intros _. left. subst found. unfold tokens in *.
      destruct (eof p2); [| reflexivity]. cbn in Hf. discriminate.
    + intros _ _. subst found. unfold tokens in *.
      destruct (eof p2); [cbn in Hf; discriminate |].
      cbn [syncCode] in Hf. rewrite matchIdent_facet.
      destruct (String.eqb (currentWord p2) "facet"); [reflexivity |].
      cbn in Hf. discriminate.
Qed.

Lemma facetOrSkip_spec (p : parser) (sw : Writer) :
  wellFormed p ->
  wellFormed (fst (facetOrSkip p sw))
  /\ (TrianglesSkipped p = true -> TrianglesSkipped (fst (facetOrSkip p sw)) = true)
  /\ (length (tokens (fst (facetOrSkip p sw)))
      <= length (tokens (fst (fst (parseFacet (p, zeroTriangle))))))%nat.
Proof.
  intros Hwf. unfold ParserGo.facetOrSkip.
  pose proof (runSteps_flags ParseFloat facetSteps p zeroTriangle Hwf) as [H1 H2].
  rewrite <- parseFacet_steps in H1, H2.
  destruct (parseFacet (p, zeroTriangle)) as [[p1 t] ok]. cbn [fst snd] in *.
  destruct ok; cbn [fst].
  - repeat split; auto. congruence.
  - assert (Hwf1 : wellFormed (setTrianglesSkipped true p1)) by exact H1.
    pose proof (skipToToken_sync _ Hwf1) as (Ht & _ & Hw & Hs).
    repeat split; auto.
    rewrite Ht. change (tokens (setTrianglesSkipped true p1)) with (tokens p1).
    apply skipUntilSync_not_longer.
Qed.

(** The bound given to the loop is never used up. *)
Lemma triangleLoop_total (bound : nat) :
  forall p sw,
  wellFormed p ->
  (length (tokens p) <= bound)%nat ->
  exists pL swL,
    triangleLoop bound p sw = Some (pL, swL)
    /\ wellFormed pL
    /\ (TrianglesSkipped p = true -> TrianglesSkipped pL = true).
Proof.
  induction bound as [| bound IH]; intros p sw Hwf Hle;
    cbn [ParserGo.triangleLoop]; unfold isCurrentTokenIdent.
  - destruct (eof p) eqn:Hp; cbn [negb andb].
    + eauto.
    + exfalso. unfold tokens in Hle. rewrite Hp in Hle. cbn in Hle. lia.
  - destruct (eof p) eqn:Hp; cbn [negb andb]; [eauto |].
    destruct (matchIdent idEndsolid (currentWord p)); cbn [negb]; [eauto |].
    pose proof (resync_spec p Hwf) as (Hw1 & Hs1 & Hl1 & He1 & Hm1).
    destruct (resync p) as [p1 leave]. cbn [fst snd] in *.
    destruct leave.
    + exists p1, sw. repeat split; auto. congruence.
    + specialize (He1 eq_refl). specialize (Hm1 eq_refl Hp).
      destruct He1 as [He1 | He1]; [| congruence].
      pose proof (facetOrSkip_spec p1 sw Hw1) as (Hw2 & Hs2 & Hl2).
      pose proof (parseFacet_shorter p1 He1 Hm1) as Hl3.
      destruct (facetOrSkip p1 sw) as [p2 sw2]. cbn [fst] in *.
      destruct (IH p2 sw2 Hw2) as (pL & swL & HL & HwL & HsL); [lia |].
      exists pL, swL. repeat split; auto.
      intros Hs. apply HsL, Hs2. congruence.
Qed.

(** Once set, [TrianglesSkipped] stays set, and [Parse] fails. *)
Lemma triangleLoop_skipped (bound : nat) :
  forall p sw pL swL,
  wellFormed p ->
  triangleLoop bound p sw = Some (pL, swL) ->
  TrianglesSkipped p = true ->
  TrianglesSkipped pL = true.
Proof.
  induction bound as [| bound IH]; intros p sw pL swL Hwf;
    cbn [ParserGo.triangleLoop];
    destruct (negb (eof p) && negb (isCurrentTokenIdent idEndsolid p));
    try discriminate; try (intros [= <- <-]; auto).
  pose proof (resync_spec p Hwf) as (Hw1 & Hs1 & _).
  destruct (resync p) as [p1 leave]. cbn [fst snd] in *.
  destruct leave.
  - intros [= <- <-]. congruence.
  - pose proof (facetOrSkip_spec p1 sw Hw1) as (Hw2 & Hs2 & _).
    destruct (facetOrSkip p1 sw) as [p2 sw2]. cbn [fst] in *.
    intros HL Hs. apply (IH p2 sw2 pL swL Hw2 HL). apply Hs2. congruence.
Qed.

(** A loop turn sets [TrianglesSkipped] exactly when its call of
    [parseFacet] fails. *)
Lemma facetOrSkip_flag (p : parser) (sw : Writer) :
  wellFormed p ->
  TrianglesSkipped (fst (facetOrSkip p sw))
  = TrianglesSkipped p || negb (snd (parseFacet (p, zeroTriangle))).
Proof.
  intros Hwf. unfold ParserGo.facetOrSkip.
  pose proof (runSteps_flags ParseFloat facetSteps p zeroTriangle Hwf) as [H1 H2].
  rewrite <- parseFacet_steps in H1, H2.
  destruct (parseFacet (p, zeroTriangle)) as [[p1 t] ok]. cbn [fst snd] in *.
  destruct ok; cbn [fst negb].
  - rewrite orb_false_r. exact H2.
  - assert (Hwf1 : wellFormed (setTrianglesSkipped true p1)) by exact H1.
    pose proof (skipToToken_sync _ Hwf1) as (_ & _ & _ & Hs).
    cbn [fst] in Hs. rewrite Hs, orb_true_r. reflexivity.
Qed.

(** At the exit of the loop [TrianglesSkipped] is set exactly when it was
    set before or one of the triangles attempted was skipped. *)
Lemma triangleLoop_attempts (bound : nat) :
  forall p sw pL swL,
  wellFormed p ->
  triangleLoop bound p sw = Some (pL, swL) ->
  TrianglesSkipped pL
  = TrianglesSkipped p || existsb negb (attempts ParseFloat bound p sw).
Proof.
  induction bound as [| bound IH]; intros p sw pL swL Hwf;
    cbn [ParserGo.triangleLoop attempts];
    destruct (negb (eof p) && negb (isCurrentTokenIdent idEndsolid p));
    try discriminate;
    try (intros [= <- <-]; cbn [existsb]; rewrite orb_false_r; reflexivity).
  pose proof (resync_spec p Hwf) as (Hw1 & Hs1 & _).
  destruct (resync p) as [p1 leave]. cbn [fst snd] in *.
  destruct leave.
  - intros [= <- <-]. cbn [existsb]. rewrite orb_false_r. exact Hs1.
  - pose proof (facetOrSkip_spec p1 sw Hw1) as (Hw2 & _ & _).
    pose proof (facetOrSkip_flag p1 sw Hw1) as Hf.
    destruct (facetOrSkip p1 sw) as [p2 sw2]. cbn [fst] in *.
    intros HL. rewrite (IH p2 sw2 pL swL Hw2 HL), Hf, Hs1. cbn [existsb].
    rewrite orb_assoc. reflexivity.
Qed.

Lemma all_succeeded (l : list bool) :
  existsb negb l = false <-> Forall (fun ok => ok = true) l.
Proof.
  induction l as [| b l IH]; cbn [existsb].
  - split; [constructor | reflexivity].
  - rewrite orb_false_iff, IH, negb_false_iff. split.
    + intros [Hb Hl]. constructor; assumption.
    + intros H. inversion H; subst. auto.
Qed.

Lemma parseEnd_skipped (p : parser) :
  TrianglesSkipped p = true -> snd (parseEnd p) = false.
Proof.
  intros H. unfold parseEnd. rewrite H, andb_false_r. reflexivity.
Qed.

Lemma framed_self (p : parser) : framed (HeaderError p) [] p = p.
Proof. destruct p. reflexivity. Qed.

(** The loop leaves the header flag as it found it. *)
Lemma triangleLoop_HeaderError (bound : nat) (p pL : parser) (sw swL : Writer) :
  triangleLoop bound p sw = Some (pL, swL) -> HeaderError pL = HeaderError p.
Proof.
  intros H. pose proof (framed_triangleLoop (HeaderError p) [] bound p sw) as Hf.
  rewrite framed_self, H in Hf. cbn in Hf. injection Hf as Hf.
  rewrite Hf. reflexivity.
Qed.

(** *** The header line *)

Lemma parseASCIIHeaderLine_spec (p : parser) (sw : Writer) :
  eof p = false ->
  let r := parseASCIIHeaderLine extractASCIIString p sw in
  snd r = headerValid p
  /\ wellFormed (fst (fst r))
  /\ TrianglesSkipped (fst (fst r)) = TrianglesSkipped p.
Proof.
  intros Hp r. subst r. unfold parseASCIIHeaderLine, headerValid. rewrite Hp.
  cbn [negb andb].
  destruct (String.prefix expectedASCIIHeaderPrefix (currentLineBytes p));
    cbn [negb fst snd].
  - destruct (nextLineFrom_scanned (linesLeft (lineScanner p)) p Hp)
      as (_ & _ & H1 & H2 & _). auto.
  - set (q := addError _ p).
    assert (Hq : eof q = false) by exact Hp.
    destruct (nextLineFrom_scanned (linesLeft (lineScanner q)) q Hq)
      as (_ & _ & H1 & H2 & _). auto.
Qed.

(** [Parse] runs the loop to its end: the bound it is given is enough. *)
Lemma parseBody_runs_loop (p : parser) (sw : Writer) :
  eof p = false ->
  exists pL swL,
    triangleLoop
      (S (length (pending (fst (fst (parseASCIIHeaderLine extractASCIIString p sw))))))
      (setHeaderError (negb (headerValid p))
         (fst (fst (parseASCIIHeaderLine extractASCIIString p sw))))
      (snd (fst (parseASCIIHeaderLine extractASCIIString p sw)))
    = Some (pL, swL)
    /\ parseBody p sw = (pL, swL)
    /\ HeaderError pL = negb (headerValid p)
    /\ wellFormed pL.
Proof.
  intros Hp.
  pose proof (parseASCIIHeaderLine_spec p sw Hp) as (Hok & Hwf & Hts).
  unfold ParserGo.parseBody. rewrite Hp.
  destruct (parseASCIIHeaderLine extractASCIIString p sw) as [[p1 sw1] ok].
  cbn [fst snd] in *. subst ok.
  set (p2 := setHeaderError (negb (headerValid p)) p1).
  change (pending p1) with (pending p2).
  assert (Hwf2 : wellFormed p2) by exact Hwf.
  destruct (triangleLoop_total (S (length (pending p2))) p2 sw1 Hwf2)
    as (pL & swL & HL & HwL & _).
  { unfold tokens. destruct (eof p2); cbn [length]; lia. }
  exists pL, swL. rewrite HL. repeat split; auto.
  apply triangleLoop_HeaderError in HL. exact HL.
Qed.

Lemma parseBody_HeaderError (p : parser) (sw : Writer) :
  HeaderError (fst (parseBody p sw)) = negb (headerValid p).
Proof.
  destruct (eof p) eqn:Hp.
  - unfold ParserGo.parseBody, headerValid. rewrite Hp. reflexivity.
  - destruct (parseBody_runs_loop p sw Hp) as (pL & swL & _ & -> & H & _).
    exact H.
Qed.

End Loop.

(** *** Input that conforms to the grammar *)

Section Conforming.
Variable ParseFloat : string -> Z -> float * option string.
Variable extractASCIIString : string -> string.

Local Abbreviation acceptsWord := (acceptsWord ParseFloat).
Local Abbreviation writeWord := (writeWord ParseFloat).
Local Abbreviation allAccepted := (allAccepted ParseFloat).
Local Abbreviation writeAll := (writeAll ParseFloat).

Lemma runSteps_accepted (steps : list subStep) :
  forall ws p t rest,
  allAccepted steps ws ->
  clean p ->
  tokens p = (ws ++ rest)%list ->
  exists p',
    runSteps ParseFloat steps (p, t) = ((p', writeAll steps ws t), true)
    /\ tokens p' = rest
    /\ clean p'
    /\ errors p' = errors p
    /\ TrianglesSkipped p' = TrianglesSkipped p.
Proof.
  induction steps as [| s steps' IH]; intros ws p t rest Hacc Hc Ht;
    destruct ws as [| w ws']; cbn [allAccepted] in Hacc; try contradiction.
  - exists p. cbn. auto.
  - destruct Hacc as [Hs Hrest]. cbn [app] in Ht.
    apply tokens_cons in Ht as (Hp & Hw & Hpend).
    assert (Ha : accepts ParseFloat s p).
    { destruct s as [ident | dst]; cbn [accepts acceptsWord] in *.
      - rewrite Hw. exact Hs.
      - rewrite Hw. split; [exact Hp | exact Hs]. }
    cbn [ParserSpec.runSteps writeAll].
    rewrite (execStep_accepts ParseFloat s p t Ha).
    destruct (nextWord_scanned p Hp) as (Hts & _ & _ & Hsk & _).
    destruct (nextWord_clean p Hp Hc) as [Hc1 He1].
    destruct (IH ws' (fst (nextWord p)) (written ParseFloat s p t) rest Hrest Hc1)
      as (p' & Hrun & Ht' & Hc' & He' & Hs').
    { rewrite Hts. exact Hpend. }
    exists p'. split.
    + rewrite Hrun. f_equal. f_equal. f_equal.
      destruct s; cbn [written writeWord]; [reflexivity |].
      unfold floatOf. rewrite Hw. reflexivity.
    + split; [exact Ht' |]. split; [exact Hc' |]. split; congruence.
Qed.

Lemma triangle_accepted (tt : TriangleText) :
  isTriangle ParseFloat tt -> allAccepted facetSteps (triangleWords tt).
Proof.
  intros ((N0 & N1 & N2) & (A0 & A1 & A2) & (B0 & B1 & B2) & (C0 & C1 & C2)).
  unfold facetSteps, triangleWords, point3, pointSteps.
  cbn [app allAccepted acceptsWord].
  repeat split; first [assumption | reflexivity].
Qed.

Lemma triangle_written (tt : TriangleText) :
  writeAll facetSteps (triangleWords tt) zeroTriangle = triangleOf ParseFloat tt.
Proof. reflexivity. Qed.

(** One conforming triangle is parsed as a whole, without a diagnostic. *)
Lemma parseFacet_conforming (tt : TriangleText) (p : parser) (rest : list string) :
  isTriangle ParseFloat tt ->
  clean p ->
  tokens p = (triangleWords tt ++ rest)%list ->
  exists p',
    parseFacet ParseFloat (p, zeroTriangle)
    = ((p', triangleOf ParseFloat tt), true)
    /\ tokens p' = rest
    /\ clean p'
    /\ errors p' = errors p
    /\ TrianglesSkipped p' = TrianglesSkipped p.
Proof.
  intros Htt Hc Ht. rewrite parseFacet_steps, <- triangle_written.
  apply runSteps_accepted; auto. apply triangle_accepted, Htt.
Qed.

Lemma triangleWords_facet (tt : TriangleText) :
  exists ws, triangleWords tt = "facet" :: ws.
Proof. eexists. reflexivity. Qed.

(** The loop on conforming triangles appends each of them, in order, and
    stops at [endsolid]. *)
Lemma triangleLoop_conforming (tts : list TriangleText) :
  forall bound p sw rest,
  (length tts <= bound)%nat ->
  Forall (isTriangle ParseFloat) tts ->
  clean p ->
  tokens p = (concat (map triangleWords tts) ++ "endsolid" :: rest)%list ->
  exists pL,
    triangleLoop ParseFloat bound p sw
    = Some (pL, (sw ++ map (fun tt => AppendTriangle (triangleOf ParseFloat tt)) tts)%list)
    /\ tokens pL = "endsolid" :: rest
    /\ clean pL
    /\ errors pL = errors p
    /\ TrianglesSkipped pL = TrianglesSkipped p.
Proof.
  induction tts as [| tt tts' IH]; intros bound p sw rest Hb Hall Hc Ht.
  - cbn [map concat app] in Ht. apply tokens_cons in Ht as Hparts.
    destruct Hparts as (Hp & Hw & _).
    exists p. rewrite app_nil_r.
    split; [| split; [exact Ht | split; [exact Hc | split; reflexivity]]].
    destruct bound; cbn [ParserGo.triangleLoop]; unfold isCurrentTokenIdent;
      rewrite Hp, Hw; reflexivity.
  - destruct bound as [| bound]; [cbn in Hb; lia |].
    apply Forall_cons_iff in Hall as [Htt Hall'].
    cbn [map concat] in Ht. rewrite <- app_assoc in Ht.
    destruct (triangleWords_facet tt) as [ws Hws].
    assert (Hhead : eof p = false /\ currentWord p = "facet").
    { rewrite Hws in Ht. cbn [app] in Ht.
      apply tokens_cons in Ht as (? & ? & _). auto. }
    destruct Hhead as [Hp Hw].
    destruct (parseFacet_conforming tt p _ Htt Hc Ht)
      as (p1 & Hpf & Ht1 & Hc1 & He1 & Hs1).
    destruct (IH bound p1 (call (AppendTriangle (triangleOf ParseFloat tt)) sw)
                 rest ltac:(cbn in Hb; lia) Hall' Hc1 Ht1)
      as (pL & HL & HtL & HcL & HeL & HsL).
    exists pL.
    split; [| split; [exact HtL | split; [exact HcL | split; congruence]]].
    cbn [ParserGo.triangleLoop]. unfold isCurrentTokenIdent. rewrite Hp, Hw.
    replace (matchIdent idEndsolid "facet") with false by reflexivity.
    cbn [negb andb]. unfold resync, isCurrentTokenIdent. rewrite Hw.
    replace (matchIdent idFacet "facet") with true by reflexivity.
    cbn [negb]. unfold facetOrSkip. rewrite Hpf, HL. unfold call. cbn [map].
    rewrite <- app_assoc. reflexivity.
Qed.

Lemma substring_all (s : string) : substring 0 (String.length s) s = s.
Proof. induction s as [| c s IH]; cbn; [reflexivity | rewrite IH; reflexivity]. Qed.

Lemma header_name (name : string) :
  substring (String.length expectedASCIIHeaderPrefix)
    (String.length (expectedASCIIHeaderPrefix ++ name)
     - String.length expectedASCIIHeaderPrefix)
    (expectedASCIIHeaderPrefix ++ name) = name.
Proof.
  induction expectedASCIIHeaderPrefix as [| c a IH]; cbn [String.append String.length].
  - rewrite Nat.sub_0_r. apply substring_all.
  - cbn [substring Nat.sub]. exact IH.
Qed.

Lemma header_prefix (name : string) :
  String.prefix expectedASCIIHeaderPrefix (expectedASCIIHeaderPrefix ++ name) = true.
Proof.
  induction expectedASCIIHeaderPrefix as [| c a IH]; simpl.
  - destruct name; reflexivity.
  - destruct (ascii_dec c c) as [_ | Hne]; [exact IH | contradiction].
Qed.

Lemma concat_triangleWords_length (tts : list TriangleText) :
  (length tts <= length (concat (map triangleWords tts)))%nat.
Proof.
  induction tts as [| tt tts IH]; cbn [map concat length]; [lia |].
  rewrite length_app. cbn [triangleWords point3 app length]. lia.
Qed.

(** The scanners deliver the lines of the input themselves when each of
    them is shorter than [MaxScanTokenSize]. *)
Lemma scanLines_short (ls : list string) :
  Forall (fun l => (lengthN l < MaxScanTokenSize)%N) ls ->
  scanLines ls = (map (fun l => lineOf (dropCR l)) ls, None).
Proof.
  induction 1 as [| l rest Hl _ IH]; cbn [scanLines map]; [reflexivity |].
  apply N.ltb_lt in Hl. rewrite Hl, IH. reflexivity.
Qed.

Lemma streamOfBytes_short (input : string) :
  Forall (fun l => (lengthN l < MaxScanTokenSize)%N) (rawLines input) ->
  streamOfBytes input = unlimitedStream input.
Proof.
  intros H. unfold streamOfBytes, unlimitedStream, streamOf.
  rewrite (scanLines_short _ H), map_map. reflexivity.
Qed.

(** The parser made for a stream whose first line holds a word. *)
Lemma newParser_first_line (header : Line) (body : list Line)
    (err : option string) (w : string) (ws : list string) :
  lineWords header = w :: ws ->
  newParser (mkLineScanner (header :: body) err)
  = mkParser 1 [] w (Some (lineBytes header)) false
             (mkLineScanner body err)
             (mkWordScanner ws (lineWordsErr header)) false false EmptyString.
Proof.
  intros Hw. unfold newParser, nextLine. cbn [lineScanner linesLeft nextLineFrom].
  unfold nextWordWith, scanLine. cbn. rewrite Hw. reflexivity.
Qed.

(** C1, as amended.  For a stream that conforms to the grammar (header
    line starting with ["solid "], then the words of the triangles, each
    float literal accepted by [ParseFloat] at 32 bits, then [endsolid]) and
    that the two scanners read without error, [Parse] returns [true], its
    diagnostic text is empty, and the writer received [SetName] followed by
    one [AppendTriangle] for each triangle of the file, in file order, with
    the coordinates parsed.  By [streamOfBytes_short] the scanners read
    without error every input whose lines are shorter than 64 KiB. *)
Theorem Parse_conforming (stream : lineScannerState) (name : string)
    (tts : list TriangleText) :
  conforms ParseFloat stream name tts ->
  ParseStream ParseFloat extractASCIIString stream
  = (true, EmptyString,
     SetName (extractASCIIString name)
     :: map (fun tt => AppendTriangle (triangleOf ParseFloat tt)) tts).
Proof.
  intros (header & body & Hl & He & Hb & Hw & Hwe & Hc & Hws & Hall).
  destruct stream as [ls serr]. cbn [linesLeft linesErr] in Hl, He. subst ls serr.
  destruct (lineWords header) as [| w ws] eqn:Hlw; [contradiction |].
  unfold ParseStream. rewrite (newParser_first_line header body None w ws Hlw).
  set (p0 := mkParser _ _ _ _ _ _ _ _ _ _).
  assert (Hc0 : clean p0) by (unfold clean; cbn; auto).
  assert (Hp0 : eof p0 = false) by reflexivity.
  unfold Parse, parseBody. rewrite Hp0.
  unfold parseASCIIHeaderLine. rewrite Hp0.
  assert (Hline : currentLineBytes p0 = expectedASCIIHeaderPrefix ++ name)
    by exact Hb.
  rewrite Hline, header_prefix, header_name. cbn [negb].
  destruct (nextLine_clean p0 Hp0 Hc0) as [Hc1 He1].
  destruct (nextLineFrom_scanned (linesLeft (lineScanner p0)) p0 Hp0)
    as (Ht1 & _ & _ & Hs1 & _).
  fold (nextLine p0) in Ht1, Hs1.
  set (p1 := fst (nextLine p0)) in *.
  cbn [fst snd negb].
  set (p2 := setHeaderError false p1).
  assert (Ht2 : tokens p2 = (concat (map triangleWords tts) ++ ["endsolid"])%list).
  { change (tokens p2) with (tokens p1). rewrite Ht1. exact Hws. }
  assert (Hc2 : clean p2) by exact Hc1.
  assert (Hbound : (length tts <= S (length (pending p2)))%nat).
  { pose proof (concat_triangleWords_length tts) as Hlen.
    pose proof (f_equal (@length string) Ht2) as Hl2.
    rewrite length_app in Hl2. cbn [length] in Hl2.
    unfold tokens in Hl2. destruct (eof p2); cbn [length] in Hl2; lia. }
  destruct (triangleLoop_conforming tts (S (length (pending p2))) p2
              (call (SetName (extractASCIIString name)) []) [] Hbound Hall Hc2 Ht2)
    as (pL & HL & HtL & HcL & HeL & HsL).
  rewrite HL.
  pose proof (triangleLoop_HeaderError ParseFloat _ _ _ _ _ HL) as HhL.
  apply tokens_cons in HtL as (HpL & HwL & _).
  unfold parseEnd. rewrite HhL, HsL.
  change (HeaderError p2) with false.
  change (TrianglesSkipped p2) with (TrianglesSkipped p1). rewrite Hs1.
  change (TrianglesSkipped p0) with false. cbn [negb andb].
  unfold consumeToken. rewrite HwL.
  replace (matchIdent idEndsolid "endsolid") with true by reflexivity.
  cbn [negb].
  destruct (nextWord_clean pL HpL HcL) as [_ HeE].
  destruct (nextWord_scanned pL HpL) as (_ & _ & _ & HsE & _).
  unfold generateErrorText, setErrorText. cbn [ErrorText].
  rewrite HsE, HsL, HeE, HeL.
  change (TrianglesSkipped p2) with (TrianglesSkipped p1). rewrite Hs1.
  change (errors p2) with (errors p1). rewrite He1.
  cbn. reflexivity.
Qed.

End Conforming.

Lemma nextLineFrom_firstWordLine (l : Line) (ls : list Line) :
  forall p,
  eof p = false ->
  firstWordLine ls = Some l ->
  eof (fst (nextLineFrom ls p)) = false
  /\ currentLine (fst (nextLineFrom ls p)) = Some (lineBytes l)
  /\ errors (fst (nextLineFrom ls p)) = errors p
  /\ HeaderError (fst (nextLineFrom ls p)) = HeaderError p
  /\ wellFormed (fst (nextLineFrom ls p)).
Proof.
  induction ls as [| l0 rest IH]; intros p Hp Hf; cbn [firstWordLine] in Hf;
    [discriminate |].
  cbn [nextLineFrom]. unfold nextWordWith.
  cbn [eof scanLine wordScanner wordsLeft wordsErr]. rewrite Hp.
  destruct (lineWords l0) as [| w ws].
  - destruct (lineWordsErr l0); [discriminate |].
    destruct (IH (scanLine l0 rest p) Hp Hf) as (H1 & H2 & H3 & H4 & H5).
    repeat split; auto.
  - injection Hf as <-. cbn. unfold wellFormed. cbn.
    repeat split; auto. congruence.
Qed.

(** C6, as amended.  When the first line of the stream that holds a word
    (the lines without a word before it are passed over) does not start
    with ["solid "], [Parse] records one header diagnostic, with the number
    of that line, and still runs the triangle loop on the words after that
    line: with [pL] and [swL] what the loop gives from there when no header
    error was recorded, [Parse] returns [false], the writer received the
    calls [swL], and the diagnostics are the header diagnostic followed by
    all those of [pL]. *)
Theorem Parse_bad_header
    (ParseFloat : string -> Z -> float * option string)
    (extractASCIIString : string -> string)
    (stream : lineScannerState) (l : Line) (sw : Writer) :
  firstWordLine (linesLeft stream) = Some l ->
  String.prefix expectedASCIIHeaderPrefix (lineBytes l) = false ->
  let p0 := newParser stream in
  let pH := fst (nextLine p0) in
  exists pL swL,
    triangleLoop ParseFloat (S (length (pending pH))) pH sw = Some (pL, swL)
    /\ HeaderError pH = false
    /\ snd (Parse ParseFloat extractASCIIString p0 sw) = false
    /\ snd (fst (Parse ParseFloat extractASCIIString p0 sw)) = swL
    /\ errors (fst (fst (Parse ParseFloat extractASCIIString p0 sw)))
       = formatError (line p0) headerMessage :: errors pL
    /\ ErrorText (fst (fst (Parse ParseFloat extractASCIIString p0 sw)))
       = ErrorText
           (generateErrorText
              (framed true [formatError (line p0) headerMessage] pL)).
Proof.
  intros Hf Hpre p0 pH.
  destruct (nextLineFrom_firstWordLine l (linesLeft stream)
              (mkParser 0 [] EmptyString None false stream
                        (mkWordScanner [] None) false false EmptyString)
              eq_refl Hf) as (Hp0 & Hl0 & He0 & Hh0 & Hw0).
  change (fst (nextLineFrom _ _)) with p0 in Hp0, Hl0, He0, Hh0, Hw0.
  cbn [errors HeaderError] in He0, Hh0.
  assert (HwH : wellFormed pH).
  { destruct (nextLineFrom_scanned (linesLeft (lineScanner p0)) p0 Hp0)
      as (_ & _ & H & _). exact H. }
  destruct (triangleLoop_total ParseFloat (S (length (pending pH))) pH sw HwH)
    as (pL & swL & HL & _ & _).
  { unfold tokens. destruct (eof pH); cbn [length]; lia. }
  exists pL, swL. split; [exact HL |].
  assert (HhH : HeaderError pH = false).
  { pose proof (framed_nextLine (HeaderError p0) [] p0) as Hfr.
    rewrite framed_self in Hfr. unfold pH. rewrite Hfr. cbn. exact Hh0. }
  split; [exact HhH |].
  assert (Hadd : addError headerMessage p0
                 = framed false [formatError (line p0) headerMessage] p0).
  { unfold addError, setErrors, framed. rewrite He0, Hh0.
    destruct p0; reflexivity. }
  assert (Hbody : parseBody ParseFloat extractASCIIString p0 sw
                  = (framed true [formatError (line p0) headerMessage] pL, swL)).
  { unfold parseBody, parseASCIIHeaderLine. rewrite Hp0.
    unfold currentLineBytes. rewrite Hl0, Hpre. cbn [negb].
    fold headerMessage. rewrite Hadd, framed_nextLine.
    cbn [onFst fst snd negb].
    change (setHeaderError true
              (framed false [formatError (line p0) headerMessage]
                      (fst (nextLine p0))))
      with (framed true [formatError (line p0) headerMessage] pH).
    change (pending (framed true [formatError (line p0) headerMessage] pH))
      with (pending pH).
    rewrite framed_triangleLoop, HL. reflexivity. }
  unfold Parse. rewrite Hbody. unfold parseEnd. cbn [HeaderError framed negb andb].
  cbn [fst snd]. repeat split.
Qed.

(** C5, as amended.  When [parseFacet] fails on the triangle of a loop
    turn, it stopped at its first failing sub-step: the sub-steps [done]
    before it succeeded and led to [q], the sub-step [failing] failed there,
    and the parser is [q] with the expectation of that sub-step recorded,
    which is one diagnostic (["<keyword>" expected] or
    [Unable to parse float]) except that a float sub-step met at the end of
    the stream records none.  The loop turn hands nothing to the writer,
    sets [TrianglesSkipped], and leaves the parser [p'] before the first
    [facet] or [endsolid] among the words from the failing one on (at the
    end of the stream when there is none).  The loop goes on from [p'] and
    ends, whatever bound of at least the number of words left it is given,
    and the last statements of [Parse] then return [false].  Parsing resumes
    at the next [facet]: when the words from there on start with a
    well-formed triangle and are read without scanner error, the next turn
    of the loop hands that triangle to the writer, records nothing, and
    goes on with the words after it. *)
Theorem parseFacet_failure
    (ParseFloat : string -> Z -> float * option string)
    (p : parser) (sw : Writer) :
  wellFormed p ->
  snd (parseFacet ParseFloat (p, zeroTriangle)) = false ->
  let p' := fst (facetOrSkip ParseFloat p sw) in
  exists done failing todo q tq,
    facetSteps = (done ++ failing :: todo)%list
    /\ runSteps ParseFloat done (p, zeroTriangle) = ((q, tq), true)
    /\ snd (execStep ParseFloat failing (q, tq)) = false
    /\ fst (fst (parseFacet ParseFloat (p, zeroTriangle)))
       = setErrors (errors q ++ expectation failing q)%list q
    /\ (length (expectation failing q) = 1%nat
        \/ (exists dst, failing = Float dst) /\ eof q = true
           /\ expectation failing q = [])
    /\ snd (facetOrSkip ParseFloat p sw) = sw
    /\ TrianglesSkipped p' = true
    /\ tokens p' = skipUntilSync (tokens q)
    /\ (forall bound,
          (length (tokens p') <= bound)%nat ->
          exists pL swL,
            triangleLoop ParseFloat bound p' sw = Some (pL, swL)
            /\ TrianglesSkipped pL = true
            /\ snd (parseEnd pL) = false)
    /\ (forall tt rest,
          isTriangle ParseFloat tt ->
          clean p' ->
          skipUntilSync (tokens q) = (triangleWords tt ++ rest)%list ->
          exists p'',
            tokens p'' = rest
            /\ errors p'' = errors p'
            /\ forall bound sw',
                 triangleLoop ParseFloat (S bound) p' sw'
                 = triangleLoop ParseFloat bound p''
                     (call (AppendTriangle (triangleOf ParseFloat tt)) sw')).
Proof.
  intros Hwf Hfail p'.
  pose proof (parseFacet_steps ParseFloat (p, zeroTriangle)) as Hsteps.
  assert (Hp' : p' = fst (facetOrSkip ParseFloat p sw)) by reflexivity.
  clearbody p'.
  destruct (parseFacet ParseFloat (p, zeroTriangle)) as [[p1 t1] ok] eqn:E.
  cbn [fst snd] in *. subst ok. symmetry in Hsteps.
  destruct (runSteps_fails ParseFloat facetSteps _ _ Hsteps)
    as (done & failing & todo & [q tq] & Hsplit & Hdone & Hf).
  pose proof (execStep_fails ParseFloat failing q tq _ Hf) as Hres.
  injection Hres as Hp1 Ht1.
  pose proof (runSteps_flags ParseFloat done p zeroTriangle Hwf) as [Hwq _].
  rewrite Hdone in Hwq. cbn [fst] in Hwq.
  exists done, failing, todo, q, tq.
  split; [exact Hsplit |]. split; [exact Hdone |].
  split; [rewrite Hf; reflexivity |]. split; [exact Hp1 |].
  split.
  { destruct failing as [ident | dst]; cbn [expectation]; [left; reflexivity |].
    destruct (eof q) eqn:Hq; [right; eauto | left; reflexivity]. }
  unfold facetOrSkip in Hp' |- *. rewrite E in Hp' |- *.
  assert (Hw1 : wellFormed (setTrianglesSkipped true p1)).
  { subst p1. exact Hwq. }
  pose proof (skipToToken_sync _ Hw1) as (Ht & _ & Hw2 & Hs).
  cbn [fst snd] in Hp' |- *. rewrite <- Hp' in Ht, Hw2, Hs.
  assert (Htok : tokens p' = skipUntilSync (tokens q)).
  { rewrite Ht. subst p1. reflexivity. }
  split; [reflexivity |]. split; [exact Hs |]. split; [exact Htok |].
  split.
  - intros bound Hle.
    destruct (triangleLoop_total ParseFloat bound p' sw Hw2 Hle)
      as (pL & swL & HL & _ & HsL).
    exists pL, swL. split; [exact HL |]. split; [exact (HsL Hs) |].
    apply parseEnd_skipped. exact (HsL Hs).
  - intros tt rest Htt Hc Hnext. rewrite <- Htok in Hnext.
    destruct (parseFacet_conforming ParseFloat tt p' rest Htt Hc Hnext)
      as (p'' & Hpf & Ht'' & _ & He'' & _).
    exists p''. split; [exact Ht'' |]. split; [exact He'' |].
    intros bound sw'.
    destruct (triangleWords_facet tt) as [ws Hws].
    rewrite Hws in Hnext. cbn [app] in Hnext.
    apply tokens_cons in Hnext as (Hpe & Hpw & _).
    cbn [ParserGo.triangleLoop]. unfold isCurrentTokenIdent. rewrite Hpe, Hpw.
    replace (matchIdent idEndsolid "facet") with false by reflexivity.
    cbn [negb andb]. unfold resync, isCurrentTokenIdent. rewrite Hpw.
    replace (matchIdent idFacet "facet") with true by reflexivity.
    cbn [negb]. unfold facetOrSkip. rewrite Hpf. reflexivity.
Qed.

Section ReducedPrecision.
Variable ParseFloat : string -> Z -> float * option string.

(** [strconv.ParseFloat] belongs to Go's library.  By its documentation a
    well-formed literal near a floating point number of the given size is
    accepted, and one that "is more than 1/2 ULP away from the largest
    floating point number of the given size" is refused with a range
    error.  For the plain decimal literals, at the two sizes: *)
Hypothesis ParseFloat_range :
  forall (w : string) (neg : bool) (m e bitSize : Z),
  bitSize = 32 \/ bitSize = 64 ->
  readDecimal w = Some (neg, m, e) ->
  (below m e (limit bitSize) = true -> snd (ParseFloat w bitSize) = None)
  /\ (above m e (limit bitSize) = true -> snd (ParseFloat w bitSize) <> None).

(** C8.  A coordinate literal (the current word of a parser that is not at
    the end of its stream) is accepted exactly when [strconv.ParseFloat]
    accepts it at [bitSize] 32; the value stored through the pointer, into
    a [float64], is the one that call returned; a literal that is not
    accepted is rejected with the diagnostic [Unable to parse float], the
    triangle and the position being left as they were.  Hence a plain
    decimal literal is accepted when its value is within the range of
    float32 and rejected when it is beyond it, also when it is within the
    range of float64, where a call at 64 bits accepts it. *)
Theorem parseFloat64_reduced_precision
    (f : ptr float) (p : parser) (t : Triangle) :
  eof p = false ->
  let w := currentWord p in
  let r := parseFloat64 ParseFloat f (p, t) in
  (snd r = true <-> snd (ParseFloat w 32) = None)
  /\ (snd r = true ->
      fst r = (fst (nextWord p), f (fun _ => fst (ParseFloat w 32)) t))
  /\ (snd r = false ->
      fst r = (addError "Unable to parse float" p, t)
      /\ errors (fst (fst r))
         = (errors p ++ [formatError (line p) "Unable to parse float"])%list
      /\ tokens (fst (fst r)) = tokens p)
  /\ (forall neg m e,
        readDecimal w = Some (neg, m, e) ->
        (below m e (limit 32) = true -> snd r = true)
        /\ (above m e (limit 32) = true -> snd r = false)
        /\ (above m e (limit 32) = true -> below m e (limit 64) = true ->
            snd (ParseFloat w 64) = None /\ snd r = false)).
Proof.
  intros Hp w r.
  assert (Hacc : snd r = true <-> snd (ParseFloat w 32) = None).
  { subst r w. unfold parseFloat64. rewrite Hp.
    destruct (ParseFloat (currentWord p) 32) as [f64 [err |]]; cbn [fst snd];
      split; congruence. }
  split; [exact Hacc |]. split; [| split].
  - subst r w. unfold parseFloat64. rewrite Hp.
    destruct (ParseFloat (currentWord p) 32) as [f64 [err |]]; cbn [fst snd];
      [discriminate | reflexivity].
  - subst r w. unfold parseFloat64. rewrite Hp.
    destruct (ParseFloat (currentWord p) 32) as [f64 [err |]]; cbn [fst snd];
      [| discriminate].
    intros _. repeat split.
  - intros neg m e Hd.
    destruct (ParseFloat_range w neg m e 32 (or_introl eq_refl) Hd) as [Hin Hout].
    destruct (ParseFloat_range w neg m e 64 (or_intror eq_refl) Hd) as [Hin64 _].
    assert (Hrej : above m e (limit 32) = true -> snd r = false).
    { intros Ha. destruct (snd r) eqn:E; [| reflexivity].
      exfalso. apply (Hout Ha), Hacc. reflexivity. }
    split; [| split].
    + intros Hb. apply Hacc, Hin, Hb.
    + exact Hrej.
    + intros Ha Hb. split; [exact (Hin64 Hb) | exact (Hrej Ha)].
Qed.

End ReducedPrecision.

(** C7.  [Parse] returns [true] exactly when the header was valid, no
    triangle was skipped (none before the call, and every triangle the loop
    attempted was parsed to its end) and the current word at the exit of
    the loop is [endsolid].  In terms of the two flags: [HeaderError] is
    unset at the exit of the loop exactly when the header was valid, and
    [TrianglesSkipped] exactly when no triangle was skipped.  The final
    [consumeToken(idEndsolid)] is attempted when both flags are unset, and
    then records ["endsolid" expected] when the current word is another
    one; when a flag is set it is not attempted and nothing is recorded. *)
Theorem Parse_success
    (ParseFloat : string -> Z -> float * option string)
    (extractASCIIString : string -> string) (p : parser) (sw : Writer) :
  let pL := fst (parseBody ParseFloat extractASCIIString p sw) in
  let r := Parse ParseFloat extractASCIIString p sw in
  let tried := ParseAttempts ParseFloat extractASCIIString p sw in
  (snd r = true
   <-> headerValid p = true
       /\ (TrianglesSkipped p = false /\ Forall (fun ok => ok = true) tried)
       /\ currentWord pL = "endsolid")
  /\ (HeaderError pL = false <-> headerValid p = true)
  /\ (TrianglesSkipped pL = false
      <-> TrianglesSkipped p = false /\ Forall (fun ok => ok = true) tried)
  /\ (snd r = true
      <-> HeaderError pL = false /\ TrianglesSkipped pL = false
          /\ currentWord pL = "endsolid")
  /\ (HeaderError pL = false -> TrianglesSkipped pL = false ->
      currentWord pL <> "endsolid" ->
      errors (fst (fst r))
      = (errors pL
         ++ [formatError (line pL) (dquote ++ "endsolid" ++ dquote ++ " expected")])%list)
  /\ (HeaderError pL = true \/ TrianglesSkipped pL = true ->
      errors (fst (fst r)) = errors pL).
Proof.
  intros pL r tried. subst r.
  pose proof (parseBody_HeaderError ParseFloat extractASCIIString p sw) as HH.
  fold pL in HH.
  assert (Hflag : TrianglesSkipped pL
                  = TrianglesSkipped p || existsb negb tried).
  { subst pL tried. unfold ParseAttempts.
    destruct (eof p) eqn:Hp.
    - unfold parseBody. rewrite Hp. cbn [fst existsb].
      rewrite orb_false_r. reflexivity.
    - destruct (parseBody_runs_loop ParseFloat extractASCIIString p sw Hp)
        as (pL & swL & HL & -> & _ & _).
      pose proof (parseASCIIHeaderLine_spec extractASCIIString p sw Hp)
        as (Hok & Hwf & Hts).
      destruct (parseASCIIHeaderLine extractASCIIString p sw) as [[p1 sw1] ok].
      cbn [fst snd] in *. subst ok.
      set (p2 := setHeaderError (negb (headerValid p)) p1) in *.
      change (pending p1) with (pending p2) in HL.
      assert (Hwf2 : wellFormed p2) by exact Hwf.
      rewrite (triangleLoop_attempts ParseFloat _ p2 sw1 pL swL Hwf2 HL).
      change (TrianglesSkipped p2) with (TrianglesSkipped p1).
      rewrite Hts. reflexivity. }
  assert (Hskip : TrianglesSkipped pL = false
                  <-> TrianglesSkipped p = false
                      /\ Forall (fun ok => ok = true) tried).
  { rewrite Hflag, orb_false_iff, all_succeeded. reflexivity. }
  assert (Hhead : HeaderError pL = false <-> headerValid p = true).
  { rewrite HH. destruct (headerValid p); cbn; split; congruence. }
  assert (Hret : snd (Parse ParseFloat extractASCIIString p sw) = true
                 <-> HeaderError pL = false /\ TrianglesSkipped pL = false
                     /\ currentWord pL = "endsolid").
  { subst pL. unfold Parse, parseEnd.
    destruct (parseBody ParseFloat extractASCIIString p sw) as [p1 sw1].
    cbn [fst].
    destruct (HeaderError p1), (TrianglesSkipped p1); cbn [negb andb fst snd];
      try (split; [discriminate | intros (? & ? & ?); discriminate]).
    unfold consumeToken. rewrite matchIdent_endsolid.
    destruct (String.eqb_spec (currentWord p1) "endsolid") as [He | He];
      cbn [negb fst snd].
    + split; auto.
    + split; [discriminate | intros (_ & _ & ?); contradiction]. }
  split; [rewrite Hret, Hhead, Hskip; reflexivity |].
  split; [exact Hhead |]. split; [exact Hskip |]. split; [exact Hret |].
  subst pL. unfold Parse, parseEnd.
  destruct (parseBody ParseFloat extractASCIIString p sw) as [p1 sw1].
  cbn [fst]. split.
  - intros H1 H2 H3. rewrite H1, H2. cbn [negb andb].
    unfold consumeToken. rewrite matchIdent_endsolid.
    destruct (String.eqb_spec (currentWord p1) "endsolid") as [He | He];
      [contradiction |].
    reflexivity.
  - intros [H | H]; rewrite H; rewrite ?andb_false_r; reflexivity.
Qed.

End ParseFacts.

(** ** readascii.go: Parse on concrete files *)

Module ParseExamples.
Import ParserGo ParserSpec ScannerFacts FacetFacts ParseFacts.
Local Open Scope string_scope.

Local Abbreviation ParseStream := (ParseStream sampleParseFloat extractASCIIString).

(** The file of one triangle conforms and is parsed as C1 says. *)
Lemma Parse_conforming_witness :
  ParseStream (streamOf oneTriangleFile)
  = (true, EmptyString,
     SetName (extractASCIIString "cube")
     :: map (fun tt => AppendTriangle (triangleOf sampleParseFloat tt))
            [mkTriangleText ("0", "0", "1") ("0", "0", "0") ("1", "0", "0")
                            ("0", "1", "0")]).
Proof.
  apply (Parse_conforming sampleParseFloat extractASCIIString
           (streamOf oneTriangleFile) "cube").
  exists (lineOf "solid cube"), (map lineOf (tl oneTriangleFile)).
  split; [reflexivity |]. split; [reflexivity |]. split; [reflexivity |].
  split; [discriminate |]. split; [reflexivity |].
  split; [cbn; tauto |]. split; [reflexivity |].
  constructor; [| constructor].
  unfold isTriangle, isPoint, isFloat. cbn. tauto.
Defined.

(** C1, as stated, fails: [longLineFile] conforms to the grammar, its
    lines and words being those of the file of one triangle, but one of its
    lines is longer than the buffer of [bufio.Scanner]; the line scanner
    gives up there, and [Parse] returns [false] with three lines of
    diagnostics, the triangle not being handed to the writer. *)
Lemma Parse_rejects_long_line :
  conforms decimalParseFloat (unlimitedStream longLineFile) "cube"
    [mkTriangleText ("0", "0", "1") ("0", "0", "0") ("1", "0", "0")
                    ("0", "1", "0")]
  /\ ParserGo.ParseStream decimalParseFloat extractASCIIString
       (streamOfBytes longLineFile)
     = (false,
        "Triangles had to be skipped." ++ newline
        ++ "7: bufio.Scanner: token too long" ++ newline
        ++ "7: " ++ dquote ++ "endfacet" ++ dquote ++ " expected" ++ newline,
        [SetName "cube"]).
Proof.
  split; [| vm_compute; reflexivity].
  exists (lineOf "solid cube"), (tl (linesLeft (unlimitedStream longLineFile))).
  split.
  { assert (Hhd : forall (l : list Line) (h : Line),
                    hd_error l = Some h -> l = h :: tl l).
    { intros [| h' l'] h; cbn; congruence. }
    apply Hhd. vm_compute. reflexivity. }
  split; [reflexivity |].
  split; [reflexivity |]. split; [discriminate |]. split; [reflexivity |].
  split; [vm_compute; tauto |]. split; [vm_compute; reflexivity |].
  constructor; [| constructor].
  unfold isTriangle, isPoint, isFloat. vm_compute. tauto.
Qed.

(** The second coordinate of the second vertex of the first triangle of
    [badHeaderFile] is not a float; the words that follow the broken
    triangle are those of a well-formed one and [endsolid], read without
    scanner error. *)
Lemma parseFacet_failure_witness :
  let p' := fst (facetOrSkip sampleParseFloat atFirstFacet []) in
  (exists done failing todo q tq,
    facetSteps = (done ++ failing :: todo)%list
    /\ runSteps sampleParseFloat done (atFirstFacet, zeroTriangle) = ((q, tq), true)
    /\ snd (execStep sampleParseFloat failing (q, tq)) = false
    /\ fst (fst (parseFacet sampleParseFloat (atFirstFacet, zeroTriangle)))
       = setErrors (errors q ++ expectation failing q)%list q
    /\ (length (expectation failing q) = 1%nat
        \/ (exists dst, failing = Float dst) /\ eof q = true
           /\ expectation failing q = [])
    /\ snd (facetOrSkip sampleParseFloat atFirstFacet []) = []
    /\ TrianglesSkipped p' = true
    /\ tokens p' = skipUntilSync (tokens q)
    /\ (forall bound,
          (length (tokens p') <= bound)%nat ->
          exists pL swL,
            triangleLoop sampleParseFloat bound p' [] = Some (pL, swL)
            /\ TrianglesSkipped pL = true
            /\ snd (parseEnd pL) = false)
    /\ (forall tt rest,
          isTriangle sampleParseFloat tt ->
          clean p' ->
          skipUntilSync (tokens q) = (triangleWords tt ++ rest)%list ->
          exists p'',
            tokens p'' = rest
            /\ errors p'' = errors p'
            /\ forall bound sw',
                 triangleLoop sampleParseFloat (S bound) p' sw'
                 = triangleLoop sampleParseFloat bound p''
                     (call (AppendTriangle (triangleOf sampleParseFloat tt)) sw')))
  /\ isTriangle sampleParseFloat
       (mkTriangleText ("0", "0", "1") ("0", "0", "0") ("1", "0", "0")
                       ("0", "1", "0"))
  /\ clean p'
  /\ tokens p'
     = (triangleWords (mkTriangleText ("0", "0", "1") ("0", "0", "0")
                                      ("1", "0", "0") ("0", "1", "0"))
        ++ ["endsolid"])%list.
Proof.
  intros p'. split; [| split; [| split]].
  - apply (parseFacet_failure sampleParseFloat atFirstFacet []).
    + unfold wellFormed. vm_compute. discriminate.
    + vm_compute. reflexivity.
  - unfold isTriangle, isPoint, isFloat. cbn. tauto.
  - vm_compute. tauto.
  - vm_compute. reflexivity.
Defined.

(** C5, as stated, fails: in [truncatedFile] the stream ends where the
    first coordinate of the normal is due; [parseFacet] fails there without
    recording any diagnostic, and the diagnostic text of [Parse] is the
    banner alone. *)
Lemma parseFacet_silent_at_end_of_stream :
  let p := fst (nextLine (newParser (streamOf truncatedFile))) in
  snd (parseFacet sampleParseFloat (p, zeroTriangle)) = false
  /\ errors (fst (fst (parseFacet sampleParseFloat (p, zeroTriangle)))) = errors p
  /\ ParseStream (streamOf truncatedFile)
     = (false, "Triangles had to be skipped." ++ newline, [SetName "cube"]).
Proof.
  intros p. split; [vm_compute; reflexivity |].
  split; vm_compute; reflexivity.
Qed.

(** The header of [badHeaderFile] lacks the prefix. *)
Lemma Parse_bad_header_witness :
  let p0 := newParser (streamOf badHeaderFile) in
  let pH := fst (nextLine p0) in
  exists pL swL,
    triangleLoop sampleParseFloat (S (length (pending pH))) pH [] = Some (pL, swL)
    /\ HeaderError pH = false
    /\ snd (Parse sampleParseFloat extractASCIIString p0 []) = false
    /\ snd (fst (Parse sampleParseFloat extractASCIIString p0 [])) = swL
    /\ errors (fst (fst (Parse sampleParseFloat extractASCIIString p0 [])))
       = formatError (line p0) headerMessage :: errors pL
    /\ ErrorText (fst (fst (Parse sampleParseFloat extractASCIIString p0 [])))
       = ErrorText
           (generateErrorText
              (framed true [formatError (line p0) headerMessage] pL)).
Proof.
  apply (Parse_bad_header sampleParseFloat extractASCIIString
           (streamOf badHeaderFile) (lineOf "cube") []).
  - reflexivity.
  - reflexivity.
Defined.

(** C6, as stated, fails: the input [blankFirstFile] is not empty and its
    first line, the empty one, does not start with ["solid "]; [Parse]
    takes the second line for the header, records nothing and returns
    [true]. *)
Lemma Parse_passes_over_blank_first_line :
  String.prefix expectedASCIIHeaderPrefix
    (lineBytes (hd (lineOf "solid ") (linesLeft (streamOf blankFirstFile)))) = false
  /\ ParseStream (streamOf blankFirstFile)
     = (true, EmptyString, [SetName "cube"]).
Proof. split; vm_compute; reflexivity. Qed.

(** [decimalParseFloat] treats the plain decimal literals as the library
    is documented to. *)
Lemma decimalParseFloat_range (w : string) (neg : bool) (m e bitSize : Z) :
  bitSize = 32 \/ bitSize = 64 ->
  readDecimal w = Some (neg, m, e) ->
  (below m e (limit bitSize) = true -> snd (decimalParseFloat w bitSize) = None)
  /\ (above m e (limit bitSize) = true
      -> snd (decimalParseFloat w bitSize) <> None).
Proof.
  intros _ Hd. unfold decimalParseFloat. rewrite Hd. split.
  - intros Hb. rewrite Hb. reflexivity.
  - intros Ha.
    assert (Hb : below m e (limit bitSize) = false).
    { unfold above, below in *.
      destruct (0 <=? e)%Z; apply Z.ltb_lt in Ha; apply Z.ltb_ge; lia. }
    rewrite Hb. discriminate.
Qed.

(** The literal [1e39] has the value [10^39], beyond the range of float32
    and within that of float64: it is rejected with the diagnostic of
    line 1, and accepted by a call at 64 bits. *)
Lemma parseFloat64_reduced_precision_witness :
  let p := newParser (streamOf ["1e39"]) in
  let r := parseFloat64 decimalParseFloat (coordPtr NormalPtr 0) (p, zeroTriangle) in
  eof p = false
  /\ readDecimal (currentWord p) = Some (false, 1, 39)
  /\ above 1 39 (limit 32) = true
  /\ below 1 39 (limit 64) = true
  /\ snd (decimalParseFloat (currentWord p) 64) = None
  /\ snd r = false
  /\ errors (fst (fst r)) = ["1: Unable to parse float"]
  /\ tokens (fst (fst r)) = ["1e39"].
Proof.
  intros p r.
  assert (Hp : eof p = false) by reflexivity.
  assert (Hd : readDecimal (currentWord p) = Some (false, 1, 39))
    by (vm_compute; reflexivity).
  assert (Ha : above 1 39 (limit 32) = true) by (vm_compute; reflexivity).
  assert (Hb : below 1 39 (limit 64) = true) by (vm_compute; reflexivity).
  destruct (parseFloat64_reduced_precision decimalParseFloat
              decimalParseFloat_range (coordPtr NormalPtr 0) p zeroTriangle Hp)
    as (_ & _ & Hrej & Hdec).
  destruct (Hdec false 1 39 Hd) as (_ & _ & H).
  destruct (H Ha Hb) as [H64 Hr].
  destruct (Hrej Hr) as (_ & He & Ht).
  split; [exact Hp |]. split; [exact Hd |]. split; [exact Ha |].
  split; [exact Hb |]. split; [exact H64 |]. split; [exact Hr |].
  split; [exact He | exact Ht].
Defined.

End ParseExamples.

(** ** readascii.go: the scanners and the loops *)

Module StreamFacts.
Import ParserGo ParserSpec StreamSpec ScannerFacts FacetFacts ParseFacts.
Local Open Scope string_scope.

Lemma nextWord_delivers_words_aux :
  (forall stream, tokens (newParser stream) = wordsOfLines (linesLeft stream))
  /\ (forall p, tokens (fst (nextWord p)) = tl (tokens p)
                /\ snd (nextWord p) = negb (eof (fst (nextWord p)))).
Proof.
  split.
  - intros stream. unfold newParser, nextLine. cbn [lineScanner].
    apply nextLineFrom_scanned. reflexivity.
  - intros p. destruct (eof p) eqn:Hp.
    + rewrite nextWord_eof by exact Hp. cbn [fst snd]. unfold tokens.
      rewrite Hp. auto.
    + destruct (nextWord_scanned p Hp) as (Ht & Hm & _).
      rewrite Ht. unfold tokens. rewrite Hp. auto.
Qed.

(** X3.  [newParser] stands on the first word of the stream, every
    [nextWord] moves to the next word, across the ends of lines and over
    lines without a word, and it returns [true] exactly when there is such
    a word ([tokens] being the current word and the words of the stream
    after it, up to the first scanner error). *)
Theorem nextWord_delivers_words :
  (forall stream, tokens (newParser stream) = wordsOfLines (linesLeft stream))
  /\ (forall p, tokens (fst (nextWord p)) = tl (tokens p))
  /\ (forall p, snd (nextWord p) = true <-> tl (tokens p) <> []).
Proof.
  assert (Hstep : forall p, tokens (fst (nextWord p)) = tl (tokens p)
                            /\ snd (nextWord p) = negb (eof (fst (nextWord p)))).
  { intros p. destruct (eof p) eqn:Hp.
    - rewrite nextWord_eof by exact Hp. cbn [fst snd]. unfold tokens.
      rewrite Hp. auto.
    - destruct (nextWord_scanned p Hp) as (Ht & Hm & _).
      rewrite Ht. unfold tokens. rewrite Hp. auto. }
  split; [| split].
  - intros stream. unfold newParser, nextLine. cbn [lineScanner].
    apply nextLineFrom_scanned. reflexivity.
  - intros p. apply Hstep.
  - intros p. destruct (Hstep p) as [Ht Hm]. rewrite Hm, <- Ht.
    unfold tokens. destruct (eof (fst (nextWord p))); cbn; split;
      congruence.
Qed.

(** *** The loops end *)

Lemma skipToTokenLoop_more (ident : Z) (bound : nat) :
  forall p r bound',
  skipToTokenLoop bound ident p = Some r ->
  (bound <= bound')%nat ->
  skipToTokenLoop bound' ident p = Some r.
Proof.
  induction bound as [| bound IH]; intros p r bound' H Hle;
    destruct bound' as [| bound']; try lia; cbn [skipToTokenLoop] in *;
    destruct (matchIdent ident (currentWord p)); try exact H;
    destruct (nextWord p) as [p1 more]; destruct more; cbn [negb] in *;
    try exact H; try discriminate.
  apply (IH p1 r bound' H). lia.
Qed.

(** *** Line numbers *)

Lemma advance_eof (p : parser) (byLine : bool) :
  eof p = true -> eof (advance p byLine) = true.
Proof.
  intros Hp. unfold advance. destruct byLine.
  - unfold nextLine. destruct (linesLeft (lineScanner p)) as [| l rest];
      cbn [nextLineFrom].
    + destruct (linesErr (lineScanner p)); reflexivity.
    + unfold nextWordWith. cbn [eof scanLine]. rewrite Hp. exact Hp.
  - rewrite nextWord_eof by exact Hp. exact Hp.
Qed.

Lemma nextLineFrom_positioned (lines : list Line) (ls : list Line) :
  forall p before,
  eof p = false ->
  lines = (before ++ ls)%list ->
  line p = Z.of_nat (length before) ->
  eof (fst (nextLineFrom ls p)) = false ->
  positioned lines (fst (nextLineFrom ls p)).
Proof.
  induction ls as [| l rest IH]; intros p before Hp Hl Hn; cbn [nextLineFrom].
  - destruct (linesErr (lineScanner p)); cbn; discriminate.
  - unfold nextWordWith. cbn [eof scanLine wordScanner wordsLeft wordsErr].
    rewrite Hp. destruct (lineWords l) as [| w ws] eqn:Hw.
    + destruct (lineWordsErr l) eqn:He; [cbn; discriminate |].
      apply (IH (scanLine l rest p) (before ++ [l])%list Hp).
      * rewrite <- app_assoc. exact Hl.
      * cbn [line scanLine]. rewrite length_app. cbn [length]. lia.
    + intros _. cbn [fst]. exists before, l, []. cbn.
      rewrite Hw. repeat split; auto. lia.
Qed.

Lemma advance_positioned (lines : list Line) (p : parser) (byLine : bool) :
  eof p = false ->
  positioned lines p ->
  eof (advance p byLine) = false ->
  positioned lines (advance p byLine).
Proof.
  intros Hp (before & l & seen & Hl & Hn & Hc & Hw & He).
  assert (Hline : eof (fst (nextLine p)) = false ->
                  positioned lines (fst (nextLine p))).
  { apply (nextLineFrom_positioned lines _ p (before ++ [l])%list Hp).
    - rewrite <- app_assoc. exact Hl.
    - rewrite length_app. cbn [length]. lia. }
  unfold advance. destruct byLine; [exact Hline |].
  unfold nextWord, nextWordWith. rewrite Hp.
  destruct (wordsLeft (wordScanner p)) as [| w ws] eqn:Hws.
  - destruct (wordsErr (wordScanner p)); [cbn; discriminate | exact Hline].
  - intros _. cbn [fst]. exists before, l, (seen ++ [currentWord p])%list.
    cbn. rewrite <- app_assoc. repeat split; auto.
Qed.

Lemma positioned_onLine (lines : list Line) (p : parser) :
  positioned lines p -> onLine lines p.
Proof.
  intros (before & l & seen & Hl & Hn & Hc & Hw & _). exists l.
  split; [lia |]. split; [| split; [exact Hc |]].
  - replace (Z.to_nat (line p - 1)) with (length before) by lia.
    rewrite Hl. apply list_lookup_middle. reflexivity.
  - rewrite Hw. apply in_or_app. right. left. reflexivity.
Qed.

(** X4.  The line counter of the parser is the number, counted from 1, of
    the line its current word stands on: after [newParser] and any calls of
    [nextWord] and [nextLine], a parser that is not at the end of the stream
    has the bytes of line [line p] as its current line and one of the words
    of that line as its current word.  The diagnostics of [addError] carry
    that number. *)
Theorem line_counts_lines (stream : lineScannerState) (steps : list bool) :
  let p := fold_left advance steps (newParser stream) in
  eof p = false -> onLine (linesLeft stream) p.
Proof.
  intros p Hp. apply positioned_onLine. revert Hp. subst p.
  assert (Hgen : forall steps q,
            (eof q = false -> positioned (linesLeft stream) q) ->
            eof (fold_left advance steps q) = false ->
            positioned (linesLeft stream) (fold_left advance steps q)).
  { clear steps. induction steps as [| b steps IH]; intros q Hq; cbn [fold_left].
    - exact Hq.
    - apply IH. intros Ha. destruct (eof q) eqn:He.
      + rewrite (advance_eof q b He) in Ha. discriminate.
      + apply advance_positioned; auto. }
  apply Hgen. unfold newParser, nextLine. cbn [lineScanner].
  apply (nextLineFrom_positioned _ _ _ []); reflexivity.
Qed.

(** *** Input without a word *)

Lemma nextLineFrom_blank (ls : list Line) :
  forall p,
  eof p = false ->
  linesClean ls ->
  wordsOfLines ls = [] ->
  linesErr (lineScanner p) = None ->
  eof (fst (nextLineFrom ls p)) = true
  /\ line (fst (nextLineFrom ls p)) = line p + Z.of_nat (length ls)
  /\ errors (fst (nextLineFrom ls p)) = errors p.
Proof.
  induction ls as [| l rest IH]; intros p Hp Hc Hw He; cbn [nextLineFrom].
  - rewrite He. cbn. repeat split; lia.
  - destruct Hc as [Hle Hc]. cbn [wordsOfLines] in Hw. rewrite Hle in Hw.
    apply app_eq_nil in Hw as [Hlw Hw].
    unfold nextWordWith. cbn [eof scanLine wordScanner wordsLeft wordsErr].
    rewrite Hp, Hlw, Hle.
    destruct (IH (scanLine l rest p) Hp Hc Hw He) as (H1 & H2 & H3).
    split; [exact H1 |]. split; [| exact H3].
    rewrite H2. cbn [line scanLine length]. lia.
Qed.

(** *** Properties kept by every function of the parser *)

(** The functions of the parser change it through [nextWord], [nextLine],
    [addError] and the assignments to the flags and to the text only: a
    property that these keep is kept by all of them. *)
Section Place.
Variable ParseFloat : string -> Z -> float * option string.
Variable extractASCIIString : string -> string.
Variable I : parser -> Prop.
Hypothesis I_addError : forall msg p, I p -> I (addError msg p).
Hypothesis I_setHeaderError : forall b p, I p -> I (setHeaderError b p).
Hypothesis I_setTrianglesSkipped : forall b p, I p -> I (setTrianglesSkipped b p).
Hypothesis I_setErrorText : forall txt p, I p -> I (setErrorText txt p).
Hypothesis I_nextWord : forall p, I p -> I (fst (nextWord p)).
Hypothesis I_nextLine : forall p, I p -> I (fst (nextLine p)).

Lemma I_consumeToken (ident : Z) (p : parser) :
  I p -> I (fst (consumeToken ident p)).
Proof.
  intros H. unfold consumeToken.
  destruct (negb (matchIdent ident (currentWord p))); cbn [fst];
    [apply I_addError | apply I_nextWord]; exact H.
Qed.

Lemma I_execStep (s : subStep) (st : facetState) :
  I (fst st) -> I (fst (fst (execStep ParseFloat s st))).
Proof.
  intros H. destruct st as [p t]. cbn [fst] in H.
  destruct s as [ident | dst]; cbn [execStep].
  - unfold token. cbn [fst snd].
    pose proof (I_consumeToken ident p H) as Hc.
    destruct (consumeToken ident p). exact Hc.
  - unfold parseFloat64. destruct (eof p); [exact H |].
    destruct (ParseFloat (currentWord p) 32) as [f64 [err |]]; cbn [fst].
    + apply I_addError. exact H.
    + apply I_nextWord. exact H.
Qed.

Lemma I_runSteps (steps : list subStep) :
  forall st, I (fst st) -> I (fst (fst (runSteps ParseFloat steps st))).
Proof.
  induction steps as [| s steps IH]; intros st H; cbn [runSteps]; [exact H |].
  pose proof (I_execStep s st H) as H1.
  destruct (execStep ParseFloat s st) as [st1 ok]. cbn [fst] in H1.
  destruct ok; [apply IH |]; exact H1.
Qed.

Lemma I_skipToTokenLoop (ident : Z) (bound : nat) :
  forall p r, I p -> skipToTokenLoop bound ident p = Some r -> I (fst r).
Proof.
  induction bound as [| bound IH]; intros p r H; cbn [skipToTokenLoop];
    destruct (matchIdent ident (currentWord p));
    try (destruct (ident =? Z.lor idFacet idEndsolid)%Z;
         [destruct (matchIdent idFacet (currentWord p)) |];
         intros [= <-]; exact H).
  all: pose proof (I_nextWord p H) as H1;
    destruct (nextWord p) as [p1 more]; cbn [fst] in H1;
    destruct more; cbn [negb]; try discriminate;
    try (intros [= <-]; exact H1).
  apply IH. exact H1.
Qed.

Lemma I_skipToToken (ident : Z) (p : parser) :
  I p -> I (fst (skipToToken ident p)).
Proof.
  intros H. unfold skipToToken.
  destruct (skipToTokenLoop (length (pending p)) ident p) as [r |] eqn:E.
  - exact (I_skipToTokenLoop ident _ p r H E).
  - exact H.
Qed.

Lemma I_resync (p : parser) : I p -> I (fst (resync p)).
Proof.
  intros H. unfold resync.
  destruct (negb (isCurrentTokenIdent idFacet p)); [| exact H].
  set (q := addError _ p).
  pose proof (I_skipToToken (Z.lor idFacet idEndsolid) q (I_addError _ p H)) as H1.
  destruct (skipToToken (Z.lor idFacet idEndsolid) q) as [p2 found].
  destruct (_ || _)%bool; exact H1.
Qed.

Lemma I_facetOrSkip (p : parser) (sw : Writer) :
  I p -> I (fst (facetOrSkip ParseFloat p sw)).
Proof.
  intros H. unfold facetOrSkip.
  pose proof (I_runSteps facetSteps (p, zeroTriangle) H) as H1.
  rewrite <- parseFacet_steps in H1.
  destruct (parseFacet ParseFloat (p, zeroTriangle)) as [[p1 t] ok].
  cbn [fst] in *. destruct ok; cbn [fst]; [exact H1 |].
  apply I_skipToToken, I_setTrianglesSkipped, H1.
Qed.

Lemma I_triangleLoop (bound : nat) :
  forall p sw r, I p -> triangleLoop ParseFloat bound p sw = Some r -> I (fst r).
Proof.
  induction bound as [| bound IH]; intros p sw r H; cbn [triangleLoop];
    destruct (negb (eof p) && negb (isCurrentTokenIdent idEndsolid p));
    try discriminate; try (intros [= <-]; exact H).
  pose proof (I_resync p H) as H1.
  destruct (resync p) as [p1 leave]. cbn [fst] in H1.
  destruct leave; [intros [= <-]; exact H1 |].
  pose proof (I_facetOrSkip p1 sw H1) as H2.
  destruct (facetOrSkip ParseFloat p1 sw) as [p2 sw2]. cbn [fst] in H2.
  apply IH. exact H2.
Qed.

Lemma I_parseBody (p : parser) (sw : Writer) :
  I p -> I (fst (parseBody ParseFloat extractASCIIString p sw)).
Proof.
  intros H. unfold parseBody. destruct (eof p) eqn:Hp.
  - cbn [fst]. apply I_addError, I_setHeaderError, H.
  - unfold parseASCIIHeaderLine. rewrite Hp.
    pose proof I_setHeaderError as Hset.
    destruct (negb (String.prefix expectedASCIIHeaderPrefix (currentLineBytes p)));
      cbn [fst snd].
    + set (p2 := setHeaderError _ _).
      assert (H2 : I p2) by (apply Hset, I_nextLine, I_addError, H).
      destruct (triangleLoop ParseFloat (S (length (pending p2))) p2 sw)
        as [r |] eqn:E; [exact (I_triangleLoop _ _ _ _ H2 E) | exact H2].
    + set (p2 := setHeaderError _ _). set (sw1 := call _ sw).
      assert (H2 : I p2) by (apply Hset, I_nextLine, H).
      destruct (triangleLoop ParseFloat (S (length (pending p2))) p2 sw1)
        as [r |] eqn:E; [exact (I_triangleLoop _ _ _ _ H2 E) | exact H2].
Qed.

Lemma I_Parse (p : parser) (sw : Writer) :
  I p -> I (fst (fst (Parse ParseFloat extractASCIIString p sw))).
Proof.
  intros H. unfold Parse.
  pose proof (I_parseBody p sw H) as H1.
  destruct (parseBody ParseFloat extractASCIIString p sw) as [p1 sw1].
  cbn [fst] in H1. unfold parseEnd.
  destruct (negb (HeaderError p1) && negb (TrianglesSkipped p1)).
  - pose proof (I_consumeToken idEndsolid p1 H1) as H2.
    destruct (consumeToken idEndsolid p1) as [p2 ok]. cbn [fst] in *.
    apply I_setErrorText. exact H2.
  - cbn [fst]. apply I_setErrorText. exact H1.
Qed.

End Place.

(** Two instances: the place in the stream, and the diagnostics recorded. *)
Lemma samePlace_setters (p : parser) :
  (forall msg, samePlace p (addError msg p))
  /\ (forall b, samePlace p (setHeaderError b p))
  /\ (forall b, samePlace p (setTrianglesSkipped b p))
  /\ (forall txt, samePlace p (setErrorText txt p)).
Proof. unfold samePlace. cbn. auto 10. Qed.

Lemma errors_extend_nextWord (p : parser) :
  exists es, errors (fst (nextWord p)) = (errors p ++ es)%list.
Proof.
  pose proof (framed_nextWord (HeaderError p) (errors p) (setErrors [] p)) as H.
  replace (framed (HeaderError p) (errors p) (setErrors [] p)) with p in H
    by (destruct p; unfold framed; cbn; rewrite app_nil_r; reflexivity).
  rewrite H. eexists. reflexivity.
Qed.

Lemma errors_extend_nextLine (p : parser) :
  exists es, errors (fst (nextLine p)) = (errors p ++ es)%list.
Proof.
  pose proof (framed_nextLine (HeaderError p) (errors p) (setErrors [] p)) as H.
  replace (framed (HeaderError p) (errors p) (setErrors [] p)) with p in H
    by (destruct p; unfold framed; cbn; rewrite app_nil_r; reflexivity).
  rewrite H. eexists. reflexivity.
Qed.

Section Loops.
Variable ParseFloat : string -> Z -> float * option string.
Variable extractASCIIString : string -> string.

Lemma triangleLoop_more (bound : nat) :
  forall p sw r bound',
  triangleLoop ParseFloat bound p sw = Some r ->
  (bound <= bound')%nat ->
  triangleLoop ParseFloat bound' p sw = Some r.
Proof.
  induction bound as [| bound IH]; intros p sw r bound' H Hle;
    destruct bound' as [| bound']; try lia; cbn [triangleLoop] in *;
    destruct (negb (eof p) && negb (isCurrentTokenIdent idEndsolid p));
    try exact H; try discriminate.
  destruct (resync p) as [p1 leave]. destruct leave; [exact H |].
  destruct (facetOrSkip ParseFloat p1 sw) as [p2 sw2].
  apply (IH p2 sw2 r bound' H). lia.
Qed.

(** X6.  Both loops of the parser end: [skipToToken] needs at most one turn
    per pending word and [TriangleLoop] at most one more, on every parser
    whose current word is empty at the end of the stream (as it is after
    [newParser] and after every step of [Parse]); with more turns allowed
    the result is the same. *)
Theorem Parse_loops_end (p : parser) (sw : Writer) (ident : Z) (bound : nat) :
  wellFormed p ->
  (length (pending p) <= bound)%nat ->
  skipToTokenLoop bound ident p = Some (skipToToken ident p)
  /\ (exists r, triangleLoop ParseFloat (S (length (pending p))) p sw = Some r
                /\ triangleLoop ParseFloat (S bound) p sw = Some r).
Proof.
  intros Hwf Hle. split.
  - unfold skipToToken.
    destruct (skipToTokenLoop (length (pending p)) ident p) as [r |] eqn:E.
    + exact (skipToTokenLoop_more ident _ p r bound E Hle).
    + exfalso. exact (skipToToken_bound ident p E).
  - destruct (triangleLoop_total ParseFloat (S (length (pending p))) p sw Hwf)
      as (pL & swL & HL & _).
    { unfold tokens. destruct (eof p); cbn [length]; lia. }
    exists (pL, swL). split; [exact HL |].
    apply (triangleLoop_more _ p sw (pL, swL) (S bound) HL). lia.
Qed.

(** *** The calls made to the writer *)

Lemma facetOrSkip_calls (p : parser) (sw : Writer) :
  snd (facetOrSkip ParseFloat p sw) = sw
  \/ exists t, snd (facetOrSkip ParseFloat p sw) = (sw ++ [AppendTriangle t])%list.
Proof.
  unfold facetOrSkip.
  destruct (parseFacet ParseFloat (p, zeroTriangle)) as [[p1 t] ok].
  destruct ok; cbn [snd]; [right; exists t; reflexivity | left; reflexivity].
Qed.

Lemma triangleLoop_calls (bound : nat) :
  forall p sw pL swL,
  triangleLoop ParseFloat bound p sw = Some (pL, swL) ->
  exists ts, swL = (sw ++ map AppendTriangle ts)%list.
Proof.
  induction bound as [| bound IH]; intros p sw pL swL; cbn [triangleLoop];
    destruct (negb (eof p) && negb (isCurrentTokenIdent idEndsolid p));
    try discriminate;
    try (intros [= <- <-]; exists []; cbn; rewrite app_nil_r; reflexivity).
  destruct (resync p) as [p1 leave]. destruct leave.
  - intros [= <- <-]. exists []. cbn. rewrite app_nil_r. reflexivity.
  - pose proof (facetOrSkip_calls p1 sw) as Hc.
    destruct (facetOrSkip ParseFloat p1 sw) as [p2 sw2]. cbn [snd] in Hc.
    intros HL. destruct (IH p2 sw2 pL swL HL) as [ts Hts].
    destruct Hc as [-> | [t ->]].
    + exists ts. exact Hts.
    + exists (t :: ts). rewrite Hts, <- app_assoc. reflexivity.
Qed.

Lemma Parse_calls (p : parser) (sw : Writer) :
  exists ts,
    snd (fst (Parse ParseFloat extractASCIIString p sw))
    = (sw ++ headerCalls extractASCIIString p ++ map AppendTriangle ts)%list.
Proof.
  unfold Parse, parseBody, headerCalls, headerValid.
  destruct (eof p) eqn:Hp; cbn [negb andb].
  - exists []. destruct (parseEnd _). cbn. rewrite app_nil_r. reflexivity.
  - unfold parseASCIIHeaderLine. rewrite Hp.
    destruct (String.prefix expectedASCIIHeaderPrefix (currentLineBytes p));
      cbn [negb fst snd].
    + fold (headerName extractASCIIString p).
      set (p2 := setHeaderError false _).
      set (sw1 := call _ sw).
      destruct (triangleLoop ParseFloat (S (length (pending p2))) p2 sw1)
        as [[pL swL] |] eqn:HL.
      * destruct (triangleLoop_calls _ _ _ _ _ HL) as [ts ->].
        exists ts. destruct (parseEnd pL). cbn [fst snd]. subst sw1.
        unfold call. rewrite <- app_assoc. reflexivity.
      * exists []. destruct (parseEnd p2). cbn [fst snd map]. subst sw1.
        unfold call. rewrite app_nil_r. reflexivity.
    + set (p2 := setHeaderError true _).
      destruct (triangleLoop ParseFloat (S (length (pending p2))) p2 sw)
        as [[pL swL] |] eqn:HL.
      * destruct (triangleLoop_calls _ _ _ _ _ HL) as [ts ->].
        exists ts. destruct (parseEnd pL). reflexivity.
      * exists []. destruct (parseEnd p2). cbn. rewrite app_nil_r. reflexivity.
Qed.

(** X7.  Whatever the input, [Parse] leaves the calls the writer had
    received before in place and adds: [SetName], once and first, exactly
    when the header line is there and starts with the prefix; then
    [AppendTriangle] calls only.  It never calls [SetBinaryHeader] or
    [SetTriangleCount]. *)
Theorem Parse_writer_calls (p : parser) (sw : Writer) :
  let calls := snd (fst (Parse ParseFloat extractASCIIString p sw)) in
  (exists ts,
     calls = (sw ++ headerCalls extractASCIIString p ++ map AppendTriangle ts)%list)
  /\ (forall c, In c (skipn (length sw) calls) ->
                match c with
                | SetBinaryHeader _ | SetTriangleCount _ => False
                | SetName _ | AppendTriangle _ => True
                end).
Proof.
  intros calls. destruct (Parse_calls p sw) as [ts Hts]. fold calls in Hts.
  split; [exists ts; exact Hts |].
  intros c. rewrite Hts, skipn_app, skipn_all, Nat.sub_diag. cbn [skipn app].
  intros Hin. apply in_app_or in Hin as [Hin | Hin].
  - unfold headerCalls in Hin. destruct (headerValid p); cbn in Hin.
    + destruct Hin as [<- | []]. exact I.
    + contradiction.
  - apply in_map_iff in Hin as (t & <- & _). exact I.
Qed.

(** X8.  On a stream without a word (no line, or lines without a word)
    [Parse] returns [false], makes no call to the writer and adds the
    diagnostic [File is empty] to what the scanners reported, with the
    number of lines read as its line number: for input without scanner
    error the text is [<number of lines>: File is empty], so [0: ...] for
    the empty input. *)
Theorem Parse_empty_input (stream : lineScannerState) (sw : Writer) :
  wordsOfLines (linesLeft stream) = [] ->
  let p0 := newParser stream in
  let r := Parse ParseFloat extractASCIIString p0 sw in
  snd r = false
  /\ snd (fst r) = sw
  /\ errors (fst (fst r))
     = (errors p0 ++ [formatError (line p0) "File is empty"])%list
  /\ (linesClean (linesLeft stream) -> linesErr stream = None ->
      ErrorText (fst (fst r))
      = formatError (Z.of_nat (length (linesLeft stream))) "File is empty"
        ++ newline).
Proof.
  intros Hw p0 r.
  assert (Hp0 : eof p0 = true).
  { apply tokens_eof. subst p0.
    destruct nextWord_delivers_words_aux as [H _]. rewrite H. exact Hw. }
  subst r. unfold Parse, parseBody. rewrite Hp0. unfold parseEnd.
  cbn [HeaderError addError setErrors setHeaderError negb andb fst snd].
  split; [reflexivity |]. split; [reflexivity |]. split; [reflexivity |].
  intros Hc He. unfold generateErrorText, setErrorText.
  cbn [TrianglesSkipped ErrorText errors line].
  destruct (nextLineFrom_blank (linesLeft stream)
              (mkParser 0 [] EmptyString None false stream
                        (mkWordScanner [] None) false false EmptyString)
              eq_refl Hc Hw He) as (_ & Hl & Herr).
  change (fst (nextLineFrom _ _)) with p0 in Hl, Herr.
  cbn [line errors] in Hl, Herr.
  assert (Hs : TrianglesSkipped p0 = false).
  { destruct (nextLineFrom_scanned (linesLeft stream)
                (mkParser 0 [] EmptyString None false stream
                          (mkWordScanner [] None) false false EmptyString)
                eq_refl) as (_ & _ & _ & Hs & _).
    exact Hs. }
  change (TrianglesSkipped (addError "File is empty" (setHeaderError true p0)))
    with (TrianglesSkipped p0).
  change (errors (addError "File is empty" (setHeaderError true p0)))
    with (errors p0 ++ [formatError (line p0) "File is empty"])%list.
  rewrite Hs, Herr, Hl. reflexivity.
Qed.

(** *** Success needs [endsolid] *)

Lemma samePlace_positioned (lines : list Line) (p q : parser) :
  samePlace p q ->
  (eof p = false -> positioned lines p) ->
  eof q = false -> positioned lines q.
Proof.
  intros (H1 & H2 & H3 & H4 & H5 & H6) Hp Hq. rewrite <- H4 in Hq.
  destruct (Hp Hq) as (before & l & seen & Ha & Hb & Hc & Hd & He).
  exists before, l, seen. rewrite <- H1, <- H2, <- H3, <- H5, <- H6. auto.
Qed.

Lemma advance_keeps_positioned (lines : list Line) (p : parser) (byLine : bool) :
  (eof p = false -> positioned lines p) ->
  eof (advance p byLine) = false -> positioned lines (advance p byLine).
Proof.
  intros Hp Ha. destruct (eof p) eqn:He.
  - rewrite (advance_eof p byLine He) in Ha. discriminate.
  - apply advance_positioned; auto.
Qed.

(** X9.  [Parse] returns [true] only when the header line is valid and
    the word [endsolid] stands on a line of the input: input that was cut
    off before its [endsolid] is never accepted. *)
Theorem Parse_needs_endsolid (stream : lineScannerState) (sw : Writer) :
  snd (Parse ParseFloat extractASCIIString (newParser stream) sw) = true ->
  headerValid (newParser stream) = true
  /\ exists l, In l (linesLeft stream) /\ In "endsolid" (lineWords l).
Proof.
  set (p0 := newParser stream). intros Hok.
  pose proof (parseBody_HeaderError ParseFloat extractASCIIString p0 sw) as Hh.
  assert (HI : eof (fst (parseBody ParseFloat extractASCIIString p0 sw)) = false ->
               positioned (linesLeft stream)
                 (fst (parseBody ParseFloat extractASCIIString p0 sw))).
  { apply (I_parseBody ParseFloat extractASCIIString
             (fun p => eof p = false -> positioned (linesLeft stream) p)).
    - intros msg p. apply samePlace_positioned, samePlace_setters.
    - intros b p. apply samePlace_positioned, samePlace_setters.
    - intros b p. apply samePlace_positioned, samePlace_setters.
    - intros p. apply (advance_keeps_positioned _ p false).
    - intros p. apply (advance_keeps_positioned _ p true).
    - subst p0. unfold newParser, nextLine. cbn [lineScanner].
      apply (nextLineFrom_positioned _ _ _ []); reflexivity. }
  assert (Hwf : wellFormed (fst (parseBody ParseFloat extractASCIIString p0 sw))
                \/ HeaderError (fst (parseBody ParseFloat extractASCIIString p0 sw))
                   = true).
  { destruct (eof p0) eqn:Hp0.
    - right. rewrite Hh. unfold headerValid. rewrite Hp0. reflexivity.
    - left. destruct (parseBody_runs_loop ParseFloat extractASCIIString p0 sw Hp0)
        as (pL & swL & _ & -> & _ & Hw). exact Hw. }
  unfold Parse, parseEnd in Hok.
  destruct (parseBody ParseFloat extractASCIIString p0 sw) as [pL swL].
  cbn [fst] in *.
  destruct (HeaderError pL) eqn:HhL; cbn [negb andb] in Hok; [discriminate |].
  destruct (TrianglesSkipped pL); cbn [negb andb] in Hok; [discriminate |].
  unfold consumeToken in Hok. rewrite matchIdent_endsolid in Hok.
  destruct (String.eqb_spec (currentWord pL) "endsolid") as [Hw | Hw];
    cbn [negb fst snd] in Hok; [| discriminate].
  split.
  - symmetry in Hh. apply negb_false_iff in Hh. exact Hh.
  - destruct Hwf as [Hwf | Hwf]; [| discriminate].
    assert (HeL : eof pL = false).
    { destruct (eof pL) eqn:E; [| reflexivity].
      rewrite (Hwf E) in Hw. discriminate. }
    destruct (HI HeL) as (before & l & seen & Ha & _ & _ & Hd & _).
    exists l. split.
    + rewrite Ha. apply in_or_app. right. left. reflexivity.
    + rewrite Hd, Hw. apply in_or_app. right. left. reflexivity.
Qed.

(** X10.  [Parse] never discards a diagnostic: those recorded before the
    call are still there after it, in their order, before the new ones. *)
Theorem Parse_keeps_diagnostics (p : parser) (sw : Writer) :
  exists es,
    errors (fst (fst (Parse ParseFloat extractASCIIString p sw)))
    = (errors p ++ es)%list.
Proof.
  apply (I_Parse ParseFloat extractASCIIString
           (fun q => exists es, errors q = (errors p ++ es)%list)).
  - intros msg q [es Hq]. exists (es ++ [formatError (line q) msg])%list.
    cbn [errors addError setErrors]. rewrite Hq, <- app_assoc. reflexivity.
  - intros b q H. exact H.
  - intros b q H. exact H.
  - intros txt q H. exact H.
  - intros q [es Hq]. destruct (errors_extend_nextWord q) as [es' ->].
    exists (es ++ es')%list. rewrite Hq, <- app_assoc. reflexivity.
  - intros q [es Hq]. destruct (errors_extend_nextLine q) as [es' ->].
    exists (es ++ es')%list. rewrite Hq, <- app_assoc. reflexivity.
  - exists []. rewrite app_nil_r. reflexivity.
Qed.

End Loops.

End StreamFacts.

(** ** readascii.go: stray words and broken triangles *)

Module RecoveryFacts.
Import ParserGo ParserSpec StreamSpec ScannerFacts FacetFacts ParseFacts.
Local Open Scope string_scope.

Ltac conjs := repeat match goal with |- _ /\ _ => split end.

Lemma skipUntilSync_stray (ws rest : list string) :
  noSync ws = true -> skipUntilSync (ws ++ rest) = skipUntilSync rest.
Proof.
  induction ws as [| w ws IH]; cbn; [reflexivity |].
  intros H. apply andb_prop in H as [H1 H2].
  destruct (isSync w); [discriminate | auto].
Qed.

Lemma isSync_endsolid (w : string) :
  isSync w = false -> String.eqb w "endsolid" = false.
Proof. unfold isSync. intros H. apply orb_false_elim in H as [_ H]. exact H. Qed.

Lemma isSync_facet (w : string) :
  isSync w = false -> String.eqb w "facet" = false.
Proof. unfold isSync. intros H. apply orb_false_elim in H as [H _]. exact H. Qed.

(** Skipping in a stream without scanner errors records nothing. *)
Lemma skipToTokenLoop_clean (ident : Z) (bound : nat) :
  forall p r,
  clean p ->
  skipToTokenLoop bound ident p = Some r ->
  clean (fst r) /\ errors (fst r) = errors p.
Proof.
  induction bound as [| bound IH]; intros p r Hc; cbn [skipToTokenLoop];
    destruct (matchIdent ident (currentWord p));
    try (destruct (ident =? Z.lor idFacet idEndsolid)%Z;
         [destruct (matchIdent idFacet (currentWord p)) |];
         intros [= <-]; auto).
  all: destruct (eof p) eqn:Hp;
    [ rewrite nextWord_eof by exact Hp; cbn [negb]; intros [= <-]; auto |].
  all: destruct (nextWord_clean p Hp Hc) as [Hc1 He1];
    destruct (nextWord p) as [p1 more]; cbn [fst] in *;
    destruct more; cbn [negb]; try discriminate;
    try (intros [= <-]; auto).
  intros Hr. destruct (IH p1 r Hc1 Hr) as [H1 H2]. split; congruence.
Qed.

Lemma skipToToken_clean (p : parser) :
  clean p ->
  let r := skipToToken (Z.lor idFacet idEndsolid) p in
  clean (fst r) /\ errors (fst r) = errors p.
Proof.
  intros Hc r. subst r. unfold skipToToken.
  destruct (skipToTokenLoop (length (pending p)) (Z.lor idFacet idEndsolid) p)
    as [r |] eqn:E.
  - exact (skipToTokenLoop_clean _ _ p r Hc E).
  - auto.
Qed.

Lemma tokens_wellFormed (p : parser) (w : string) (ws : list string) :
  tokens p = w :: ws -> wellFormed p.
Proof.
  intros H. apply tokens_cons in H as (Hp & _). unfold wellFormed.
  rewrite Hp. discriminate.
Qed.

(** Stray words before a [facet]: one diagnostic, and the loop goes on. *)
Lemma resync_stray_facet (p : parser) (strayW rest : list string) :
  clean p ->
  noSync strayW = true ->
  tokens p = (strayW ++ "facet" :: rest)%list ->
  exists p1 es,
    resync p = (p1, false)
    /\ tokens p1 = "facet" :: rest
    /\ clean p1
    /\ errors p1 = (errors p ++ es)%list
    /\ Forall2 numbered es (match strayW with [] => [] | _ :: _ => [strayMessage] end)
    /\ TrianglesSkipped p1 = TrianglesSkipped p.
Proof.
  intros Hc Hn Ht. unfold resync, isCurrentTokenIdent.
  destruct strayW as [| w ws].
  - cbn [app] in Ht. apply tokens_cons in Ht as Hparts.
    destruct Hparts as (_ & Hw & _). rewrite Hw.
    replace (matchIdent idFacet "facet") with true by reflexivity. cbn [negb].
    exists p, []. rewrite app_nil_r. conjs; auto.
  - cbn [app] in Ht. apply tokens_cons in Ht as Hparts.
    destruct Hparts as (Hp & Hw & _).
    cbn [noSync forallb] in Hn. apply andb_prop in Hn as [Hw1 Hn].
    apply negb_true_iff in Hw1.
    rewrite matchIdent_facet, Hw, (isSync_facet w Hw1). cbn [negb].
    fold strayMessage. set (q := addError strayMessage p).
    assert (Htq : tokens q = w :: (ws ++ "facet" :: rest)%list) by exact Ht.
    assert (Hcq : clean q) by exact Hc.
    pose proof (skipToToken_sync q (tokens_wellFormed q _ _ Htq))
      as (Hts & Hcode & _ & Hsk).
    pose proof (skipToToken_clean q Hcq) as (Hc2 & He2).
    destruct (skipToToken (Z.lor idFacet idEndsolid) q) as [p2 found].
    cbn [fst snd] in *.
    rewrite Htq in Hts. cbn [skipUntilSync] in Hts. rewrite Hw1 in Hts.
    rewrite (skipUntilSync_stray ws _ Hn) in Hts. cbn in Hts.
    rewrite Hts in Hcode. cbn in Hcode. subst found. cbn.
    exists p2, [formatError (line p) strayMessage].
    conjs; auto.
    constructor; [exists (line p); reflexivity | constructor].
Qed.

(** Stray words before [endsolid]: one diagnostic, and the loop is left. *)
Lemma resync_stray_end (p : parser) (w : string) (ws rest : list string) :
  clean p ->
  noSync (w :: ws) = true ->
  tokens p = ((w :: ws) ++ "endsolid" :: rest)%list ->
  exists p1,
    resync p = (p1, true)
    /\ tokens p1 = "endsolid" :: rest
    /\ clean p1
    /\ errors p1 = (errors p ++ [formatError (line p) strayMessage])%list
    /\ TrianglesSkipped p1 = TrianglesSkipped p.
Proof.
  intros Hc Hn Ht. unfold resync, isCurrentTokenIdent.
  cbn [app] in Ht. apply tokens_cons in Ht as Hparts.
  destruct Hparts as (Hp & Hw & _).
  cbn [noSync forallb] in Hn. apply andb_prop in Hn as [Hw1 Hn].
  apply negb_true_iff in Hw1.
  rewrite matchIdent_facet, Hw, (isSync_facet w Hw1). cbn [negb].
  fold strayMessage. set (q := addError strayMessage p).
  assert (Htq : tokens q = w :: (ws ++ "endsolid" :: rest)%list) by exact Ht.
  assert (Hcq : clean q) by exact Hc.
  pose proof (skipToToken_sync q (tokens_wellFormed q _ _ Htq))
    as (Hts & Hcode & _ & Hsk).
  pose proof (skipToToken_clean q Hcq) as (Hc2 & He2).
  destruct (skipToToken (Z.lor idFacet idEndsolid) q) as [p2 found].
  cbn [fst snd] in *.
  rewrite Htq in Hts. cbn [skipUntilSync] in Hts. rewrite Hw1 in Hts.
  rewrite (skipUntilSync_stray ws _ Hn) in Hts. cbn in Hts.
  rewrite Hts in Hcode. cbn in Hcode. subst found. cbn.
  exists p2. conjs; auto.
Qed.

Section Recovery.
Variable ParseFloat : string -> Z -> float * option string.
Variable extractASCIIString : string -> string.

Lemma facetWords_head (b : facetText) :
  facetTextOk ParseFloat b -> exists ws, facetWords b = "facet" :: ws.
Proof.
  destruct b as [txt | done failing ws bad]; cbn [facetTextOk facetWords].
  - intros _. eexists. reflexivity.
  - intros ([todo Hsplit] & Hne & Hacc & _).
    destruct done as [| s done']; [contradiction |].
    assert (Hs : s = Keyword idFacet).
    { unfold facetSteps in Hsplit. cbn [app] in Hsplit.
      injection Hsplit as Hs _. symmetry. exact Hs. }
    subst s. destruct ws as [| w ws']; cbn [allAccepted] in Hacc;
      [contradiction |].
    destruct Hacc as [Hw _]. cbn [acceptsWord] in Hw.
    rewrite matchIdent_facet in Hw. apply String.eqb_eq in Hw. subst w.
    eexists. reflexivity.
Qed.

(** A broken triangle: the parser stops at the bad word with one
    diagnostic. *)
Lemma parseFacet_broken (done : list subStep) (failing : subStep)
    (ws : list string) (bad : string) (p : parser) (rest : list string) :
  facetTextOk ParseFloat (Broken done failing ws bad) ->
  clean p ->
  tokens p = (ws ++ bad :: rest)%list ->
  exists p1 t n,
    parseFacet ParseFloat (p, zeroTriangle) = ((p1, t), false)
    /\ tokens p1 = bad :: rest
    /\ clean p1
    /\ errors p1 = (errors p ++ [formatError n (expectationMessage failing)])%list
    /\ TrianglesSkipped p1 = TrianglesSkipped p.
Proof.
  intros ([todo Hsplit] & _ & Hacc & Hbad & _) Hc Ht.
  rewrite parseFacet_steps, Hsplit, runSteps_app. unfold andThen.
  destruct (runSteps_accepted ParseFloat done ws p zeroTriangle (bad :: rest)
              Hacc Hc Ht) as (q & Hrun & Htq & Hcq & Heq & Hsq).
  rewrite Hrun. cbn [ParserSpec.runSteps].
  apply tokens_cons in Htq as Hparts. destruct Hparts as (Hq & Hw & _).
  destruct (execStep ParseFloat failing
              (q, writeAll ParseFloat done ws zeroTriangle))
    as [st' ok] eqn:Hex.
  destruct ok.
  - exfalso. apply execStep_succeeds in Hex as [Ha _]. apply Hbad.
    destruct failing as [ident | dst]; cbn [accepts acceptsWord] in *.
    + rewrite <- Hw. exact Ha.
    + unfold isFloat. rewrite <- Hw. apply Ha.
  - apply execStep_fails in Hex. subst st'.
    exists (setErrors (errors q ++ expectation failing q)%list q),
           (writeAll ParseFloat done ws zeroTriangle), (line q).
    split; [reflexivity |]. split; [exact Htq |]. split; [exact Hcq |].
    split; [| exact Hsq].
    cbn [errors setErrors]. rewrite Heq. f_equal.
    destruct failing as [ident | dst]; cbn [expectation expectationMessage];
      [reflexivity |].
    rewrite Hq. reflexivity.
Qed.

(** The loop on stray words, whole triangles and broken triangles. *)
Lemma triangleLoop_items (items : list item) :
  forall afterBroken bound p sw strayEnd trailer,
  (length items < bound)%nat ->
  Forall (itemOk ParseFloat) items ->
  noSync strayEnd = true ->
  clean p ->
  tokens p
  = (if afterBroken : bool
     then skipUntilSync (concat (map itemWords items) ++ strayEnd
                         ++ "endsolid" :: trailer)
     else concat (map itemWords items) ++ strayEnd ++ "endsolid" :: trailer)%list ->
  exists pL es,
    triangleLoop ParseFloat bound p sw
    = Some (pL, (sw ++ map AppendTriangle (delivered ParseFloat items))%list)
    /\ tokens pL = "endsolid" :: trailer
    /\ clean pL
    /\ errors pL = (errors p ++ es)%list
    /\ Forall2 numbered es (messages afterBroken items strayEnd)
    /\ TrianglesSkipped pL = TrianglesSkipped p || negb (forallb isWhole items).
Proof.
  induction items as [| it rest IH];
    intros afterBroken bound p sw strayEnd trailer Hb Hall Hse Hc Ht.
  - cbn [map concat app] in Ht.
    cbn [delivered flat_map map forallb negb messages]. rewrite app_nil_r, orb_false_r.
    assert (Hend : forall q, tokens q = "endsolid" :: trailer ->
              triangleLoop ParseFloat bound q sw = Some (q, sw)).
    { intros q Hq. apply tokens_cons in Hq as (Hq1 & Hq2 & _).
      destruct bound; cbn [triangleLoop]; unfold isCurrentTokenIdent;
        rewrite Hq1, Hq2; reflexivity. }
    destruct strayEnd as [| w ws].
    + assert (Ht' : tokens p = "endsolid" :: trailer)
        by (destruct afterBroken; exact Ht).
      exists p, []. rewrite app_nil_r. conjs; auto.
    + destruct afterBroken.
      * rewrite (skipUntilSync_stray (w :: ws) _ Hse) in Ht. cbn in Ht.
        exists p, []. rewrite app_nil_r. conjs; auto.
      * destruct (resync_stray_end p w ws trailer Hc Hse Ht)
          as (p1 & Hr & Ht1 & Hc1 & He1 & Hs1).
        exists p1, [formatError (line p) strayMessage].
        conjs; auto.
        -- destruct bound as [| bound]; [lia |].
           cbn [app] in Ht. apply tokens_cons in Ht as (Hp & Hw & _).
           cbn [noSync forallb] in Hse. apply andb_prop in Hse as [Hw1 _].
           apply negb_true_iff in Hw1.
           cbn [triangleLoop]. unfold isCurrentTokenIdent.
           rewrite Hp, matchIdent_endsolid, Hw, (isSync_endsolid w Hw1).
           cbn [negb andb]. rewrite Hr. reflexivity.
        -- constructor; [exists (line p); reflexivity | constructor].
  - destruct bound as [| bound]; [cbn in Hb; lia |].
    apply Forall_cons_iff in Hall as [[Hstray Hbody] Hall'].
    destruct (facetWords_head (body it) Hbody) as [fw Hfw].
    set (W' := (concat (map itemWords rest) ++ strayEnd
                ++ "endsolid" :: trailer)%list) in *.
    set (strayEff := if afterBroken then [] else stray it).
    assert (Ht' : tokens p = (strayEff ++ "facet" :: fw ++ W')%list).
    { rewrite Ht. cbn [map concat]. unfold itemWords. rewrite Hfw.
      subst strayEff. rewrite <- !app_assoc. cbn [app].
      destruct afterBroken; [| reflexivity].
      rewrite (skipUntilSync_stray _ _ Hstray). reflexivity. }
    assert (Hse' : noSync strayEff = true)
      by (subst strayEff; destruct afterBroken; [reflexivity | exact Hstray]).
    destruct (resync_stray_facet p strayEff (fw ++ W')%list Hc Hse' Ht')
      as (p1 & es1 & Hr & Ht1 & Hc1 & He1 & Hm1 & Hs1).
    assert (Hcond : negb (eof p) && negb (isCurrentTokenIdent idEndsolid p) = true).
    { unfold isCurrentTokenIdent. rewrite matchIdent_endsolid.
      destruct strayEff as [| w ws]; cbn [app] in Ht';
        apply tokens_cons in Ht' as (Hp & Hw & _); rewrite Hp, Hw.
      - reflexivity.
      - cbn [noSync forallb] in Hse'. apply andb_prop in Hse' as [Hw1 _].
        apply negb_true_iff in Hw1. rewrite (isSync_endsolid w Hw1). reflexivity. }
    assert (Hmsg : forall tl,
              (match stray it with
               | [] => []
               | _ :: _ => if afterBroken then [] else [strayMessage]
               end ++ tl)%list
              = (match strayEff with [] => [] | _ :: _ => [strayMessage] end ++ tl)%list).
    { intros tl. subst strayEff. destruct afterBroken; destruct (stray it); reflexivity. }
    cbn [triangleLoop]. rewrite Hcond, Hr. unfold facetOrSkip.
    change ("facet" :: fw ++ W')%list with (("facet" :: fw) ++ W')%list in Ht1.
    rewrite <- Hfw in Ht1.
    destruct (body it) as [txt | done failing ws bad] eqn:Hbd.
    + cbn [facetWords] in Ht1. cbn [facetTextOk] in Hbody.
      destruct (parseFacet_conforming ParseFloat txt p1 W' Hbody Hc1 Ht1)
        as (p2 & Hpf & Ht2 & Hc2 & He2 & Hs2).
      rewrite Hpf.
      destruct (IH false bound p2 (call (AppendTriangle (triangleOf ParseFloat txt)) sw)
                  strayEnd trailer ltac:(cbn in Hb; lia) Hall' Hse Hc2 Ht2)
        as (pL & es & HL & HtL & HcL & HeL & HmL & HsL).
      exists pL, (es1 ++ es)%list. conjs; auto.
      * rewrite HL. unfold call. cbn [delivered flat_map]. rewrite Hbd.
        cbn [app map]. rewrite <- app_assoc. reflexivity.
      * rewrite HeL, He2, He1, <- app_assoc. reflexivity.
      * cbn [messages]. rewrite Hbd, Hmsg. apply Forall2_app; assumption.
      * rewrite HsL, Hs2, Hs1. cbn [forallb]. unfold isWhole at 2. rewrite Hbd.
        reflexivity.
    + cbn [facetWords] in Ht1. rewrite <- app_assoc in Ht1. cbn [app] in Ht1.
      destruct (parseFacet_broken done failing ws bad p1 W' Hbody Hc1 Ht1)
        as (p1' & t & n & Hpf & Ht2 & Hc2 & He2 & Hs2).
      rewrite Hpf.
      set (q := setTrianglesSkipped true p1').
      assert (Htq : tokens q = bad :: W') by exact Ht2.
      assert (Hcq : clean q) by exact Hc2.
      pose proof (skipToToken_sync q (tokens_wellFormed q _ _ Htq))
        as (Hts & _ & _ & Hsk).
      pose proof (skipToToken_clean q Hcq) as (Hc3 & He3).
      destruct (skipToToken (Z.lor idFacet idEndsolid) q) as [p2 found].
      cbn [fst snd] in *.
      destruct Hbody as (_ & _ & _ & _ & Hbs).
      rewrite Htq in Hts. cbn [skipUntilSync] in Hts. rewrite Hbs in Hts.
      destruct (IH true bound p2 sw strayEnd trailer ltac:(cbn in Hb; lia)
                  Hall' Hse Hc3 Hts)
        as (pL & es & HL & HtL & HcL & HeL & HmL & HsL).
      exists pL, (es1 ++ formatError n (expectationMessage failing) :: es)%list.
      conjs; auto.
      * rewrite HL. cbn [delivered flat_map]. rewrite Hbd. reflexivity.
      * rewrite HeL, He3. change (errors q) with (errors p1').
        rewrite He2, He1, <- !app_assoc. reflexivity.
      * cbn [messages]. rewrite Hbd, Hmsg. apply Forall2_app; [assumption |].
        constructor; [exists n; reflexivity | assumption].
      * rewrite HsL, Hsk. cbn [forallb]. unfold isWhole at 2. rewrite Hbd.
        cbn. rewrite orb_true_r. reflexivity.
Qed.

Lemma concat_itemWords_length (items : list item) :
  Forall (itemOk ParseFloat) items ->
  (length items <= length (concat (map itemWords items)))%nat.
Proof.
  induction 1 as [| it rest [_ Hbody] _ IH]; cbn [map concat length]; [lia |].
  destruct (facetWords_head (body it) Hbody) as [fw Hfw].
  rewrite length_app. unfold itemWords at 1. rewrite length_app, Hfw.
  cbn [length]. lia.
Qed.

Lemma Parse_items (stream : lineScannerState) (name : string)
    (items : list item) (strayEnd trailer : list string) :
  recoverable ParseFloat stream name items strayEnd trailer ->
  let r := Parse ParseFloat extractASCIIString (newParser stream) [] in
  snd r = forallb isWhole items
  /\ snd (fst r)
     = SetName (extractASCIIString name)
       :: map AppendTriangle (delivered ParseFloat items)
  /\ Forall2 numbered (errors (fst (fst r))) (messages false items strayEnd)
  /\ ErrorText (fst (fst r))
     = (if forallb isWhole items then EmptyString
        else "Triangles had to be skipped." ++ newline)
       ++ fold_left (fun buf e => buf ++ e ++ newline) (errors (fst (fst r)))
                    EmptyString.
Proof.
  intros (header & body & Hl & He & Hb & Hw & Hwe & Hc & Hws & Hall & Hse) r.
  subst r.
  destruct stream as [ls serr]. cbn [linesLeft linesErr] in Hl, He. subst ls serr.
  destruct (lineWords header) as [| w ws] eqn:Hlw; [contradiction |].
  rewrite (newParser_first_line header body None w ws Hlw).
  set (p0 := mkParser _ _ _ _ _ _ _ _ _ _).
  assert (Hc0 : clean p0) by (unfold clean; cbn; auto).
  assert (Hp0 : eof p0 = false) by reflexivity.
  unfold Parse, parseBody. rewrite Hp0.
  unfold parseASCIIHeaderLine. rewrite Hp0.
  assert (Hline : currentLineBytes p0 = expectedASCIIHeaderPrefix ++ name)
    by exact Hb.
  rewrite Hline, header_prefix, header_name. cbn [negb].
  destruct (nextLine_clean p0 Hp0 Hc0) as [Hc1 He1].
  destruct (nextLineFrom_scanned (linesLeft (lineScanner p0)) p0 Hp0)
    as (Ht1 & _ & _ & Hs1 & _).
  fold (nextLine p0) in Ht1, Hs1.
  set (p1 := fst (nextLine p0)) in *.
  cbn [fst snd negb].
  set (p2 := setHeaderError false p1).
  assert (Ht2 : tokens p2
                = (concat (map itemWords items) ++ strayEnd
                   ++ "endsolid" :: trailer)%list).
  { change (tokens p2) with (tokens p1). rewrite Ht1. exact Hws. }
  assert (Hc2 : clean p2) by exact Hc1.
  assert (Hbound : (length items < S (length (pending p2)))%nat).
  { pose proof (concat_itemWords_length items Hall) as Hlen.
    pose proof (f_equal (@length string) Ht2) as Hl2.
    rewrite !length_app in Hl2. cbn [length] in Hl2.
    unfold tokens in Hl2. destruct (eof p2); cbn [length] in Hl2; lia. }
  destruct (triangleLoop_items items false (S (length (pending p2))) p2
              (call (SetName (extractASCIIString name)) []) strayEnd trailer
              Hbound Hall Hse Hc2 Ht2)
    as (pL & es & HL & HtL & HcL & HeL & HmL & HsL).
  rewrite HL.
  pose proof (triangleLoop_HeaderError ParseFloat _ _ _ _ _ HL) as HhL.
  change (HeaderError p2) with false in HhL.
  assert (Hs2 : TrianglesSkipped p2 = false).
  { change (TrianglesSkipped p2) with (TrianglesSkipped p1). rewrite Hs1.
    reflexivity. }
  assert (He2 : errors p2 = []).
  { change (errors p2) with (errors p1). rewrite He1. reflexivity. }
  rewrite Hs2 in HsL. rewrite He2 in HeL. cbn [orb app] in HsL, HeL.
  apply tokens_cons in HtL as (HpL & HwL & _).
  unfold parseEnd. rewrite HhL, HsL. cbn [negb andb].
  destruct (forallb isWhole items) eqn:Hwhole; cbn [negb].
  - unfold consumeToken. rewrite HwL.
    replace (matchIdent idEndsolid "endsolid") with true by reflexivity.
    cbn [negb fst snd].
    destruct (nextWord_clean pL HpL HcL) as [_ HeE].
    destruct (nextWord_scanned pL HpL) as (_ & _ & _ & HsE & _).
    unfold generateErrorText, setErrorText. cbn [ErrorText errors].
    rewrite HsE, HsL, HeE, HeL. cbn [negb].
    split; [reflexivity |]. split; [reflexivity |]. split; [exact HmL |].
    reflexivity.
  - cbn [fst snd]. unfold generateErrorText, setErrorText. cbn [ErrorText errors].
    rewrite HsL, HeL. cbn [negb].
    split; [reflexivity |]. split; [reflexivity |]. split; [exact HmL |].
    reflexivity.
Qed.

(** X11.  Input made of a header line that starts with ["solid "], then
    stray words, whole triangles and triangles broken at one word, then
    [endsolid] (and anything after it), without scanner error.  [Parse]
    hands the writer the name and exactly the whole triangles, in order;
    it returns [true] exactly when no triangle is broken, also when stray
    words were met; and it records one diagnostic for each run of stray
    words that does not follow a broken triangle
    (["facet" or "endsolid" expected]) and one for each broken triangle
    (the expectation of the failing sub-step), in the order of the input.
    The text starts with the banner exactly when a triangle is broken. *)
Theorem Parse_recovers (stream : lineScannerState) (name : string)
    (items : list item) (strayEnd trailer : list string) :
  recoverable ParseFloat stream name items strayEnd trailer ->
  let r := Parse ParseFloat extractASCIIString (newParser stream) [] in
  snd r = forallb isWhole items
  /\ snd (fst r)
     = SetName (extractASCIIString name)
       :: map AppendTriangle (delivered ParseFloat items)
  /\ Forall2 numbered (errors (fst (fst r))) (messages false items strayEnd)
  /\ ErrorText (fst (fst r))
     = (if forallb isWhole items then EmptyString
        else "Triangles had to be skipped." ++ newline)
       ++ fold_left (fun buf e => buf ++ e ++ newline) (errors (fst (fst r)))
                    EmptyString.
Proof. exact (Parse_items stream name items strayEnd trailer). Qed.

End Recovery.

End RecoveryFacts.

(** ** More facts about binary64 comparisons *)

Module FloatOrderFacts.
Import FloatFacts.

Lemma SFcompare_Lt_trans (x y z : spec_float) :
  SFcompare x y = Some Lt -> SFcompare y z = Some Lt -> SFcompare x z = Some Lt.
Proof.
  destruct x as [[]|[]| |[] m1 e1], y as [[]|[]| |[] m2 e2],
           z as [[]|[]| |[] m3 e3]; simpl;
    try discriminate; try reflexivity.
  all: change (PosDef.Pos.compare_cont Eq) with Pos.compare.
  all: destruct (Z.compare_spec e1 e2), (Z.compare_spec e2 e3),
         (Z.compare_spec e1 e3);
    try discriminate; try reflexivity; try lia.
  all: destruct (Pos.compare_spec m1 m2), (Pos.compare_spec m2 m3),
         (Pos.compare_spec m1 m3);
    simpl; try discriminate; try reflexivity; try lia.
Qed.

(** [<] on floats is transitive. *)
Lemma ltb_trans (x y z : float) :
  (x <? y)%float = true -> (y <? z)%float = true -> (x <? z)%float = true.
Proof.
  rewrite !FloatAxioms.ltb_spec. unfold SFltb.
  destruct (SFcompare (Prim2SF x) (Prim2SF y)) as [[]|] eqn:H1; try discriminate.
  destruct (SFcompare (Prim2SF y) (Prim2SF z)) as [[]|] eqn:H2; try discriminate.
  rewrite (SFcompare_Lt_trans _ _ _ H1 H2). reflexivity.
Qed.

(** A float below zero is not [==] to zero, and neither is its opposite. *)
Lemma opp_negative (x : float) :
  (x <? 0)%float = true -> (- x =? 0)%float = false.
Proof.
  rewrite FloatAxioms.ltb_spec, FloatAxioms.eqb_spec, FloatAxioms.opp_spec.
  replace (Prim2SF 0) with (S754_zero false) by reflexivity.
  destruct (Prim2SF x) as [[]|[]| |[] m e]; simpl; try discriminate; reflexivity.
Qed.

(** [x <= 0] fails: then [x < 0] fails too. *)
Lemma ltb_leb (x y : float) :
  (x <=? y)%float = false -> (x <? y)%float = false.
Proof.
  rewrite FloatAxioms.ltb_spec, FloatAxioms.leb_spec. unfold SFltb, SFleb.
  destruct (SFcompare (Prim2SF x) (Prim2SF y)) as [[]|]; try discriminate;
    reflexivity.
Qed.

End FloatOrderFacts.

(** ** solid.go: the operations on the triangles *)

Module SolidOpsFacts.
Import SolidGo ValidateGo SolidOps SetTriangleCountFacts FloatOrderFacts.

(** The loop over the indices changes every triangle once, in place. *)
Lemma alter_each {A : Type} (body : A -> A) (l : list A) :
  forall pre,
  fold_left (fun ts i => alter body i ts) (seq (length pre) (length l)) (pre ++ l)
  = (pre ++ map body l)%list.
Proof.
  induction l as [| x l IH]; intros pre; cbn [length seq fold_left map].
  - reflexivity.
  - replace (alter body (length pre) (pre ++ x :: l))
      with ((pre ++ [body x]) ++ l)%list.
    + replace (S (length pre)) with (length (pre ++ [body x])).
      * rewrite IH, <- app_assoc. reflexivity.
      * rewrite length_app. cbn. lia.
    + rewrite <- app_assoc. cbn [app]. symmetry.
      rewrite alter_app_r_alt by lia.
      replace (length pre - length pre)%nat with 0%nat by lia. reflexivity.
Qed.

Lemma forTriangles_map (body : Triangle -> Triangle) (s : Solid) :
  forTriangles body s
  = mkSolid (BinaryHeader s) (Name s)
            (mkSlice (map body (elems (Triangles s))) (capacity (Triangles s)))
            (IsAscii s).
Proof.
  unfold forTriangles, setTriangles. f_equal. f_equal.
  exact (alter_each body (elems (Triangles s)) []).
Qed.

Lemma forCoords_map (f : nat -> float -> float) (t : Triangle) :
  forCoords f t = mapVertices f t.
Proof. destruct t as [n [] [] []]. reflexivity. Qed.

Lemma map_forCoords (f : nat -> float -> float) (ts : list Triangle) :
  map (forCoords f) ts = map (mapVertices f) ts.
Proof. apply map_ext. intros t. apply forCoords_map. Qed.

Lemma Scale_map (s : Solid) (factor : float) :
  Scale factor s
  = mkSolid (BinaryHeader s) (Name s)
            (mkSlice (map (mapVertices (fun _ x => factor * x)%float)
                          (elems (Triangles s)))
                     (capacity (Triangles s)))
            (IsAscii s).
Proof. unfold Scale. rewrite forTriangles_map, map_forCoords. reflexivity. Qed.

(** X12.  [Scale] multiplies every coordinate of every vertex by the factor
    and [Translate] adds the component of the vector to it; both keep the
    number and the order of the triangles, the capacity, the stored normals
    (which they do not recalculate), the name, the header and the flag. *)
Theorem Scale_Translate_pointwise (s : Solid) (factor : float) (vec : Vec3) :
  Scale factor s
  = mkSolid (BinaryHeader s) (Name s)
            (mkSlice (map (mapVertices (fun _ x => factor * x)%float)
                          (elems (Triangles s)))
                     (capacity (Triangles s)))
            (IsAscii s)
  /\ Translate vec s
     = mkSolid (BinaryHeader s) (Name s)
               (mkSlice (map (mapVertices (fun d x => x + coord vec d)%float)
                             (elems (Triangles s)))
                        (capacity (Triangles s)))
               (IsAscii s).
Proof.
  unfold Scale, Translate. rewrite !forTriangles_map, !map_forCoords.
  split; reflexivity.
Qed.

Lemma scaleDim_in_range (factor : float) (d : nat) (s : Solid) :
  (d < 3)%nat ->
  scaleDim factor (Z.of_nat d) s
  = Some (mkSolid (BinaryHeader s) (Name s)
            (mkSlice
               (map (mapVertices (fun d' x => if (d' =? d)%nat
                                              then (factor * x)%float else x))
                    (elems (Triangles s)))
               (capacity (Triangles s)))
            (IsAscii s)).
Proof.
  intros Hd. unfold scaleDim.
  replace ((0 <=? Z.of_nat d) && (Z.of_nat d <? 3)) with true
    by (symmetry; apply andb_true_iff; split; [apply Z.leb_le | apply Z.ltb_lt]; lia).
  rewrite Nat2Z.id, forTriangles_map. f_equal. f_equal. f_equal.
  apply map_ext. intros [n [] [] []].
  destruct d as [| [| [| d]]]; [reflexivity | reflexivity | reflexivity | lia].
Qed.

(** X13.  [scaleDim] panics exactly when the dimension is not 0, 1 or 2 and
    the solid has a triangle; and [Scale] is [scaleDim] on the three
    dimensions, one after the other. *)
Theorem Scale_by_dimensions (factor : float) (s : Solid) :
  (forall dim,
     scaleDim factor dim s = None
     <-> (dim < 0 \/ 3 <= dim) /\ elems (Triangles s) <> [])
  /\ exists s1 s2,
       scaleDim factor 0 s = Some s1
       /\ scaleDim factor 1 s1 = Some s2
       /\ scaleDim factor 2 s2 = Some (Scale factor s).
Proof.
  split.
  - intros dim. unfold scaleDim.
    destruct (Z.leb_spec 0 dim), (Z.ltb_spec dim 3); cbn [andb];
      try (split; [discriminate | intros [? _]; lia]).
    all: destruct (elems (Triangles s));
      split; try discriminate; try (intros [_ ?]; congruence);
      intros _; split; try discriminate; lia.
  - eexists. eexists.
    split; [exact (scaleDim_in_range factor 0 s ltac:(lia)) |].
    split; [exact (scaleDim_in_range factor 1 _ ltac:(lia)) |].
    change 2 with (Z.of_nat 2). rewrite scaleDim_in_range by lia.
    rewrite Scale_map.
    cbn [BinaryHeader Name Triangles IsAscii elems capacity].
    rewrite !map_map. reflexivity.
Qed.

Section Normals.
Variable recalculateNormal : Triangle -> Triangle.

(** X14.  [Stretch] by the same factor on the three axes is [Scale] by that
    factor followed by [RecalculateNormals]. *)
Theorem Stretch_uniform (factor : float) (s : Solid) :
  Stretch recalculateNormal (mkVec3 factor factor factor) s
  = RecalculateNormals recalculateNormal (Scale factor s).
Proof.
  unfold Stretch, RecalculateNormals, Scale. rewrite !forTriangles_map.
  cbn [BinaryHeader Name Triangles IsAscii elems capacity].
  rewrite map_map. reflexivity.
Qed.

End Normals.

Section Measured.
Variable min4 : float -> float -> float -> float -> float.
Variable max4 : float -> float -> float -> float -> float.

Local Abbreviation Measure := (Measure min4 max4).
Local Abbreviation ScaleLinearDowntoSizeBox := (ScaleLinearDowntoSizeBox min4 max4).
Local Abbreviation IsInPositive := (IsInPositive min4 max4).
Local Abbreviation MoveToPositive := (MoveToPositive min4 max4).

(** One turn of the loop that chooses the factor keeps it at 1, or below 1
    and equal to the ratio of a dimension in which the solid is longer than
    the box. *)
Lemma sizeBoxFactor_step (sizeBox : Vec3) (m : SolidMeasure) (d : nat)
    (factor : float) :
  let ratio d := (coord sizeBox d / coord (Len m) d)%float in
  let inv f :=
    f = 1%float
    \/ ((f <? 1)%float = true
        /\ exists d', (d' < 3)%nat
                      /\ (coord sizeBox d' <? coord (Len m) d')%float = true
                      /\ f = ratio d') in
  (d < 3)%nat ->
  inv factor ->
  inv (if (coord sizeBox d <? coord (Len m) d)%float
       then if (ratio d <? factor)%float then ratio d else factor
       else factor).
Proof.
  intros ratio inv Hd Hf.
  destruct (coord sizeBox d <? coord (Len m) d)%float eqn:Hlong; [| exact Hf].
  destruct (ratio d <? factor)%float eqn:Hless; [| exact Hf].
  right. split.
  - destruct Hf as [-> | [Hf _]]; [exact Hless |].
    exact (ltb_trans _ _ _ Hless Hf).
  - exists d. auto.
Qed.

Lemma sizeBoxFactor_spec (sizeBox : Vec3) (m : SolidMeasure) :
  sizeBoxFactor sizeBox m = 1%float
  \/ ((sizeBoxFactor sizeBox m <? 1)%float = true
      /\ exists d, (d < 3)%nat
                   /\ (coord sizeBox d <? coord (Len m) d)%float = true
                   /\ sizeBoxFactor sizeBox m
                      = (coord sizeBox d / coord (Len m) d)%float).
Proof.
  unfold sizeBoxFactor. cbn [fold_left].
  apply (sizeBoxFactor_step sizeBox m 2); [lia |].
  apply (sizeBoxFactor_step sizeBox m 1); [lia |].
  apply (sizeBoxFactor_step sizeBox m 0); [lia |].
  left. reflexivity.
Qed.

(** X15.  [ScaleLinearDowntoSizeBox] panics exactly when a component of the
    box is [<= 0] (a NaN is not).  Otherwise it never scales up: it leaves
    the solid as it is, or applies [Scale] with a factor below 1, which is
    the ratio box/length of a dimension in which the solid is longer than
    the box; and it leaves the solid as it is when no dimension is longer
    than the box. *)
Theorem ScaleLinearDowntoSizeBox_never_scales_up (sizeBox : Vec3) (s : Solid) :
  (ScaleLinearDowntoSizeBox sizeBox s = None
   <-> ((c0 sizeBox <=? 0) || (c1 sizeBox <=? 0) || (c2 sizeBox <=? 0))%float
       = true)
  /\ (forall s',
        ScaleLinearDowntoSizeBox sizeBox s = Some s' ->
        s' = s
        \/ exists factor d,
             (factor <? 1)%float = true
             /\ (d < 3)%nat
             /\ (coord sizeBox d <? coord (Len (Measure s)) d)%float = true
             /\ factor = (coord sizeBox d / coord (Len (Measure s)) d)%float
             /\ s' = Scale factor s)
  /\ ((forall d, (d < 3)%nat ->
         (coord sizeBox d <? coord (Len (Measure s)) d)%float = false) ->
      forall s', ScaleLinearDowntoSizeBox sizeBox s = Some s' -> s' = s).
Proof.
  unfold SolidOps.ScaleLinearDowntoSizeBox.
  destruct ((c0 sizeBox <=? 0) || (c1 sizeBox <=? 0) || (c2 sizeBox <=? 0))%float.
  { split; [split; reflexivity |]. split; [discriminate |]. discriminate. }
  split; [| split].
  - destruct (negb _); split; discriminate.
  - intros s'.
    destruct (sizeBoxFactor_spec sizeBox (Measure s)) as [H1 | (Hlt & d & Hd & Hlong & Hr)].
    + rewrite H1. cbn. intros [= <-]. left. reflexivity.
    + destruct (negb _); intros [= <-]; [| left; reflexivity].
      right. exists (sizeBoxFactor sizeBox (Measure s)), d. auto.
  - intros Hfit s'. unfold sizeBoxFactor. cbn [fold_left].
    rewrite (Hfit 0%nat), (Hfit 1%nat), (Hfit 2%nat) by lia.
    cbn. intros [= <-]. reflexivity.
Qed.

(** The vector of [MoveToPositive], component by component. *)
Lemma translationVector_coords (m : SolidMeasure) :
  translationVector m
  = mkVec3 (if (c0 (Min m) <? 0)%float then (- c0 (Min m))%float else 0%float)
           (if (c1 (Min m) <? 0)%float then (- c1 (Min m))%float else 0%float)
           (if (c2 (Min m) <? 0)%float then (- c2 (Min m))%float else 0%float).
Proof.
  unfold translationVector. cbn [fold_left coord].
  destruct (c0 (Min m) <? 0)%float, (c1 (Min m) <? 0)%float,
           (c2 (Min m) <? 0)%float; reflexivity.
Qed.

(** X16.  [MoveToPositive] leaves a solid for which [IsInPositive] holds as
    it is, and translates any other by the vector that has [-Min] in each
    dimension in which [Min] is below zero and 0 in the others; a solid
    without triangles is in the positive octant. *)
Theorem MoveToPositive_spec (s : Solid) :
  MoveToPositive s
  = (if IsInPositive s then s
     else Translate (translationVector (Measure s)) s)
  /\ translationVector (Measure s)
     = mkVec3 (if (c0 (Min (Measure s)) <? 0)%float
               then (- c0 (Min (Measure s)))%float else 0%float)
              (if (c1 (Min (Measure s)) <? 0)%float
               then (- c1 (Min (Measure s)))%float else 0%float)
              (if (c2 (Min (Measure s)) <? 0)%float
               then (- c2 (Min (Measure s)))%float else 0%float)
  /\ (elems (Triangles s) = [] -> IsInPositive s = true).
Proof.
  split; [| split].
  - unfold SolidOps.MoveToPositive, SolidOps.IsInPositive.
    rewrite translationVector_coords. cbn [forallb coord]. unfold Vec3eq.
    cbn [c0 c1 c2 Vec3Zero].
    destruct (c0 (Min (Measure s)) <? 0)%float eqn:H0;
      destruct (c1 (Min (Measure s)) <? 0)%float eqn:H1;
      destruct (c2 (Min (Measure s)) <? 0)%float eqn:H2;
      rewrite ?(opp_negative _ H0), ?(opp_negative _ H1), ?(opp_negative _ H2);
      reflexivity.
  - apply translationVector_coords.
  - intros He. unfold SolidOps.IsInPositive, SolidOps.Measure. rewrite He.
    reflexivity.
Qed.

End Measured.

Section Appending.
Variable growslice : Z -> Z -> Z.

Local Abbreviation AppendTriangle := (AppendTriangle growslice).

(** Appending within the capacity keeps the array. *)
Lemma append_within (ts : list Triangle) :
  forall s,
  len (Triangles s) + Z.of_nat (length ts) <= capacity (Triangles s) ->
  fold_left (fun s t => AppendTriangle t s) ts s
  = mkSolid (BinaryHeader s) (Name s)
            (mkSlice (elems (Triangles s) ++ ts) (capacity (Triangles s)))
            (IsAscii s).
Proof.
  induction ts as [| t ts IH]; intros s Hle; cbn [fold_left].
  - rewrite app_nil_r. destruct s as [h n [e c] a]. reflexivity.
  - cbn [length] in Hle. rewrite IH.
    + unfold SolidOps.AppendTriangle, append, setTriangles.
      cbn [BinaryHeader Name Triangles IsAscii elems capacity].
      replace (len (Triangles s) + 1 <=? capacity (Triangles s)) with true
        by (symmetry; apply Z.leb_le; lia).
      rewrite <- app_assoc. reflexivity.
    + unfold SolidOps.AppendTriangle, append, setTriangles, len in *.
      cbn [Triangles elems capacity].
      replace (Z.of_nat (length (elems (Triangles s))) + 1
               <=? capacity (Triangles s)) with true
        by (symmetry; apply Z.leb_le; lia).
      rewrite length_app. cbn [length]. lia.
Qed.

(** X17.  [SetTriangleCount(n)] reserves room: on a solid with fewer than
    [2^32] places, the triangles appended after it, up to [n] in all, go
    into the array it left, whose capacity, the larger of [n] and the old
    capacity, does not change (no allocation by [append]); the solid ends
    with its former triangles followed by the new ones. *)
Theorem SetTriangleCount_reserves (s : Solid) (n : Z) (ts : list Triangle) :
  slice_ok (Triangles s) ->
  capacity (Triangles s) < 2 ^ 32 ->
  len (Triangles s) + Z.of_nat (length ts) <= n < 2 ^ 32 ->
  let s1 := SetTriangleCount n s in
  let s2 := fold_left (fun s t => AppendTriangle t s) ts s1 in
  elems (Triangles s1) = elems (Triangles s)
  /\ capacity (Triangles s1) = Z.max (capacity (Triangles s)) n
  /\ s2 = mkSolid (BinaryHeader s) (Name s)
                  (mkSlice (elems (Triangles s) ++ ts)
                           (Z.max (capacity (Triangles s)) n))
                  (IsAscii s).
Proof.
  intros Hok Hcap Hn s1 s2.
  pose proof (len_nonneg (Triangles s)) as Hl0.
  unfold slice_ok in Hok.
  assert (Hs1 : s1 = mkSolid (BinaryHeader s) (Name s)
                       (mkSlice (elems (Triangles s))
                                (Z.max (capacity (Triangles s)) n))
                       (IsAscii s)).
  { subst s1. unfold SetTriangleCount.
    rewrite (uint32_small (len (Triangles s))) by lia.
    rewrite (uint32_small (capacity (Triangles s))) by lia.
    destruct (Z.ltb_spec n (len (Triangles s))); [lia |].
    destruct (Z.leb_spec n (capacity (Triangles s))).
    - rewrite Z.max_l by lia. destruct s as [h nm [e c] a]. reflexivity.
    - rewrite Z.max_r by lia. unfold setTriangles, make. cbn [elems].
      destruct (Z.ltb_spec 0 (len (Triangles s))).
      + rewrite copy_fresh.
        * unfold len. rewrite Nat2Z.id, firstn_all. reflexivity.
        * unfold len. rewrite Nat2Z.id. lia.
      + assert (He : elems (Triangles s) = []).
        { unfold len in *. destruct (elems (Triangles s)); [reflexivity |].
          cbn [length] in *. lia. }
        unfold len. rewrite He. reflexivity. }
  split; [rewrite Hs1; reflexivity |]. split; [rewrite Hs1; reflexivity |].
  subst s2. rewrite append_within; rewrite Hs1; [reflexivity |].
  cbn [Triangles elems capacity]. unfold len in *. cbn [elems]. lia.
Qed.

End Appending.

End SolidOpsFacts.

(** ** readascii.go: reading into a solid *)

Module ReaderFacts.
Import ParserGo ParserSpec StreamSpec ReaderGo.
Import ScannerFacts ParseFacts StreamFacts RecoveryFacts.
Local Open Scope string_scope.

Section Reading.
Variable ParseFloat : string -> Z -> float * option string.
Variable extractASCIIString : string -> string.
Variable growslice : Z -> Z -> Z.

Local Abbreviation applyCall := (applyCall growslice).
Local Abbreviation readInto := (readInto ParseFloat extractASCIIString growslice).

(** [AppendTriangle] calls put the triangles at the end, in order. *)
Lemma replay_appends (ts : list Triangle) :
  forall s,
  let s' := fold_left applyCall (map AppendTriangle ts) s in
  elems (Triangles s') = (elems (Triangles s) ++ ts)%list
  /\ BinaryHeader s' = BinaryHeader s
  /\ Name s' = Name s
  /\ IsAscii s' = IsAscii s.
Proof.
  induction ts as [| t ts IH]; intros s; cbn [map fold_left].
  - rewrite app_nil_r. auto.
  - destruct (IH (applyCall s (AppendTriangle t))) as (H1 & H2 & H3 & H4).
    cbn zeta in *. rewrite H1, H2, H3, H4. cbn. rewrite <- app_assoc. auto.
Qed.

(** X18.  Reading into a solid, whatever the input: the triangles the solid
    held stay, in their places, and those read are added after them; the
    name is replaced exactly when the header line is valid; the binary
    header and the flag [IsAscii] are left alone; and an error is returned
    exactly when [Parse] fails, with the diagnostic text. *)
Theorem readInto_appends (r : lineScannerState) (s : Solid) :
  let p0 := newParser r in
  let s' := fst (readInto r s) in
  (exists ts, elems (Triangles s') = (elems (Triangles s) ++ ts)%list)
  /\ Name s' = (if headerValid p0 then headerName extractASCIIString p0
                else Name s)
  /\ BinaryHeader s' = BinaryHeader s
  /\ IsAscii s' = IsAscii s
  /\ snd (readInto r s)
     = (if snd (Parse ParseFloat extractASCIIString p0 [])
        then None
        else Some (ErrorText (fst (fst (Parse ParseFloat extractASCIIString p0 []))))).
Proof.
  intros p0 s'. subst s'. unfold ReaderGo.readInto, readAllASCII. fold p0.
  destruct (Parse_calls ParseFloat extractASCIIString p0 []) as [ts Hts].
  destruct (Parse ParseFloat extractASCIIString p0 []) as [[p sw] ok].
  cbn [fst snd app] in *. subst sw. rewrite fold_left_app.
  destruct (replay_appends ts (fold_left applyCall (headerCalls extractASCIIString p0) s))
    as (H1 & H2 & H3 & H4).
  cbn zeta in *. rewrite H1, H2, H3, H4.
  unfold headerCalls. destruct (headerValid p0); cbn [fold_left].
  - split; [exists ts; reflexivity |]. repeat split. destruct ok; reflexivity.
  - split; [exists ts; reflexivity |]. repeat split. destruct ok; reflexivity.
Qed.

(** X19.  Reading input made of a valid header, stray words, whole and
    broken triangles and [endsolid] into a solid: the solid gets the name
    of the header and, after the triangles it held, exactly the whole
    triangles of the input, in order; no error is returned exactly when no
    triangle is broken. *)
Theorem readInto_recoverable (r : lineScannerState) (name : string)
    (items : list item) (strayEnd trailer : list string) (s : Solid) :
  recoverable ParseFloat r name items strayEnd trailer ->
  let s' := fst (readInto r s) in
  elems (Triangles s') = (elems (Triangles s) ++ delivered ParseFloat items)%list
  /\ Name s' = extractASCIIString name
  /\ BinaryHeader s' = BinaryHeader s
  /\ IsAscii s' = IsAscii s
  /\ (snd (readInto r s) = None <-> forallb isWhole items = true).
Proof.
  intros Hr s'. subst s'. unfold ReaderGo.readInto, readAllASCII.
  pose proof (Parse_items ParseFloat extractASCIIString r name items strayEnd
                trailer Hr) as (Hok & Hsw & _).
  destruct (Parse ParseFloat extractASCIIString (newParser r) []) as [[p sw] ok].
  cbn [fst snd] in *. subst sw ok. cbn [fold_left].
  destruct (replay_appends (delivered ParseFloat items)
              (applyCall s (SetName (extractASCIIString name))))
    as (H1 & H2 & H3 & H4).
  cbn zeta in *. rewrite H1, H2, H3, H4.
  repeat split; destruct (forallb isWhole items); cbn; congruence.
Qed.

End Reading.

End ReaderFacts.

(** ** solid.go: more on the edge index and on the findings *)

Module FindingsFacts.
Import ValidateGo ValidateSpec FindingsSpec FloatFacts EdgeIndexFacts ValidateFacts.

Lemma Vec3eq_self (v : Vec3) : Vec3eq v v = negb (vecHasNaN v).
Proof.
  unfold Vec3eq, vecHasNaN, is_nan.
  destruct (c0 v =? c0 v)%float, (c1 v =? c1 v)%float, (c2 v =? c2 v)%float;
    reflexivity.
Qed.

Lemma nanFree_hasNaN (t : Triangle) : nanFree t = negb (hasNaN t).
Proof.
  unfold nanFree, hasNaN. rewrite !Vec3eq_self.
  destruct (vecHasNaN (V0 t)), (vecHasNaN (V1 t)), (vecHasNaN (V2 t));
    reflexivity.
Qed.

Lemma forallb_fails {A : Type} (f : A -> bool) (l : list A) :
  forallb f l = false -> exists x, In x l /\ f x = false.
Proof.
  induction l as [| x l IH]; cbn [forallb]; [discriminate |].
  destruct (f x) eqn:Hx; cbn [andb].
  - intros H. destruct (IH H) as (y & Hin & Hy). exists y. split; [right |]; auto.
  - intros _. exists x. split; [left |]; auto.
Qed.

Lemma mapLookup_found (key : Edge) (m : list (Edge * gset nat)) (X : gset nat) :
  mapLookup key m = Some X -> keyEq key key = true.
Proof.
  induction m as [| [k x] m IH]; cbn [mapLookup]; [discriminate |].
  destruct (keyEq k key) eqn:Hk; [| exact IH].
  intros _. rewrite keyEq_sym in Hk. exact (keyEq_refl_l _ _ Hk).
Qed.

Lemma In_order (order : gset nat -> list nat) (X : gset nat) (k : nat) :
  validOrder order -> In k (order X) <-> k ∈ X.
Proof.
  intros Ho. rewrite <- elem_of_elements, list_elem_of_In.
  split; apply Permutation_in; [exact (Ho X) | symmetry; exact (Ho X)].
Qed.

Lemma In_others_query (order : gset nat -> list nat) (l : edgeLookup)
    (v w : Vec3) (j k : nat) :
  validOrder order ->
  In k (indices (OtherTrianglesWithEdge order l v w j))
  <-> k <> j /\ exists X, mapLookup (v, w) (edgeToTriangles l) = Some X /\ k ∈ X.
Proof.
  intros Ho. unfold OtherTrianglesWithEdge.
  destruct (mapLookup (v, w) (edgeToTriangles l)) as [X |]; cbn [indices].
  - rewrite filter_In, (In_order order X k Ho), negb_true_iff, Nat.eqb_neq.
    split.
    + intros [H1 H2]. split; [exact H2 | exists X; auto].
    + intros [H1 (X' & [= <-] & H2)]. auto.
  - split; [contradiction | intros [_ (X & H & _)]; discriminate].
Qed.

(** X20.  [InsertEdge] and [OtherTrianglesWithEdge] on any index:
    [InsertEdge(i, v, w)] panics exactly when a coordinate of [v] or [w] is
    a NaN; otherwise the lookup of the edge [v -> w] for a triangle [j]
    returns afterwards a non-nil slice that holds [i], unless [i] is [j],
    besides what it held before, and never [j]; and the lookups of the
    edges that are not [==] to it return what they returned before. *)
Theorem InsertEdge_then_lookup (order : gset nat -> list nat) (l : edgeLookup)
    (i : nat) (v w : Vec3) :
  validOrder order ->
  (InsertEdge i v w l = None <-> vecHasNaN v || vecHasNaN w = true)
  /\ forall l', InsertEdge i v w l = Some l' ->
       forall j,
       OtherTrianglesWithEdge order l' v w j <> None
       /\ (forall k, In k (indices (OtherTrianglesWithEdge order l' v w j))
                     <-> k <> j
                         /\ (k = i
                             \/ In k (indices (OtherTrianglesWithEdge order l v w j))))
       /\ (forall v' w', keyEq (v, w) (v', w') = false ->
             OtherTrianglesWithEdge order l' v' w' j
             = OtherTrianglesWithEdge order l v' w' j).
Proof.
  intros Ho.
  assert (Hself : keyEq (v, w) (v, w) = negb (vecHasNaN v || vecHasNaN w)).
  { unfold keyEq. cbn [fst snd]. rewrite !Vec3eq_self.
    destruct (vecHasNaN v), (vecHasNaN w); reflexivity. }
  assert (Hgen : forall X l',
            keyEq (v, w) (v, w) = true ->
            (forall k, k ∈ X <-> exists X0, mapLookup (v, w) (edgeToTriangles l) = Some X0
                                            /\ k ∈ X0) ->
            (forall q, mapLookup q (edgeToTriangles l')
                       = if keyEq (v, w) q then Some ({[i]} ∪ X)
                         else mapLookup q (edgeToTriangles l)) ->
            forall j,
            OtherTrianglesWithEdge order l' v w j <> None
            /\ (forall k, In k (indices (OtherTrianglesWithEdge order l' v w j))
                          <-> k <> j
                              /\ (k = i
                                  \/ In k (indices (OtherTrianglesWithEdge order l v w j))))
            /\ (forall v' w', keyEq (v, w) (v', w') = false ->
                  OtherTrianglesWithEdge order l' v' w' j
                  = OtherTrianglesWithEdge order l v' w' j)).
  { intros X l' Hk HX Hl' j. split; [| split].
    - unfold OtherTrianglesWithEdge. rewrite Hl', Hk. discriminate.
    - intros k. rewrite !(In_others_query order _ v w j k Ho), Hl', Hk.
      split.
      + intros [H1 (X' & [= <-] & H2)]. split; [exact H1 |].
        apply elem_of_union in H2 as [H2 | H2].
        * left. apply elem_of_singleton in H2. exact H2.
        * right. split; [exact H1 |]. apply HX. exact H2.
      + intros [H1 [-> | [_ H2]]]; (split; [exact H1 |]);
          exists ({[i]} ∪ X); (split; [reflexivity |]).
        * apply elem_of_union_l, elem_of_singleton. reflexivity.
        * apply elem_of_union_r, HX. exact H2.
    - intros v' w' Hne. unfold OtherTrianglesWithEdge. rewrite Hl', Hne.
      reflexivity. }
  unfold InsertEdge.
  destruct (mapLookup (v, w) (edgeToTriangles l)) as [X |] eqn:Hfound.
  - pose proof (mapLookup_found _ _ _ Hfound) as Hk. split.
    + rewrite Hself in Hk. apply negb_true_iff in Hk. rewrite Hk.
      split; discriminate.
    + intros l' [= <-]. apply (Hgen X); [exact Hk | |].
      * intros k. split; [intros H; exists X; auto |].
        intros (X0 & [= <-] & H). exact H.
      * intros q. cbn [edgeToTriangles]. apply mapLookup_store.
  - rewrite mapLookup_store, Hfound.
    destruct (keyEq (v, w) (v, w)) eqn:Hk.
    + split.
      * symmetry in Hself. apply negb_true_iff in Hself. rewrite Hself.
        split; discriminate.
      * intros l' [= <-]. apply (Hgen ∅); [reflexivity | |].
        -- intros k. split; [intros H; apply elem_of_empty in H; contradiction |].
           intros (X0 & H & _). discriminate.
        -- intros q. cbn [edgeToTriangles]. rewrite !mapLookup_store.
           destruct (keyEq (v, w) q); reflexivity.
    + split; [| discriminate].
      symmetry in Hself. apply negb_false_iff in Hself. rewrite Hself.
      split; reflexivity.
Qed.

(** What the accessors of an [EdgeError] return, from the results of the
    two lookups of its edge. *)
Lemma expected_accessors (same counter : intSlice) :
  (expectedEdgeError same counter = None
   <-> slen same = 0%nat /\ slen counter = 1%nat)
  /\ forall eer,
       expectedEdgeError same counter = Some eer ->
       IsUsedInOtherTriangles eer = negb (slen same =? 0)%nat
       /\ HasMultipleCounterEdges eer = (1 <? slen counter)%nat
       /\ HasNoCounterEdge eer = (slen counter <=? 1)%nat.
Proof.
  unfold expectedEdgeError, IsUsedInOtherTriangles, HasMultipleCounterEdges,
    HasNoCounterEdge.
  destruct same as [[| a ls] |], counter as [[| b [| c lc]] |];
    cbn; (split; [split; [try discriminate; auto; intros _; lia
                         | try (intros [? ?]; discriminate); auto]
                 | intros eer; try discriminate; intros [= <-]; cbn; auto]).
Qed.

Section Findings.
Variable hasEqualVertices : Triangle -> bool.
Variable checkNormal : Triangle -> float -> bool.
Variable HalfPi : float.

Local Abbreviation Validate := (Validate hasEqualVertices checkNormal HalfPi).

(** X21.  [Validate] panics exactly when a coordinate of a vertex of one of
    the triangles is a NaN (the stored normals do not matter). *)
Theorem Validate_panics_iff_nan
    (rangeOrder : nat -> nat -> bool -> gset nat -> list nat) (s : Solid) :
  Validate rangeOrder s = None
  <-> exists i t, elems (Triangles s) !! i = Some t /\ hasNaN t = true.
Proof.
  pose proof (Validate_completes hasEqualVertices checkNormal HalfPi rangeOrder s)
    as Hc.
  split.
  - intros Hn.
    destruct (forallb nanFree (elems (Triangles s))) eqn:Hall.
    + exfalso. apply (proj2 Hc); [reflexivity | exact Hn].
    + apply forallb_fails in Hall as (t & Hin & Ht).
      apply list_elem_of_In, list_elem_of_lookup in Hin as [i Hi].
      exists i, t. split; [exact Hi |].
      rewrite nanFree_hasNaN in Ht. apply negb_false_iff in Ht. exact Ht.
  - intros (i & t & Hi & Ht).
    destruct (Validate rangeOrder s) eqn:Hv; [| reflexivity].
    exfalso. assert (Hsome : forallb nanFree (elems (Triangles s)) = true)
      by (apply Hc; discriminate).
    rewrite forallb_forall in Hsome.
    specialize (Hsome t). rewrite nanFree_hasNaN, Ht in Hsome.
    assert (In t (elems (Triangles s)))
      by (apply list_elem_of_In, list_elem_of_lookup; eauto).
    specialize (Hsome H). discriminate.
Qed.

(** X22.  The accessors of the [EdgeError] that [Validate] records for an
    edge, by the number of other triangles that hold the same directed edge
    and the number that hold the reversed one.  No [EdgeError] is recorded
    exactly when the first is 0 and the second 1.  When one is recorded,
    [IsUsedInOtherTriangles] tells that the first is not 0 and
    [HasMultipleCounterEdges] that the second is above 1; but
    [HasNoCounterEdge] tells that the second is at most 1: it is also true
    for an edge with exactly one counter-edge (recorded because another
    triangle holds the same edge), whose counter-edge list is left nil. *)
Theorem EdgeError_accessors
    (rangeOrder : nat -> nat -> bool -> gset nat -> list nat)
    (s : Solid) (m : gmap nat TriangleErrors) (i : nat) (t : Triangle)
    (vertex1 : nat) :
  validRangeOrder rangeOrder ->
  Validate rangeOrder s = Some m ->
  elems (Triangles s) !! i = Some t ->
  (vertex1 < 3)%nat ->
  let same := length (others (elems (Triangles s)) (edgeOf t vertex1) i) in
  let counter :=
    length (others (elems (Triangles s)) (reversed (edgeOf t vertex1)) i) in
  (edgeError m i vertex1 = None <-> same = 0%nat /\ counter = 1%nat)
  /\ forall eer,
       edgeError m i vertex1 = Some eer ->
       IsUsedInOtherTriangles eer = negb (same =? 0)%nat
       /\ HasMultipleCounterEdges eer = (1 <? counter)%nat
       /\ HasNoCounterEdge eer = (counter <=? 1)%nat.
Proof.
  intros Ho Hv Hi Hlt same counter.
  destruct (Validate_entries hasEqualVertices checkNormal HalfPi rangeOrder s m Hv)
    as (e & He & Hm).
  specialize (Hm i). rewrite Hi in Hm.
  rewrite (edgeError_spec hasEqualVertices checkNormal HalfPi rangeOrder e m i t
             vertex1 Hm Hlt).
  assert (Hs : slen (sameQuery rangeOrder e i t vertex1) = same).
  { unfold sameQuery.
    rewrite (OtherTrianglesWithEdge_slen _ (elems (Triangles s)) e _ _ i
               (Ho i vertex1 false) He).
    reflexivity. }
  assert (Hc : slen (counterQuery rangeOrder e i t vertex1) = counter).
  { unfold counterQuery.
    rewrite (OtherTrianglesWithEdge_slen _ (elems (Triangles s)) e _ _ i
               (Ho i vertex1 true) He).
    reflexivity. }
  rewrite <- Hs, <- Hc. apply expected_accessors.
Qed.

Lemma recorded_lists (same counter : intSlice) (eer : EdgeError) (l : list nat) :
  expectedEdgeError same counter = Some eer ->
  SameEdgeTriangles eer = Some l \/ CounterEdgeTriangles eer = Some l ->
  same = Some l \/ counter = Some l.
Proof.
  unfold expectedEdgeError.
  destruct (0 <? slen same)%nat, (negb (slen counter =? 1)%nat); cbn [orb];
    try discriminate; intros [= <-]; cbn; intros [H | H];
    try discriminate; auto.
Qed.

(** X23.  The findings of a [Validate] call that returns are well formed:
    every key is the index of a triangle of the solid; the two flags are
    what [hasEqualVertices] and [checkNormal] say of that triangle; there
    are three edge slots; and every same-edge or counter-edge list holds
    indices of triangles of the solid, none twice and never the triangle
    itself. *)
Theorem Validate_findings_well_formed
    (rangeOrder : nat -> nat -> bool -> gset nat -> list nat)
    (s : Solid) (m : gmap nat TriangleErrors) (i : nat) (te : TriangleErrors) :
  validRangeOrder rangeOrder ->
  Validate rangeOrder s = Some m ->
  m !! i = Some te ->
  exists t,
    elems (Triangles s) !! i = Some t
    /\ HasEqualVertices te = hasEqualVertices t
    /\ NormalDoesNotMatch te = negb (checkNormal t HalfPi)
    /\ length (EdgeErrors te) = 3%nat
    /\ forall e eer l,
         EdgeErrors te !! e = Some (Some eer) ->
         SameEdgeTriangles eer = Some l \/ CounterEdgeTriangles eer = Some l ->
         List.NoDup l
         /\ forall j, In j l ->
              j <> i /\ (j < length (elems (Triangles s)))%nat.
Proof.
  intros Ho Hv Hi.
  destruct (Validate_entries hasEqualVertices checkNormal HalfPi rangeOrder s m Hv)
    as (ix & Hix & Hm).
  specialize (Hm i). rewrite Hi in Hm.
  destruct (elems (Triangles s) !! i) as [t |] eqn:Ht; [| discriminate].
  exists t. split; [reflexivity |].
  unfold findingsOf, expectedFindings in Hm.
  destruct (_ || _) in Hm; [| discriminate]. injection Hm as ->.
  cbn [HasEqualVertices NormalDoesNotMatch EdgeErrors length].
  split; [reflexivity |]. split; [reflexivity |]. split; [reflexivity |].
  assert (Hlist : forall q l,
            Permutation l (others (elems (Triangles s)) q i) ->
            List.NoDup l
            /\ forall j, In j l ->
                 j <> i /\ (j < length (elems (Triangles s)))%nat).
  { intros q l Hp. split.
    - apply (Permutation_NoDup (Permutation_sym Hp)), others_NoDup.
    - intros j Hj. apply (Permutation_in _ Hp), others_spec in Hj
        as (Hne & tj & Htj & _).
      split; [exact Hne |]. exact (lookup_lt_Some _ _ _ Htj). }
  intros e eer l He Hl.
  assert (Hq : exists vertex1,
            expectedEdgeError (sameQuery rangeOrder ix i t vertex1)
                              (counterQuery rangeOrder ix i t vertex1) = Some eer).
  { destruct e as [| [| [| e]]]; cbn in He; try discriminate;
      injection He as He; eauto. }
  destruct Hq as [vertex1 Hq].
  destruct (recorded_lists _ _ eer l Hq Hl) as [Hs | Hc].
  - apply (Hlist (edgeOf t vertex1)).
    pose proof (sameQuery_spec rangeOrder (elems (Triangles s)) ix Ho Hix i t vertex1)
      as Hp.
    rewrite Hs in Hp. exact Hp.
  - apply (Hlist (reversed (edgeOf t vertex1))).
    pose proof (counterQuery_spec rangeOrder (elems (Triangles s)) ix Ho Hix i t
                  vertex1) as Hp.
    rewrite Hc in Hp. exact Hp.
Qed.

Lemma others_single (t : Triangle) (q : Edge) : others [t] q 0 = [].
Proof. reflexivity. Qed.

(** X24.  A solid of one triangle without a NaN: [Validate] returns, and
    every edge of the triangle has an [EdgeError] that reports no
    counter-edge and no other triangle with the same edge. *)
Theorem Validate_single_triangle
    (rangeOrder : nat -> nat -> bool -> gset nat -> list nat)
    (s : Solid) (t : Triangle) :
  validRangeOrder rangeOrder ->
  elems (Triangles s) = [t] ->
  hasNaN t = false ->
  exists m,
    Validate rangeOrder s = Some m
    /\ forall e, (e < 3)%nat ->
         exists eer,
           edgeError m 0 e = Some eer
           /\ HasNoCounterEdge eer = true
           /\ HasMultipleCounterEdges eer = false
           /\ IsUsedInOtherTriangles eer = false.
Proof.
  intros Ho Hs Ht.
  destruct (Validate rangeOrder s) as [m |] eqn:Hv.
  - exists m. split; [reflexivity |]. intros e He.
    destruct (Validate_entries hasEqualVertices checkNormal HalfPi rangeOrder s m Hv)
      as (ix & Hix & Hm).
    specialize (Hm 0%nat). rewrite Hs in Hm, Hix. cbn [lookup list_lookup] in Hm.
    rewrite (edgeError_spec hasEqualVertices checkNormal HalfPi rangeOrder ix m 0 t
               e Hm He).
    assert (Hsame : slen (sameQuery rangeOrder ix 0 t e) = 0%nat).
    { unfold sameQuery.
      rewrite (OtherTrianglesWithEdge_slen _ [t] ix _ _ 0 (Ho 0%nat e false) Hix).
      reflexivity. }
    assert (Hcounter : slen (counterQuery rangeOrder ix 0 t e) = 0%nat).
    { unfold counterQuery.
      rewrite (OtherTrianglesWithEdge_slen _ [t] ix _ _ 0 (Ho 0%nat e true) Hix).
      reflexivity. }
    destruct (expected_accessors (sameQuery rangeOrder ix 0 t e)
                (counterQuery rangeOrder ix 0 t e)) as [Hnone Hacc].
    destruct (expectedEdgeError (sameQuery rangeOrder ix 0 t e)
                (counterQuery rangeOrder ix 0 t e)) as [eer |] eqn:Heer.
    + exists eer. destruct (Hacc eer eq_refl) as (H1 & H2 & H3).
      rewrite Hsame in H1. rewrite Hcounter in H2, H3. auto.
    + destruct Hnone as [Hnone _]. destruct (Hnone eq_refl) as [_ H].
      rewrite Hcounter in H. discriminate.
  - exfalso.
    pose proof (Validate_completes hasEqualVertices checkNormal HalfPi rangeOrder s)
      as Hc.
    apply (proj2 Hc); [| exact Hv].
    rewrite Hs. cbn [forallb]. rewrite nanFree_hasNaN, Ht. reflexivity.
Qed.

End Findings.

End FindingsFacts.

(** ** ray.go: what a hit tells *)

Module RayHitFacts.
Import Vec RayGo RayFacts.

(** With a determinant that is an infinity or a NaN, [t] is a zero or a
    NaN, whatever the other factor: not above [epsilon]. *)
Lemma t_not_above (d x : float) :
  (forall s m e, Prim2SF d <> S754_finite s m e) ->
  (forall s, Prim2SF d <> S754_zero s) ->
  (epsilon <? 1 / d * x)%float = false.
Proof.
  intros Hfin Hzero.
  rewrite FloatAxioms.ltb_spec, FloatAxioms.mul_spec, FloatAxioms.div_spec.
  replace (Prim2SF epsilon)
    with (S754_finite false 4503599627370496%positive (-104)%Z) by reflexivity.
  replace (Prim2SF 1)
    with (S754_finite false 4503599627370496%positive (-52)%Z) by reflexivity.
  destruct (Prim2SF d) as [s | s | | s m e].
  - destruct (Hzero s). reflexivity.
  - destruct (Prim2SF x) as [[] | [] | | [] m' e']; destruct s; reflexivity.
  - reflexivity.
  - destruct (Hfin s m e). reflexivity.
Qed.

(** X25.  [IntersectsTriangle] reports a hit only when the determinant is a
    finite number that is not within [epsilon] of zero, never when it
    overflowed to an infinity or is a NaN, and when [t] is above [epsilon];
    the point returned is then [origin + t * direction].  A miss returns
    the zero vector. *)
Theorem IntersectsTriangle_hit_sound (ray : Ray) (triangle : Triangle) :
  (snd (IntersectsTriangle ray triangle) = true ->
   fst (IntersectsTriangle ray triangle) = hitPoint ray triangle
   /\ (epsilon <? t_ ray triangle)%float = true
   /\ parallel ray triangle = false
   /\ exists s m e, Prim2SF (det ray triangle) = S754_finite s m e)
  /\ (snd (IntersectsTriangle ray triangle) = false ->
      fst (IntersectsTriangle ray triangle) = Vec3Zero).
Proof.
  rewrite IntersectsTriangle_cases.
  destruct (parallel ray triangle) eqn:Hp; cbn [orb fst snd];
    [split; [discriminate | reflexivity] |].
  destruct (u_outside ray triangle); cbn [orb fst snd];
    [split; [discriminate | reflexivity] |].
  destruct (v_outside ray triangle); cbn [orb fst snd];
    [split; [discriminate | reflexivity] |].
  destruct (epsilon <? t_ ray triangle)%float eqn:Ht; cbn [negb fst snd];
    [| split; [discriminate | reflexivity]].
  split; [| discriminate]. intros _.
  split; [reflexivity |]. split; [reflexivity |]. split; [reflexivity |].
  destruct (Prim2SF (det ray triangle)) as [s | s | | s m e] eqn:Hd.
  - exfalso. unfold parallel in Hp.
    rewrite FloatAxioms.ltb_spec, FloatAxioms.abs_spec, Hd in Hp.
    destruct s; discriminate.
  - exfalso. unfold t_, invDet in Ht. rewrite t_not_above in Ht;
      [discriminate | intros ? ? ?; congruence | intros ?; congruence].
  - exfalso. unfold t_, invDet in Ht. rewrite t_not_above in Ht;
      [discriminate | intros ? ? ?; congruence | intros ?; congruence].
  - eauto.
Qed.

(** The five cases of the repository's test table for
    [IntersectsTriangle] come out as the test expects: a hit at the point
    below the origin of the ray for the rays that go down inside the
    triangle and on its diagonal, and a miss beyond the diagonal and on
    the negative side of either axis. *)
Example IntersectsTriangle_test_table :
  IntersectsTriangle (mkRay (mkVec3 0.1 0.1 1) down) unitTriangle
  = (mkVec3 0.1 0.1 0, true)
  /\ IntersectsTriangle (mkRay (mkVec3 0.5 0.5 1) down) unitTriangle
     = (mkVec3 0.5 0.5 0, true)
  /\ snd (IntersectsTriangle (mkRay (mkVec3 0.51 0.51 1) down) unitTriangle)
     = false
  /\ snd (IntersectsTriangle (mkRay (mkVec3 (-0.1) 0.1 1) down) unitTriangle)
     = false
  /\ snd (IntersectsTriangle (mkRay (mkVec3 0.1 (-0.1) 1) down) unitTriangle)
     = false.
Proof. repeat split; vm_compute; reflexivity. Qed.

End RayHitFacts.

(** ** The properties above on concrete inputs *)

Module StreamExamples.
Import ParserGo ParserSpec StreamSpec ReaderGo.
Import ScannerFacts StreamFacts RecoveryFacts ReaderFacts.
Local Open Scope string_scope.

(** After the header line of [badHeaderFile], with room for 100 turns. *)
Lemma Parse_loops_end_witness :
  let p := newParser (streamOf badHeaderFile) in
  skipToTokenLoop 100 idFacet p = Some (skipToToken idFacet p)
  /\ (exists r, triangleLoop sampleParseFloat (S (length (pending p))) p [] = Some r
                /\ triangleLoop sampleParseFloat 101 p [] = Some r).
Proof.
  intros p.
  apply (Parse_loops_end sampleParseFloat p [] idFacet 100).
  - unfold wellFormed. vm_compute. discriminate.
  - vm_compute. lia.
Defined.

(** The third line of [blankFirstFile], reached by two calls of
    [nextWord]. *)
Lemma line_counts_lines_witness :
  let p := fold_left advance [false; false] (newParser (streamOf blankFirstFile)) in
  eof p = false
  /\ line p = 3
  /\ currentWord p = "endsolid"
  /\ onLine (linesLeft (streamOf blankFirstFile)) p.
Proof.
  intros p. split; [reflexivity |]. split; [reflexivity |].
  split; [reflexivity |].
  apply (line_counts_lines (streamOf blankFirstFile) [false; false]).
  reflexivity.
Defined.

(** Two lines without a word. *)
Lemma Parse_empty_input_witness :
  let p0 := newParser (streamOf [""; "  "]) in
  let r := Parse sampleParseFloat extractASCIIString p0 [] in
  snd r = false
  /\ snd (fst r) = []
  /\ errors (fst (fst r))
     = (errors p0 ++ [formatError (line p0) "File is empty"])%list
  /\ (linesClean (linesLeft (streamOf [""; "  "])) ->
      linesErr (streamOf [""; "  "]) = None ->
      ErrorText (fst (fst r))
      = formatError (Z.of_nat (length (linesLeft (streamOf [""; "  "]))))
                    "File is empty" ++ newline).
Proof.
  apply (Parse_empty_input sampleParseFloat extractASCIIString
           (streamOf [""; "  "]) []).
  reflexivity.
Defined.

Lemma strayBrokenFile_recoverable :
  recoverable sampleParseFloat (streamOf strayBrokenFile) "part 1"
              strayBrokenItems [] ["part"; "1"].
Proof.
  exists (lineOf "solid part 1"), (map lineOf (tl strayBrokenFile)).
  split; [reflexivity |]. split; [reflexivity |]. split; [reflexivity |].
  split; [discriminate |]. split; [reflexivity |].
  split; [cbn; tauto |]. split; [reflexivity |].
  split; [| reflexivity].
  constructor; [| constructor; [| constructor]].
  - split; [reflexivity |]. cbn [body strayBrokenItems facetTextOk].
    split; [exists (skipn 14 facetSteps); reflexivity |].
    split; [discriminate |].
    split; [cbn; repeat split; reflexivity |].
    split; [| reflexivity].
    unfold acceptsWord, isFloat. vm_compute. discriminate.
  - split; [reflexivity |]. cbn [body facetTextOk].
    unfold isTriangle, isPoint, isFloat. cbn. tauto.
Qed.

(** [strayBrokenFile]: the whole triangle is delivered, the result is
    [false], and there are two diagnostics. *)
Lemma Parse_recovers_witness :
  let r := Parse sampleParseFloat extractASCIIString
                 (newParser (streamOf strayBrokenFile)) [] in
  snd r = forallb isWhole strayBrokenItems
  /\ snd (fst r)
     = SetName (extractASCIIString "part 1")
       :: map AppendTriangle (delivered sampleParseFloat strayBrokenItems)
  /\ Forall2 numbered (errors (fst (fst r))) (messages false strayBrokenItems [])
  /\ ErrorText (fst (fst r))
     = (if forallb isWhole strayBrokenItems then EmptyString
        else "Triangles had to be skipped." ++ newline)
       ++ fold_left (fun buf e => buf ++ e ++ newline) (errors (fst (fst r)))
                    EmptyString.
Proof.
  apply (Parse_recovers sampleParseFloat extractASCIIString
           (streamOf strayBrokenFile) "part 1" strayBrokenItems [] ["part"; "1"]).
  exact strayBrokenFile_recoverable.
Defined.

(** [strayBrokenFile] read into a solid that holds one triangle. *)
Lemma readInto_recoverable_witness :
  let s := mkSolid [] "old" (mkSlice [zeroTriangle] 1) false in
  let s' := fst (readInto sampleParseFloat extractASCIIString SolidOps.doubling
                          (streamOf strayBrokenFile) s) in
  elems (Triangles s')
  = (elems (Triangles s) ++ delivered sampleParseFloat strayBrokenItems)%list
  /\ Name s' = extractASCIIString "part 1"
  /\ BinaryHeader s' = BinaryHeader s
  /\ IsAscii s' = IsAscii s
  /\ (snd (readInto sampleParseFloat extractASCIIString SolidOps.doubling
                    (streamOf strayBrokenFile) s) = None
      <-> forallb isWhole strayBrokenItems = true).
Proof.
  intros s.
  apply (readInto_recoverable sampleParseFloat extractASCIIString
           SolidOps.doubling (streamOf strayBrokenFile) "part 1"
           strayBrokenItems [] ["part"; "1"] s).
  exact strayBrokenFile_recoverable.
Defined.

(** [oneTriangleFile] is accepted. *)
Lemma Parse_needs_endsolid_witness :
  snd (Parse sampleParseFloat extractASCIIString
             (newParser (streamOf oneTriangleFile)) []) = true
  /\ headerValid (newParser (streamOf oneTriangleFile)) = true
  /\ exists l, In l (linesLeft (streamOf oneTriangleFile))
               /\ In "endsolid" (lineWords l).
Proof.
  assert (H : snd (Parse sampleParseFloat extractASCIIString
                         (newParser (streamOf oneTriangleFile)) []) = true)
    by (vm_compute; reflexivity).
  split; [exact H |].
  exact (Parse_needs_endsolid sampleParseFloat extractASCIIString
           (streamOf oneTriangleFile) [] H).
Defined.

End StreamExamples.

Module SolidExamples.
Import SolidGo ValidateGo ValidateSpec FindingsSpec SolidOps.
Import SolidOpsFacts FindingsFacts ValidateExamples.

(** Room for three triangles in a solid that holds one, then two appended. *)
Lemma SetTriangleCount_reserves_witness :
  let s := mkSolid [] EmptyString (mkSlice [zeroTriangle] 1) true in
  let ts := [mkTriangle Vec3Zero pA pB pC; mkTriangle Vec3Zero pA pB pD] in
  let s1 := SetTriangleCount 3 s in
  let s2 := fold_left (fun s t => AppendTriangle doubling t s) ts s1 in
  elems (Triangles s1) = elems (Triangles s)
  /\ capacity (Triangles s1) = Z.max (capacity (Triangles s)) 3
  /\ s2 = mkSolid (BinaryHeader s) (Name s)
                  (mkSlice (elems (Triangles s) ++ ts)
                           (Z.max (capacity (Triangles s)) 3))
                  (IsAscii s).
Proof.
  intros s ts.
  apply (SetTriangleCount_reserves doubling s 3 ts).
  - unfold slice_ok, len. simpl. lia.
  - simpl. lia.
  - unfold len. simpl. lia.
Defined.

(** The edge [pA -> pB] inserted for triangle 7 into the empty index. *)
Lemma InsertEdge_then_lookup_witness :
  (InsertEdge 7 pA pB newEdgeLookup = None <-> vecHasNaN pA || vecHasNaN pB = true)
  /\ forall l', InsertEdge 7 pA pB newEdgeLookup = Some l' ->
       forall j,
       OtherTrianglesWithEdge (ascending 0 0 false) l' pA pB j <> None
       /\ (forall k,
             In k (indices (OtherTrianglesWithEdge (ascending 0 0 false) l' pA pB j))
             <-> k <> j
                 /\ (k = 7%nat
                     \/ In k (indices (OtherTrianglesWithEdge (ascending 0 0 false)
                                         newEdgeLookup pA pB j))))
       /\ (forall v' w', keyEq (pA, pB) (v', w') = false ->
             OtherTrianglesWithEdge (ascending 0 0 false) l' v' w' j
             = OtherTrianglesWithEdge (ascending 0 0 false) newEdgeLookup v' w' j).
Proof.
  apply (InsertEdge_then_lookup (ascending 0 0 false) newEdgeLookup 7 pA pB).
  exact (ascending_valid 0%nat 0%nat false).
Defined.

(** Edge 0 of the first of the three equal triangles of [tripleSolid]: two
    other triangles hold it and none holds its reverse. *)
Lemma EdgeError_accessors_witness :
  let m := default ∅ (Validate hasEqualVertices checkNormal HalfPi ascending
                               tripleSolid) in
  let t := mkTriangle (mkVec3 0 0 1) pA pB pC in
  let same := length (others (elems (Triangles tripleSolid)) (edgeOf t 0) 0) in
  let counter :=
    length (others (elems (Triangles tripleSolid)) (reversed (edgeOf t 0)) 0) in
  (edgeError m 0 0 = None <-> same = 0%nat /\ counter = 1%nat)
  /\ forall eer,
       edgeError m 0 0 = Some eer ->
       IsUsedInOtherTriangles eer = negb (same =? 0)%nat
       /\ HasMultipleCounterEdges eer = (1 <? counter)%nat
       /\ HasNoCounterEdge eer = (counter <=? 1)%nat.
Proof.
  intros m t.
  apply (EdgeError_accessors hasEqualVertices checkNormal HalfPi ascending
           tripleSolid m 0 t 0 ascending_valid).
  - vm_compute. reflexivity.
  - reflexivity.
  - lia.
Defined.

(** The entry of the first triangle of [tripleSolid]. *)
Lemma Validate_findings_well_formed_witness :
  let m := default ∅ (Validate hasEqualVertices checkNormal HalfPi ascending
                               tripleSolid) in
  let te := default newTriangleErrors (m !! 0%nat) in
  exists t,
    elems (Triangles tripleSolid) !! 0%nat = Some t
    /\ HasEqualVertices te = hasEqualVertices t
    /\ NormalDoesNotMatch te = negb (checkNormal t HalfPi)
    /\ length (EdgeErrors te) = 3%nat
    /\ forall e eer l,
         EdgeErrors te !! e = Some (Some eer) ->
         SameEdgeTriangles eer = Some l \/ CounterEdgeTriangles eer = Some l ->
         List.NoDup l
         /\ forall j, In j l ->
              j <> 0%nat /\ (j < length (elems (Triangles tripleSolid)))%nat.
Proof.
  intros m te.
  apply (Validate_findings_well_formed hasEqualVertices checkNormal HalfPi
           ascending tripleSolid m 0 te ascending_valid).
  - vm_compute. reflexivity.
  - vm_compute. reflexivity.
Defined.

(** One face of the tetrahedron, alone. *)
Lemma Validate_single_triangle_witness :
  exists m,
    Validate hasEqualVertices checkNormal HalfPi ascending
             (solidOf [mkTriangle (mkVec3 0 0 1) pA pB pC]) = Some m
    /\ forall e, (e < 3)%nat ->
         exists eer,
           edgeError m 0 e = Some eer
           /\ HasNoCounterEdge eer = true
           /\ HasMultipleCounterEdges eer = false
           /\ IsUsedInOtherTriangles eer = false.
Proof.
  apply (Validate_single_triangle hasEqualVertices checkNormal HalfPi ascending
           (solidOf [mkTriangle (mkVec3 0 0 1) pA pB pC])
           (mkTriangle (mkVec3 0 0 1) pA pB pC) ascending_valid).
  - reflexivity.
  - vm_compute. reflexivity.
Defined.

End SolidExamples.
